(** * Topology-aware gang scheduler: a shallow embedding of
    [gpudirect-tcpxo/topology-scheduler/schedule-daemon.py]

    The Python functions of the daemon are transcribed as Rocq functions
    with the same names.  Dictionaries used as maps (labels, node
    selectors) are [gmap string string]; the two dictionaries whose
    insertion order is observed through [.values()] are association lists;
    Python lists are lists, indexed with Python's rules; exceptions are an
    explicit [outcome]; the orchestrator API object [v1] is an explicit
    state.  Resource quantities are exact rationals (the value that
    [parse_quantity] yields), GPU counts and timestamps are integers. *)

From Stdlib Require Import ZArith QArith Ascii String List Bool Lia Sorted.
From Stdlib Require OrderedTypeEx.
From stdpp Require Import base option list gmap strings.

Local Open Scope string_scope.
Local Open Scope list_scope.
Local Open Scope Z_scope.

(** ** Python values and control *)

Inductive exn : Set :=
| IndexError
| ValueError
| TypeError
| AssertionError
| ApiException.

Global Instance exn_eq_dec : EqDecision exn.
Proof. solve_decision. Defined.

(** The result of running a piece of Python: a value, a raised exception,
    or (for the two [while] loops only) exhaustion of the iteration budget
    of the model; the latter is shown never to happen. *)
Inductive outcome (A : Type) : Type :=
| Ok (a : A)
| Raise (e : exn)
| OutOfFuel.
Arguments Ok {A} a.
Arguments Raise {A} e.
Arguments OutOfFuel {A}.

Definition obind {A B} (m : outcome A) (f : A -> outcome B) : outcome B :=
  match m with
  | Ok a => f a
  | Raise e => Raise e
  | OutOfFuel => OutOfFuel
  end.

Notation "'let*' x ':=' m 'in' k" := (obind m (fun x => k))
  (at level 10, x pattern, m at level 100, k at level 200).

Definition len {A} (l : list A) : Z := Z.of_nat (length l).

(** The position that index [z] denotes in [l], with Python's rule for
    negative indices; [None] stands for IndexError. *)
Definition py_pos {A} (l : list A) (z : Z) : option nat :=
  if 0 <=? z then
    if z <? len l then Some (Z.to_nat z) else None
  else
    if 0 <=? z + len l then Some (Z.to_nat (z + len l)) else None.

(** [l[z]] *)
Definition getitem {A} (l : list A) (z : Z) : outcome A :=
  match py_pos l z ≫= (fun k => l !! k) with
  | Some x => Ok x
  | None => Raise IndexError
  end.

(** [l[z] = x], for an index at which [l[z]] was read just before. *)
Definition setitem {A} (l : list A) (z : Z) (x : A) : list A :=
  match py_pos l z with
  | Some k => <[k := x]> l
  | None => l
  end.

(** ** Records built by the daemon *)

(** The dictionary [node_info] of [find_schedulable_nodes]. *)
Record NodeInfo : Type := mkNodeInfo {
  node_name : string;
  node_cpu : Q;
  node_memory : Q;
  node_gpu : Z;
  node_labels : gmap string string;
}.

(** ** Topology key and distance *)

Definition placement_group_label : string := "cloud.google.com/gke-placement-group".
Definition cluster_label : string := "topology.gke.io/cluster".
Definition rack_label : string := "topology.gke.io/rack".
Definition host_label : string := "topology.gke.io/host".

(** A tuple of strings: the empty tuple or a 4-tuple. *)
Definition node_topology_key (node : NodeInfo) : list string :=
  let labels := node_labels node in
  match labels !! placement_group_label, labels !! cluster_label,
        labels !! rack_label, labels !! host_label with
  | Some pg, Some c, Some r, Some h => [pg; c; r; h]
  | _, _, _, _ => []
  end.

(** The [for i in range(len(node1_key))] loop: both keys are walked in
    step, [result] is divided by 100 (true division) after each equal
    coordinate, and [node2_key[i]] raises when the second key is shorter.
    Every value the loop can return is an integer below 2^53, on which
    binary floating point is exact, so rationals model the division. *)
Fixpoint distance_loop (node1_key node2_key : list string) (result : Q)
  : outcome Q :=
  match node1_key with
  | [] => Ok 0%Q
  | k1 :: rest1 =>
      match node2_key with
      | [] => Raise IndexError
      | k2 :: rest2 =>
          if bool_decide (k1 ≠ k2) then Ok result
          else distance_loop rest1 rest2 (result / 100)%Q
      end
  end.

Definition node_topology_distance (node1 node2 : NodeInfo) : outcome Q :=
  let node1_key := node_topology_key node1 in
  let node2_key := node_topology_key node2 in
  distance_loop node1_key node2_key 1000000%Q.

(** ** Orchestrator objects, as far as the daemon reads them *)

(** The five attributes of the client's [V1Toleration], which are what
    its [==] compares. *)
Record V1Toleration : Type := mkToleration {
  toleration_effect : option string;
  toleration_key : option string;
  toleration_operator : option string;
  toleration_seconds : option Z;
  toleration_value : option string;
}.

Global Instance V1Toleration_eq_dec : EqDecision V1Toleration.
Proof. solve_decision. Defined.

Record V1Taint : Type := mkTaint {
  taint_effect : string;
  taint_key : string;
  taint_value : option string;
}.

Record V1PodSchedulingGate : Type := mkGate { gate_name : string }.

(** [container.resources.requests]: the three entries the daemon reads,
    each possibly absent, as parsed values. *)
Record ResourceRequests : Type := mkRequests {
  requests_cpu : option Q;
  requests_memory : option Q;
  requests_gpu : option Z;
}.

Record V1Container : Type := mkContainer {
  resources_requests : option ResourceRequests;
}.

(** [state_terminated] stands for [container_status.state.terminated is not None]. *)
Record V1ContainerStatus : Type := mkContainerStatus {
  state_terminated : bool;
}.

Record V1PodStatus : Type := mkPodStatus {
  container_statuses : option (list V1ContainerStatus);
}.

Record V1ObjectMeta : Type := mkMeta {
  meta_name : string;
  meta_namespace : string;
  meta_labels : option (gmap string string);
  creation_timestamp : option Z;
}.

(** The one shape of [pod.spec.affinity] the daemon writes: a required node
    affinity with a single match expression. *)
Record NodeAffinity : Type := mkNodeAffinity {
  match_key : string;
  match_operator : string;
  match_values : list string;
}.

Record V1PodSpec : Type := mkPodSpec {
  containers : list V1Container;
  node_selector : option (gmap string string);
  tolerations : option (list V1Toleration);
  scheduling_gates : option (list V1PodSchedulingGate);
  spec_node_name : option string;
  affinity : option NodeAffinity;
}.

Record V1Pod : Type := mkPod {
  metadata : V1ObjectMeta;
  spec : V1PodSpec;
  status : option V1PodStatus;
}.

Record V1NodeCondition : Type := mkCondition {
  condition_type : string;
  condition_status : string;
}.

Record Allocatable : Type := mkAllocatable {
  allocatable_cpu : Q;
  allocatable_memory : Q;
  allocatable_gpu : option Z;
}.

(** A node as the filter reads it; [metadata.labels] of a registered node
    is a map and [status.allocatable] has its cpu and memory entries. *)
Record V1Node : Type := mkNode {
  v1node_name : string;
  v1node_labels : gmap string string;
  v1node_taints : option (list V1Taint);
  v1node_conditions : list V1NodeCondition;
  v1node_allocatable : Allocatable;
}.

(** The dictionary stored in [pods_to_schedule] by [find_schedulable_pods]. *)
Record PodRecord : Type := mkPodRecord {
  pod_name : string;
  pod_namespace : string;
  pod_index : option string;
  pod_cpu : Q;
  pod_memory : Q;
  pod_gpu : Z;
  pod_node_selector : option (gmap string string);
  pod_spec : V1PodSpec;
  pod_metadata : V1ObjectMeta;
  pod_job_name : option string;
  pod_creation_time : option Z;
}.

(** ** Insertion-ordered dictionaries *)

Section Dict.
Context {K V : Type} `{EqDecision K}.

Fixpoint dict_get (d : list (K * V)) (k : K) : option V :=
  match d with
  | [] => None
  | (k', v) :: rest => if decide (k' = k) then Some v else dict_get rest k
  end.

(** [d[k] = v]: an existing key keeps its position, a new one goes last. *)
Fixpoint dict_set (d : list (K * V)) (k : K) (v : V) : list (K * V) :=
  match d with
  | [] => [(k, v)]
  | (k', v') :: rest =>
      if decide (k' = k) then (k, v) :: rest else (k', v') :: dict_set rest k v
  end.

Definition dict_values (d : list (K * V)) : list V := map snd d.
End Dict.

(** ** Grouping, and the keys used for sorting *)

(** [itertools.groupby]: maximal runs of consecutive elements with equal
    key.  A group is never empty, so the last case is that of no group. *)
Fixpoint groupby {A B} `{EqDecision B} (key : A -> B) (l : list A) : list (list A) :=
  match l with
  | [] => []
  | x :: rest =>
      match groupby key rest with
      | (y :: g) :: gs =>
          if decide (key x = key y) then (x :: y :: g) :: gs
          else [x] :: (y :: g) :: gs
      | _ => [[x]]
      end
  end.

Definition split_pods_based_on_jobs (pods : list PodRecord) : list (list PodRecord) :=
  groupby pod_job_name pods.

(** Sort keys: [None], an integer, or a tuple of strings and integers. *)
Inductive atom : Set :=
| AStr (s : string)
| AInt (z : Z).

Inductive pykey : Set :=
| KNone
| KInt (z : Z)
| KTuple (items : list atom).

Global Instance atom_eq_dec : EqDecision atom.
Proof. solve_decision. Defined.

Definition string_lt (s1 s2 : string) : bool :=
  match String.compare s1 s2 with Lt => true | _ => false end.

Definition atom_lt (x y : atom) : outcome bool :=
  match x, y with
  | AStr s1, AStr s2 => Ok (string_lt s1 s2)
  | AInt z1, AInt z2 => Ok (z1 <? z2)
  | _, _ => Raise TypeError
  end.

(** Tuple comparison: the first pair of unequal items decides, otherwise
    the shorter tuple is the smaller. *)
Fixpoint tuple_lt (t1 t2 : list atom) : outcome bool :=
  match t1, t2 with
  | [], [] => Ok false
  | [], _ :: _ => Ok true
  | _ :: _, [] => Ok false
  | x :: r1, y :: r2 => if decide (x = y) then tuple_lt r1 r2 else atom_lt x y
  end.

Definition key_lt (k1 k2 : pykey) : outcome bool :=
  match k1, k2 with
  | KInt z1, KInt z2 => Ok (z1 <? z2)
  | KTuple t1, KTuple t2 => tuple_lt t1 t2
  | _, _ => Raise TypeError
  end.

Fixpoint mapM {A B} (f : A -> outcome B) (l : list A) : outcome (list B) :=
  match l with
  | [] => Ok []
  | x :: rest =>
      let* y := f x in
      let* ys := mapM f rest in
      Ok (y :: ys)
  end.

(** [sorted(l, key=key)].  All keys are computed first, in list order; the
    sort is stable and only asks [y < x].  Which pairs a sort compares
    depends on its algorithm, but for the keys the daemon builds (a time
    or [None]; an integer or a (string, integer) pair; a tuple of
    strings) neither the sorted list nor the presence of a TypeError
    does: a comparison raises exactly when it involves [None] or an
    integer and a tuple, and any sort of two or more elements compares
    every element with another and, if both kinds occur, an integer with
    a tuple.  The model inserts each element in front of the sorted
    remainder. *)
Fixpoint sorted_insert {A} (kx : pykey * A) (l : list (pykey * A))
  : outcome (list (pykey * A)) :=
  match l with
  | [] => Ok [kx]
  | ky :: rest =>
      let* lt := key_lt (fst ky) (fst kx) in
      if (lt : bool) then
        let* rest' := sorted_insert kx rest in Ok (ky :: rest')
      else Ok (kx :: ky :: rest)
  end.

Fixpoint sort_keyed {A} (l : list (pykey * A)) : outcome (list (pykey * A)) :=
  match l with
  | [] => Ok []
  | kx :: rest =>
      let* rest' := sort_keyed rest in
      sorted_insert kx rest'
  end.

Definition sorted {A} (l : list A) (key : A -> outcome pykey) : outcome (list A) :=
  let* keyed := mapM (fun x => let* k := key x in Ok (k, x)) l in
  let* s := sort_keyed keyed in
  Ok (map snd s).

Definition sort_jobs_by_time (job : list PodRecord) : outcome pykey :=
  let* first := getitem job 0 in
  Ok (match pod_creation_time first with Some t => KInt t | None => KNone end).

(** [str.isdigit] on the code points below 256: the ASCII digits and the
    superscripts two, three and one. *)
Definition is_ascii_digit (c : ascii) : bool :=
  let n := nat_of_ascii c in (48 <=? n)%nat && (n <=? 57)%nat.

Definition isdigit (c : ascii) : bool :=
  let n := nat_of_ascii c in
  is_ascii_digit c || (n =? 178)%nat || (n =? 179)%nat || (n =? 185)%nat.

(** [int(s)] for a string without white space or sign, which is what a
    label value or a run of [isdigit] characters can be: ASCII digits,
    single underscores allowed between digits; anything else (the
    superscript digits included) is a ValueError. *)
Fixpoint int_digits (acc : Z) (after_digit : bool) (s : list ascii) : option Z :=
  match s with
  | [] => if after_digit then Some acc else None
  | c :: rest =>
      if is_ascii_digit c then
        int_digits (10 * acc + (Z.of_nat (nat_of_ascii c) - 48)) true rest
      else if bool_decide (c = "_"%char) && after_digit then
        int_digits acc false rest
      else None
  end.

Definition int (s : list ascii) : outcome Z :=
  match int_digits 0 false s with
  | Some z => Ok z
  | None => Raise ValueError
  end.

(** The [while name[-1 - len(suffix)].isdigit()] loop.  [remaining] holds
    the characters of [name] in front of [suffix], last first, so that its
    head is [name[-1 - len(suffix)]] and indexing fails when it is empty. *)
Fixpoint scan_suffix (remaining suffix : list ascii) : outcome (list ascii) :=
  match remaining with
  | [] => Raise IndexError
  | c :: rest =>
      if isdigit c then scan_suffix rest (c :: suffix) else Ok suffix
  end.

Definition pod_sorting_key (pod : PodRecord) : outcome pykey :=
  match pod_index pod with
  | Some index =>
      let* i := int (list_ascii_of_string index) in Ok (KInt i)
  | None =>
      let name := list_ascii_of_string (pod_name pod) in
      let* suffix := scan_suffix (rev name) [] in
      let* idx := (if bool_decide (suffix ≠ []) then int suffix else Ok 0) in
      let prefix := take (length name - length suffix) name in
      Ok (KTuple [AStr (string_of_list_ascii prefix); AInt idx])
  end.

Definition node_sorting_key (node : NodeInfo) : outcome pykey :=
  Ok (KTuple (map AStr (node_topology_key node))).

(** ** Resource accounting *)

Definition add3 (x y : Q * Q * Z) : Q * Q * Z :=
  let '(c1, m1, g1) := x in
  let '(c2, m2, g2) := y in
  ((c1 + c2)%Q, (m1 + m2)%Q, g1 + g2).

Definition container_requests (container : V1Container) : Q * Q * Z :=
  match resources_requests container with
  | Some requests =>
      (default 0%Q (requests_cpu requests),
       default 0%Q (requests_memory requests),
       default 0 (requests_gpu requests))
  | None => (0%Q, 0%Q, 0)
  end.

Fixpoint zip_with_status (cs : list V1Container) (ss : list V1ContainerStatus)
  : list (V1Container * V1ContainerStatus) :=
  match cs, ss with
  | c :: cs', s :: ss' => (c, s) :: zip_with_status cs' ss'
  | _, _ => []
  end.

Definition get_pod_used_resources (pod : V1Pod) : Q * Q * Z :=
  match status pod with
  | None => (0%Q, 0%Q, 0)
  | Some st =>
      match container_statuses st with
      | None => (0%Q, 0%Q, 0)
      | Some statuses =>
          fold_left
            (fun used '(container, container_status) =>
               if state_terminated container_status then used
               else add3 used (container_requests container))
            (zip_with_status (containers (spec pod)) statuses)
            (0%Q, 0%Q, 0)
      end
  end.

(** ** Tolerations of a job *)

Fixpoint tolerations_loop (ts : option (list V1Toleration)) (pods : list PodRecord)
  : outcome (option (list V1Toleration)) :=
  match pods with
  | [] => Ok ts
  | pod :: rest =>
      let tols := tolerations (pod_spec pod) in
      match ts with
      | None => tolerations_loop tols rest
      | Some _ =>
          if bool_decide (ts = tols) then tolerations_loop ts rest
          else Raise AssertionError
      end
  end.

Definition get_pods_taint_toleration (pods : list PodRecord)
  : outcome (list V1Toleration) :=
  let* ts := tolerations_loop None pods in
  Ok (default [] ts).

(** ** Node filter *)

Definition taint_not_tolerated
    (tolerated_taint_dict : list (option string * V1Toleration)) (t : V1Taint) : bool :=
  match dict_get tolerated_taint_dict (Some (taint_key t)) with
  | None => true
  | Some tol =>
      bool_decide (toleration_operator tol = Some "Equal")
      && bool_decide (toleration_value tol ≠ taint_value t)
  end.

Definition not_ready (node : V1Node) : bool :=
  existsb
    (fun condition =>
       bool_decide (condition_type condition = "Ready")
       && bool_decide (condition_status condition ≠ "True"))
    (v1node_conditions node).

Definition node_free_resources (node : V1Node) (pods : list V1Pod) : NodeInfo :=
  let node_name := v1node_name node in
  let allocatable := v1node_allocatable node in
  let '(used_cpu, used_memory, used_gpu) :=
    fold_left
      (fun used pod =>
         if bool_decide (spec_node_name (spec pod) = Some node_name)
         then add3 used (get_pod_used_resources pod) else used)
      pods (0%Q, 0%Q, 0) in
  {| node_name := node_name;
     node_cpu := (allocatable_cpu allocatable - used_cpu)%Q;
     node_memory := (allocatable_memory allocatable - used_memory)%Q;
     node_gpu := default 0 (allocatable_gpu allocatable) - used_gpu;
     node_labels := v1node_labels node |}.

(** The [for node in nodes] loop, with [nodes_info] as accumulator; the
    three ways out of an iteration are the source's [continue], [break]
    and falling through to the insertion. *)
Fixpoint nodes_loop (tolerated_taint_dict : list (option string * V1Toleration))
    (pods : list V1Pod) (nodes : list V1Node) (nodes_info : list (string * NodeInfo))
  : list (string * NodeInfo) :=
  match nodes with
  | [] => nodes_info
  | node :: rest =>
      if bool_decide (v1node_labels node !! placement_group_label = None) then
        nodes_loop tolerated_taint_dict pods rest nodes_info
      else
        let skip_node :=
          match v1node_taints node with
          | Some taints => existsb (taint_not_tolerated tolerated_taint_dict) taints
          | None => false
          end in
        if not_ready node then nodes_info
        else if skip_node then nodes_loop tolerated_taint_dict pods rest nodes_info
        else
          nodes_loop tolerated_taint_dict pods rest
            (dict_set nodes_info (v1node_name node) (node_free_resources node pods))
  end.

Definition find_schedulable_nodes (nodes : list V1Node) (pods : list V1Pod)
    (tolerated_taints : option (list V1Toleration)) : list (string * NodeInfo) :=
  let tolerated_taint_dict :=
    match tolerated_taints with
    | Some ts => fold_left (fun d t => dict_set d (toleration_key t) t) ts []
    | None => []
    end in
  nodes_loop tolerated_taint_dict pods nodes [].

(** ** Pod filter *)

Definition completion_index_label : string := "batch.kubernetes.io/job-completion-index".
Definition job_name_label : string := "job-name".

Definition pod_record (pod : V1Pod) : PodRecord :=
  let labels := meta_labels (metadata pod) in
  let pod_index := labels ≫= (fun l => l !! completion_index_label) in
  let job_name := labels ≫= (fun l => l !! job_name_label) in
  let '(used_cpu, used_memory, used_gpu) :=
    fold_left (fun used container => add3 used (container_requests container))
      (containers (spec pod)) (0%Q, 0%Q, 0) in
  {| pod_name := meta_name (metadata pod);
     pod_namespace := meta_namespace (metadata pod);
     pod_index := pod_index;
     pod_cpu := used_cpu;
     pod_memory := used_memory;
     pod_gpu := used_gpu;
     pod_node_selector := node_selector (spec pod);
     pod_spec := spec pod;
     pod_metadata := metadata pod;
     pod_job_name := job_name;
     pod_creation_time := creation_timestamp (metadata pod) |}.

Definition find_schedulable_pods (pods : list V1Pod) (gate : string)
  : list (string * PodRecord) :=
  fold_left
    (fun pods_to_schedule pod =>
       fold_left
         (fun pods_to_schedule g =>
            if bool_decide (gate_name g = gate)
            then dict_set pods_to_schedule (meta_name (metadata pod)) (pod_record pod)
            else pods_to_schedule)
         (default [] (scheduling_gates (spec pod))) pods_to_schedule)
    pods [].

(** ** Feasibility *)

Definition selector_items (sel : option (gmap string string)) : list (string * string) :=
  match sel with
  | Some m => map_to_list m
  | None => []
  end.

Definition can_schedule (node : NodeInfo) (pod : PodRecord) : bool :=
  if forallb
       (fun '(key, value) =>
          match node_labels node !! key with
          | None => false
          | Some v => bool_decide (v = value)
          end)
       (selector_items (pod_node_selector pod))
  then
    Qle_bool (pod_cpu pod) (node_cpu node)
    && Qle_bool (pod_memory pod) (node_memory node)
    && (pod_gpu pod <=? node_gpu node)
  else false.

(** ** Assignment search *)

Inductive ctl (S : Type) : Type :=
| Continue (s : S)
| Break (s : S).
Arguments Continue {S} s.
Arguments Break {S} s.

(** One iteration of the inner [while i >= 0 and all_ok] loop. *)
Definition inner_body (sorted_nodes : list NodeInfo) (sorted_pods : list PodRecord)
    (st : list Z * Z * bool) : outcome (ctl (list Z * Z * bool)) :=
  let '(assignment, i, all_ok) := st in
  let* ai := getitem assignment i in
  let assignment := setitem assignment i (ai + 1) in
  let* ai := getitem assignment i in
  if ai =? len sorted_nodes then Ok (Break (assignment, i, all_ok))
  else
    let* feasible :=
      (if 0 <=? ai then
         let* node := getitem sorted_nodes ai in
         let* pod := getitem sorted_pods i in
         Ok (can_schedule node pod)
       else Ok false) in
    if (feasible : bool) then Ok (Continue (assignment, i - 1, all_ok))
    else
      let* blocked :=
        (if i <? len assignment - 1 then
           let* next := getitem assignment (i + 1) in
           Ok (ai =? next - 1)
         else Ok false) in
      if (blocked : bool) then Ok (Continue (assignment, i, false))
      else Ok (Continue (assignment, i, all_ok)).

Fixpoint inner_while (fuel : nat) (sorted_nodes : list NodeInfo)
    (sorted_pods : list PodRecord) (st : list Z * Z * bool)
  : outcome (list Z * Z * bool) :=
  let '(_, i, all_ok) := st in
  if (0 <=? i) && all_ok then
    match fuel with
    | O => OutOfFuel
    | S fuel' =>
        let* c := inner_body sorted_nodes sorted_pods st in
        match c with
        | Continue st' => inner_while fuel' sorted_nodes sorted_pods st'
        | Break st' => Ok st'
        end
    end
  else Ok st.

(** The [for i in range(1, len(sorted_pods))] sum of distances. *)
Definition assignment_distance (sorted_nodes : list NodeInfo)
    (sorted_pods : list PodRecord) (assignment : list Z) : outcome Q :=
  fold_left
    (fun acc i =>
       let* new_distance := acc in
       let* ai := getitem assignment (Z.of_nat i) in
       let* node1 := getitem sorted_nodes ai in
       let* aj := getitem assignment (Z.of_nat i - 1) in
       let* node2 := getitem sorted_nodes aj in
       let* d := node_topology_distance node1 node2 in
       Ok (new_distance + d)%Q)
    (seq 1 (length sorted_pods - 1)) (Ok 0%Q).

Definition Qlt_bool (x y : Q) : bool := negb (Qle_bool y x).

(** An iteration budget for the inner loop that the current assignment
    cannot exhaust: every iteration increments one entry, and an entry
    stops being incremented at [len(sorted_nodes)]. *)
Definition inner_fuel (sorted_nodes : list NodeInfo) (assignment : list Z) : nat :=
  fold_right (fun v acc => (S (Z.to_nat (len sorted_nodes - v)) + acc)%nat) O assignment.

(** One iteration of the outer [while True] loop; the state is
    [(assignment, best_assignment, minimum_distance)]. *)
Definition outer_body (sorted_nodes : list NodeInfo) (sorted_pods : list PodRecord)
    (st : list Z * list Z * Q) : outcome (ctl (list Z * list Z * Q)) :=
  let '(assignment, best_assignment, minimum_distance) := st in
  let* st' :=
    inner_while (inner_fuel sorted_nodes assignment) sorted_nodes sorted_pods
      (assignment, len assignment - 1, true) in
  let '(assignment, _, all_ok) := st' in
  let* last := getitem assignment (-1) in
  if last =? len sorted_nodes then
    Ok (Break (assignment, best_assignment, minimum_distance))
  else if (all_ok : bool) then
    let* new_distance := assignment_distance sorted_nodes sorted_pods assignment in
    if Qlt_bool new_distance minimum_distance
    then Ok (Continue (assignment, assignment, new_distance))
    else Ok (Continue (assignment, best_assignment, minimum_distance))
  else Ok (Continue (assignment, best_assignment, minimum_distance)).

Fixpoint outer_while (fuel : nat) (sorted_nodes : list NodeInfo)
    (sorted_pods : list PodRecord) (st : list Z * list Z * Q)
  : outcome (list Z) :=
  match fuel with
  | O => OutOfFuel
  | S fuel' =>
      let* c := outer_body sorted_nodes sorted_pods st in
      match c with
      | Continue st' => outer_while fuel' sorted_nodes sorted_pods st'
      | Break (_, best_assignment, _) => Ok best_assignment
      end
  end.

(** [[-i for i in reversed(range(1, n + 1))]] *)
Definition initial_assignment (n : nat) : list Z :=
  map (fun i => - Z.of_nat i) (rev (seq 1 n)).

(** The last entry starts at -1 and grows in every pass of the outer
    loop, which stops when it reaches [len(sorted_nodes)]. *)
Definition calculate_pods_assignment (sorted_nodes : list NodeInfo)
    (sorted_pods : list PodRecord) : outcome (list Z) :=
  let assignment := initial_assignment (length sorted_pods) in
  let best_assignment := [] in
  let minimum_distance := 1000000000%Q in
  outer_while (length sorted_nodes + 2) sorted_nodes sorted_pods
    (assignment, best_assignment, minimum_distance).

(** ** The orchestrator API object [v1] *)

(** What the daemon can observe of the API server: the node list, the
    stored pods, the pods that [replace_namespaced_pod] has written so
    far, oldest first, and how the server will answer the coming calls
    of [replace_namespaced_pod], next call first: [true] stands for an
    answer that the client raises as an ApiException (a conflict with a
    concurrent update, a server or transport failure).  Once the list is
    used up the server accepts. *)
Record CoreV1Api : Type := mkApi {
  api_nodes : list V1Node;
  api_pods : list V1Pod;
  api_replaced : list V1Pod;
  api_replace_errors : list bool;
}.

(** Python code that talks to [v1]: the state is threaded through and
    survives a raised exception. *)
Definition M (A : Type) : Type := CoreV1Api -> outcome A * CoreV1Api.

Definition mret {A} (a : A) : M A := fun v1 => (Ok a, v1).

Definition mbind {A B} (m : M A) (f : A -> M B) : M B :=
  fun v1 =>
    match m v1 with
    | (Ok a, v1') => f a v1'
    | (Raise e, v1') => (Raise e, v1')
    | (OutOfFuel, v1') => (OutOfFuel, v1')
    end.

Definition lift {A} (o : outcome A) : M A := fun v1 => (o, v1).

Notation "'let!' x ':=' m 'in' k" := (mbind m (fun x => k))
  (at level 10, x pattern, m at level 100, k at level 200).

(** [try: m except ApiException: pass] *)
Definition try_except_api (m : M unit) : M unit :=
  fun v1 =>
    match m v1 with
    | (Raise ApiException, v1') => (Ok tt, v1')
    | r => r
    end.

Definition is_pod (name namespace : string) (pod : V1Pod) : bool :=
  bool_decide (meta_name (metadata pod) = name)
  && bool_decide (meta_namespace (metadata pod) = namespace).

Definition read_namespaced_pod (name namespace : string) : M V1Pod :=
  fun v1 =>
    match find (is_pod name namespace) (api_pods v1) with
    | Some pod => (Ok pod, v1)
    | None => (Raise ApiException, v1)
    end.

Fixpoint replace_first (name namespace : string) (pod : V1Pod) (store : list V1Pod)
  : list V1Pod :=
  match store with
  | [] => []
  | p :: rest =>
      if is_pod name namespace p then pod :: rest
      else p :: replace_first name namespace pod rest
  end.

(** The server is about to refuse a replace. *)
Definition replace_refused (v1 : CoreV1Api) : bool :=
  default false (head (api_replace_errors v1)).

(** The API after a call of [replace_namespaced_pod] that wrote nothing. *)
Definition answered (v1 : CoreV1Api) : CoreV1Api :=
  {| api_nodes := api_nodes v1;
     api_pods := api_pods v1;
     api_replaced := api_replaced v1;
     api_replace_errors := tail (api_replace_errors v1) |}.

Definition replace_namespaced_pod (name namespace : string) (pod : V1Pod) : M unit :=
  fun v1 =>
    if replace_refused v1 then (Raise ApiException, answered v1)
    else if existsb (is_pod name namespace) (api_pods v1) then
      (Ok tt,
       {| api_nodes := api_nodes v1;
          api_pods := replace_first name namespace pod (api_pods v1);
          api_replaced := api_replaced v1 ++ [pod];
          api_replace_errors := tail (api_replace_errors v1) |})
    else (Raise ApiException, answered v1).

(** ** Committer *)

Definition hostname_label : string := "kubernetes.io/hostname".

Definition schedule_pod_on_node (name namespace : string) (node : NodeInfo)
    (gate : string) : M unit :=
  try_except_api
    (let! pod := read_namespaced_pod name namespace in
     match scheduling_gates (spec pod) with
     | None => lift (Raise TypeError)
     | Some gates =>
         if existsb (fun g => bool_decide (gate_name g = gate)) gates then
           let new_gates :=
             filter (fun g => gate_name g ≠ gate) gates in
           let new_spec :=
             {| containers := containers (spec pod);
                node_selector := node_selector (spec pod);
                tolerations := tolerations (spec pod);
                scheduling_gates := Some new_gates;
                spec_node_name := spec_node_name (spec pod);
                affinity :=
                  Some {| match_key := hostname_label;
                          match_operator := "In";
                          match_values := [node_name node] |} |} in
           let pod :=
             {| metadata := metadata pod; spec := new_spec; status := status pod |} in
           replace_namespaced_pod name namespace pod
         else mret tt
     end).

(** ** One scheduling round for a gate *)

(** The [for i in range(0, len(sorted_pods))] loop; [i] is the index of
    the head of [todo]. *)
Fixpoint commit_loop (sorted_nodes : list NodeInfo) (best_assignment : list Z)
    (gate : string) (i : Z) (todo : list PodRecord) : M unit :=
  match todo with
  | [] => mret tt
  | pod :: rest =>
      let! k := lift (getitem best_assignment i) in
      let! node := lift (getitem sorted_nodes k) in
      let! _ := schedule_pod_on_node (pod_name pod) (pod_namespace pod) node gate in
      commit_loop sorted_nodes best_assignment gate (i + 1) rest
  end.

Definition schedule_job (nodes : list V1Node) (pods : list V1Pod) (gate : string)
    (job : list PodRecord) : M unit :=
  let! _ := lift (getitem job 0) in
  let! tolerated_taints := lift (get_pods_taint_toleration job) in
  let nodes_to_schedule := find_schedulable_nodes nodes pods (Some tolerated_taints) in
  let! sorted_pods := lift (sorted job pod_sorting_key) in
  let! sorted_nodes := lift (sorted (dict_values nodes_to_schedule) node_sorting_key) in
  let! best_assignment := lift (calculate_pods_assignment sorted_nodes sorted_pods) in
  match best_assignment with
  | [] => mret tt
  | _ => commit_loop sorted_nodes best_assignment gate 0 sorted_pods
  end.

(** The [for job in sorted_jobs] loop. *)
Fixpoint jobs_loop (nodes : list V1Node) (pods : list V1Pod) (gate : string)
    (sorted_jobs : list (list PodRecord)) : M unit :=
  match sorted_jobs with
  | [] => mret tt
  | job :: rest =>
      let! _ := schedule_job nodes pods gate job in
      jobs_loop nodes pods gate rest
  end.

Definition schedule_pod_with_gate (pods : list V1Pod) (gate : string) : M unit :=
  fun v1 =>
    let pods_to_schedule := find_schedulable_pods pods gate in
    let nodes := api_nodes v1 in
    let jobs := split_pods_based_on_jobs (dict_values pods_to_schedule) in
    (let! sorted_jobs := lift (sorted jobs sort_jobs_by_time) in
     jobs_loop nodes pods gate sorted_jobs) v1.

(** ** Properties of assignments *)

(** Consecutive entries increase strictly. *)
Definition increasing (a : list Z) : Prop :=
  forall (j : nat) x y, a !! j = Some x -> a !! S j = Some y -> x < y.

(** Entry [j] of [a] is an index into [sorted_nodes] of a node on which
    [sorted_pods[j]] can be scheduled. *)
Definition placed (sorted_nodes : list NodeInfo) (sorted_pods : list PodRecord)
    (a : list Z) (j : nat) : Prop :=
  exists v node pod,
    a !! j = Some v /\ 0 <= v /\ sorted_nodes !! Z.to_nat v = Some node
    /\ sorted_pods !! j = Some pod /\ can_schedule node pod = true.

(** A feasible strictly increasing assignment of all pods. *)
Definition feasible_assignment (sorted_nodes : list NodeInfo)
    (sorted_pods : list PodRecord) (a : list Z) : Prop :=
  length a = length sorted_pods /\ increasing a
  /\ forall j, (j < length sorted_pods)%nat -> placed sorted_nodes sorted_pods a j.

(** The same, as a test that can be run. *)
Definition is_feasible_assignment (sorted_nodes : list NodeInfo)
    (sorted_pods : list PodRecord) (a : list Z) : bool :=
  bool_decide (length a = length sorted_pods)
  && forallb (fun j =>
       match a !! j, a !! S j with
       | Some x, Some y => x <? y
       | _, _ => true
       end) (seq 0 (length a))
  && forallb (fun j =>
       match a !! j, sorted_pods !! j with
       | Some v, Some pod =>
           (0 <=? v)
           && match sorted_nodes !! Z.to_nat v with
              | Some node => can_schedule node pod
              | None => false
              end
       | _, _ => false
       end) (seq 0 (length sorted_pods)).

(** The order in which [sorted] leaves two nodes: the key of the second
    is not smaller than the key of the first. *)
Definition topology_le (node1 node2 : NodeInfo) : Prop :=
  tuple_lt (map AStr (node_topology_key node2)) (map AStr (node_topology_key node1))
  = Ok false.

(** [k1] does not come after [k2]: what [sorted] establishes between an
    element and every later one. *)
Definition key_le (k1 k2 : pykey) : Prop := key_lt k2 k1 = Ok false.

(** All nodes have topology keys of one length: all are fully labelled,
    or none is. *)
Definition uniform_keys (sorted_nodes : list NodeInfo) : Prop :=
  forall node1 node2,
    node1 ∈ sorted_nodes -> node2 ∈ sorted_nodes ->
    length (node_topology_key node1) = length (node_topology_key node2).

(** Position [i] is the first at which two keys differ. *)
Definition first_differing (k1 k2 : list string) (i : nat) : Prop :=
  take i k1 = take i k2 /\ k1 !! i ≠ k2 !! i.

(** The invariant of the inner loop when it is about to increment entry
    [k - 1] (for [k = 0] the loop is over): the entries from [k] on are
    placed, and entry [k - 1] has room below its right neighbour. *)
Definition inner_inv (sorted_nodes : list NodeInfo) (sorted_pods : list PodRecord)
    (a : list Z) (k : nat) : Prop :=
  length a = length sorted_pods /\ (k <= length sorted_pods)%nat /\ increasing a
  /\ (forall j, (k <= j < length sorted_pods)%nat -> placed sorted_nodes sorted_pods a j)
  /\ (forall k', k = S k' ->
        exists v, a !! k' = Some v
                  /\ (S k' = length sorted_pods -> v < len sorted_nodes)
                  /\ (forall y, a !! S k' = Some y -> v + 1 < y)).

Definition inner_post (sorted_nodes : list NodeInfo) (sorted_pods : list PodRecord)
    (a : list Z) (all_ok : bool) : Prop :=
  length a = length sorted_pods /\ increasing a
  /\ exists v, a !! (length sorted_pods - 1)%nat = Some v /\ v <= len sorted_nodes
       /\ (v < len sorted_nodes -> all_ok = true ->
           forall j, (j < length sorted_pods)%nat -> placed sorted_nodes sorted_pods a j).

Definition outer_inv (sorted_nodes : list NodeInfo) (sorted_pods : list PodRecord)
    (st : list Z * list Z * Q) : Prop :=
  let '(a, best, _) := st in
  length a = length sorted_pods /\ increasing a
  /\ (exists v, a !! (length sorted_pods - 1)%nat = Some v /\ v < len sorted_nodes)
  /\ (best = [] \/ feasible_assignment sorted_nodes sorted_pods best).

Definition last_entry (sorted_pods : list PodRecord) (st : list Z * list Z * Q) : Z :=
  default 0 (st.1.1 !! (length sorted_pods - 1)%nat).

(** The condition under which the assertion of
    [get_pods_taint_toleration] fails: some pod of the job carries
    tolerations other than the first tolerations that are not [None]. *)
Definition tolerations_mismatch (job : list PodRecord) : Prop :=
  exists pre p1 ts rest p2,
    job = pre ++ p1 :: rest
    /\ Forall (fun p => tolerations (pod_spec p) = None) pre
    /\ tolerations (pod_spec p1) = Some ts
    /\ p2 ∈ rest /\ tolerations (pod_spec p2) ≠ Some ts.

(** ** Concrete clusters and jobs *)

Definition topology_labels (pg c r h : string) : gmap string string :=
  <[placement_group_label := pg]>
    (<[cluster_label := c]> (<[rack_label := r]> (<[host_label := h]> ∅))).

(** A node record with room for eight of everything; [marks] are extra
    labels with value "y", used by pods as node selectors. *)
Definition ex_node_info (name : string) (labels : gmap string string)
    (marks : list string) : NodeInfo :=
  {| node_name := name; node_cpu := 8; node_memory := 8; node_gpu := 8;
     node_labels := foldr (fun k m => <[k := "y"]> m) labels marks |}.

Definition ex_spec (selector : option (gmap string string))
    (tols : option (list V1Toleration)) (gates : option (list V1PodSchedulingGate))
  : V1PodSpec :=
  {| containers := [ {| resources_requests :=
                          Some {| requests_cpu := Some 1%Q;
                                  requests_memory := Some 1%Q;
                                  requests_gpu := Some 1 |} |} ];
     node_selector := selector;
     tolerations := tols;
     scheduling_gates := gates;
     spec_node_name := None;
     affinity := None |}.

Definition ex_gate : string := "gke.io/topology-aware-auto-x".

(** A gated pod of job [job], created at [created]. *)
Definition ex_pod (name job : string) (created : Z)
    (selector : option (gmap string string)) (tols : option (list V1Toleration))
  : V1Pod :=
  {| metadata := {| meta_name := name; meta_namespace := "default";
                    meta_labels := Some {[ job_name_label := job ]};
                    creation_timestamp := Some created |};
     spec := ex_spec selector tols (Some [ {| gate_name := ex_gate |} ]);
     status := None |}.

Definition ex_selected (name mark : string) : PodRecord :=
  pod_record (ex_pod name "job" 0 (Some {[ mark := "y" ]}) None).

Definition ex_plain (name job : string) : PodRecord :=
  pod_record (ex_pod name job 0 None None).

(** Four nodes on one rack: pod0 fits only on n1, pod1 on n0 and n2,
    pod2 only on n3. *)
Definition ex1_nodes : list NodeInfo :=
  [ ex_node_info "n0" (topology_labels "pg" "c" "r" "h0") ["fits-pod1"];
    ex_node_info "n1" (topology_labels "pg" "c" "r" "h1") ["fits-pod0"];
    ex_node_info "n2" (topology_labels "pg" "c" "r" "h2") ["fits-pod1"];
    ex_node_info "n3" (topology_labels "pg" "c" "r" "h3") ["fits-pod2"] ].

Definition ex1_pods : list PodRecord :=
  [ ex_selected "pod0" "fits-pod0"; ex_selected "pod1" "fits-pod1";
    ex_selected "pod2" "fits-pod2" ].

(** Five nodes on three racks, two hosts on the first and on the last. *)
Definition ex2_nodes : list NodeInfo :=
  [ ex_node_info "n0" (topology_labels "pg" "c" "r1" "h1") [];
    ex_node_info "n1" (topology_labels "pg" "c" "r1" "h2") [];
    ex_node_info "n2" (topology_labels "pg" "c" "r2" "h1") [];
    ex_node_info "n3" (topology_labels "pg" "c" "r3" "h1") [];
    ex_node_info "n4" (topology_labels "pg" "c" "r3" "h2") [] ].

(** The same nodes in the order in which the API might list them. *)
Definition ex2_listed : list NodeInfo :=
  [ ex_node_info "n3" (topology_labels "pg" "c" "r3" "h1") [];
    ex_node_info "n0" (topology_labels "pg" "c" "r1" "h1") [];
    ex_node_info "n4" (topology_labels "pg" "c" "r3" "h2") [];
    ex_node_info "n2" (topology_labels "pg" "c" "r2" "h1") [];
    ex_node_info "n1" (topology_labels "pg" "c" "r1" "h2") [] ].

Definition ex2_pods : list PodRecord :=
  [ ex_plain "pod0" "job"; ex_plain "pod1" "job"; ex_plain "pod2" "job";
    ex_plain "pod3" "job" ].

Definition ex_allocatable : Allocatable :=
  {| allocatable_cpu := 8; allocatable_memory := 8; allocatable_gpu := Some 8 |}.

Definition ex_ready : list V1NodeCondition :=
  [ {| condition_type := "Ready"; condition_status := "True" |} ].

Definition ex_v1node (name : string) (labels : gmap string string)
    (conditions : list V1NodeCondition) : V1Node :=
  {| v1node_name := name; v1node_labels := labels; v1node_taints := None;
     v1node_conditions := conditions; v1node_allocatable := ex_allocatable |}.

Definition ex_not_ready_node : V1Node :=
  ex_v1node "down" (topology_labels "pg" "c" "r" "h0")
    [ {| condition_type := "Ready"; condition_status := "False" |} ].

Definition ex_ready_node : V1Node :=
  ex_v1node "up" (topology_labels "pg" "c" "r" "h1") ex_ready.

(** A Ready node that carries the placement-group label and no other
    topology label. *)
Definition ex_partial_node : V1Node :=
  ex_v1node "partial" {[ placement_group_label := "pg" ]} ex_ready.

(** Two jobs whose pods are listed interleaved. *)
Definition ex_interleaved : list PodRecord :=
  [ ex_plain "a-0" "a"; ex_plain "b-0" "b"; ex_plain "a-1" "a" ].

(** Job "a" (created first) has two pods with different tolerations; job
    "b" has one pod, which fits on the only node. *)
Definition ex_toleration : V1Toleration :=
  {| toleration_effect := Some "NoSchedule"; toleration_key := Some "k1";
     toleration_operator := Some "Exists"; toleration_seconds := None;
     toleration_value := None |}.

(** Tolerations that differ in nothing but [toleration_seconds]. *)
Definition ex_toleration_for (seconds : Z) : V1Toleration :=
  {| toleration_effect := Some "NoExecute"; toleration_key := Some "k1";
     toleration_operator := Some "Exists"; toleration_seconds := Some seconds;
     toleration_value := None |}.

Definition ex_pod_a0 : V1Pod := ex_pod "a-0" "a" 100 None (Some [ex_toleration]).
Definition ex_pod_a1 : V1Pod := ex_pod "a-1" "a" 100 None (Some []).
Definition ex_pod_b0 : V1Pod := ex_pod "b-0" "b" 200 None None.

Definition ex_api (pods : list V1Pod) : CoreV1Api :=
  {| api_nodes := [ex_ready_node]; api_pods := pods; api_replaced := [];
     api_replace_errors := [] |}.

(** A pod with the target gate, a foreign gate and another gate of the
    same prefix. *)
Definition ex_gates : list V1PodSchedulingGate :=
  [ {| gate_name := ex_gate |}; {| gate_name := "other/gate-y" |};
    {| gate_name := "gke.io/topology-aware-auto-z" |} ].

Definition ex_three_gates : V1Pod :=
  {| metadata := {| meta_name := "p"; meta_namespace := "default";
                    meta_labels := None; creation_timestamp := Some 0 |};
     spec := ex_spec None None (Some ex_gates);
     status := None |}.

(** A gated pod without labels whose name is all digits. *)
Definition ex_digits : V1Pod :=
  {| metadata := {| meta_name := "123"; meta_namespace := "default";
                    meta_labels := None; creation_timestamp := Some 0 |};
     spec := ex_spec None None (Some [ {| gate_name := ex_gate |} ]);
     status := None |}.

Definition ex_rack1_node : NodeInfo :=
  ex_node_info "n0" (topology_labels "pg" "c" "r1" "h1") [].

Definition ex_rack2_node : NodeInfo :=
  ex_node_info "n2" (topology_labels "pg" "c" "r2" "h1") [].

Definition ex_pods_ab : list V1Pod := [ex_pod_a0; ex_pod_a1; ex_pod_b0].

(** A gated pod without labels. *)
Definition gated_pod (name : string) : V1Pod :=
  {| metadata := {| meta_name := name; meta_namespace := "default";
                    meta_labels := None; creation_timestamp := Some 0 |};
     spec := ex_spec None None (Some [ {| gate_name := ex_gate |} ]);
     status := None |}.

(** Two pods of one job, and a cluster of a node with only the
    placement-group label and a fully labelled node. *)
Definition ex_pods_pair : list V1Pod :=
  [ ex_pod "a-0" "a" 100 None None; ex_pod "a-1" "a" 100 None None ].

Definition ex_api_partial : CoreV1Api :=
  {| api_nodes := [ex_partial_node; ex_ready_node]; api_pods := ex_pods_pair;
     api_replaced := []; api_replace_errors := [] |}.

(** ** Gate discovery and the control loop *)

(** [find_pod_gates]: the set of the gate names that start with [prefix]. *)
Definition find_pod_gates (pods : list V1Pod) (prefix : string) : gset string :=
  fold_left
    (fun s pod =>
       fold_left
         (fun s g =>
            if String.prefix prefix (gate_name g) then {[ gate_name g ]} ∪ s else s)
         (default [] (scheduling_gates (spec pod))) s)
    pods ∅.

(** [v1.list_namespaced_pod(n).items] *)
Definition list_namespaced_pod (n : string) : M (list V1Pod) :=
  fun v1 =>
    (Ok (filter (fun pod => meta_namespace (metadata pod) = n) (api_pods v1)), v1).

(** The inner function [list_pods] of [run_scheduling_loop].
    [namespaces] holds the names that [v1.list_namespace()] answers with,
    [ignored] is [args.ignored_namespace]. *)
Fixpoint list_pods_loop (filtered_namespace_names : list string) (pods : list V1Pod)
  : M (list V1Pod) :=
  match filtered_namespace_names with
  | [] => mret pods
  | n :: rest =>
      let! items := list_namespaced_pod n in
      list_pods_loop rest (pods ++ items)
  end.

Definition list_pods (namespaces ignored : list string) : M (list V1Pod) :=
  let filtered_namespace_names :=
    filter (fun n => n ∉ ignored) namespaces in
  list_pods_loop filtered_namespace_names [].

(** The [for g in gates] loop of a tick, over the gate names in the order
    in which the set yields them. *)
Fixpoint gates_loop (namespaces ignored : list string) (gates : list string) : M unit :=
  match gates with
  | [] => mret tt
  | g :: rest =>
      let! pods := list_pods namespaces ignored in
      let! _ := schedule_pod_with_gate pods g in
      gates_loop namespaces ignored rest
  end.

(** [args.interval]: the option [--interval] is declared with the
    default [1.0] and without a [type], so it holds that float when the
    option is absent and the string from the command line when it is
    given. *)
Inductive interval_arg : Set :=
| IntervalDefault
| IntervalGiven (text : string).

(** [if interval < args.interval: time.sleep(args.interval - interval)],
    where [interval] is a difference of two [time.time()] floats: a
    float compares with the float default, and the sleep changes
    nothing that the daemon observes; against a string [<] raises
    TypeError. *)
Definition interval_wait (interval : interval_arg) : outcome unit :=
  match interval with
  | IntervalDefault => Ok tt
  | IntervalGiven _ => Raise TypeError
  end.

(** The body of the [while True] loop of [run_scheduling_loop]; of its
    sleeps only the test that guards the first is kept.  [set_order] is
    the order in which Python iterates over a set of strings. *)
Definition scheduling_tick (set_order : gset string -> list string)
    (namespaces ignored : list string) (prefix : string) (interval : interval_arg)
  : M unit :=
  let! _ := lift (interval_wait interval) in
  let! pods := list_pods namespaces ignored in
  let gates := find_pod_gates pods prefix in
  if bool_decide (size gates = 0%nat) then mret tt
  else gates_loop namespaces ignored (set_order gates).

(** [ticks] rounds of the loop inside its [try ... except ApiException]. *)
Fixpoint ticks_loop (set_order : gset string -> list string)
    (namespaces ignored : list string) (prefix : string) (interval : interval_arg)
    (ticks : nat) : M unit :=
  match ticks with
  | O => mret tt
  | S ticks' =>
      let! _ := scheduling_tick set_order namespaces ignored prefix interval in
      ticks_loop set_order namespaces ignored prefix interval ticks'
  end.

Definition run_scheduling_loop (set_order : gset string -> list string)
    (namespaces ignored : list string) (prefix : string) (interval : interval_arg)
    (ticks : nat) : M unit :=
  try_except_api (ticks_loop set_order namespaces ignored prefix interval ticks).

(** ** Further properties used in the statements *)

(** The pod carries a gate named [gate]. *)
Definition carries_gate (gate : string) (pod : V1Pod) : Prop :=
  gate ∈ map gate_name (default [] (scheduling_gates (spec pod))).

Global Instance carries_gate_dec gate pod : Decision (carries_gate gate pod).
Proof. unfold carries_gate. apply _. Defined.


(** What one pod contributes to [pods_to_schedule]. *)
Definition pods_step (gate : string) (d : list (string * PodRecord)) (pod : V1Pod)
  : list (string * PodRecord) :=
  if bool_decide (carries_gate gate pod)
  then dict_set d (meta_name (metadata pod)) (pod_record pod) else d.

(** The dictionary that [find_schedulable_nodes] builds from the job's
    tolerations. *)
Definition tolerated_taint_dict (tolerated_taints : option (list V1Toleration))
  : list (option string * V1Toleration) :=
  match tolerated_taints with
  | Some ts => fold_left (fun d t => dict_set d (toleration_key t) t) ts []
  | None => []
  end.

(** The last toleration with the taint's key exists and, if its operator
    is "Equal", has the taint's value. *)
Definition tolerates (ts : list V1Toleration) (t : V1Taint) : Prop :=
  exists tol,
    last (filter (fun tol => toleration_key tol = Some (taint_key t)) ts) = Some tol
    /\ (toleration_operator tol = Some "Equal" -> toleration_value tol = taint_value t).

(** The pod is bound to the node of that name. *)
Definition bound_to (name : string) (pod : V1Pod) : Prop :=
  spec_node_name (spec pod) = Some name.

Global Instance bound_to_dec name pod : Decision (bound_to name pod).
Proof. unfold bound_to. apply _. Defined.

(** The identity of a stored pod. *)
Definition pod_id (pod : V1Pod) : string * string :=
  (meta_name (metadata pod), meta_namespace (metadata pod)).

(** What a pod written by a round for [gate] looks like: it has the
    name and namespace of a listed pod that carried the gate, a gate
    list without the gate, and a hostname affinity for one of the nodes. *)
Definition written_by_round (nodes : list V1Node) (pods : list V1Pod) (gate : string)
    (written : V1Pod) : Prop :=
  (exists pod, pod ∈ pods /\ carries_gate gate pod /\ pod_id written = pod_id pod)
  /\ (exists gates, scheduling_gates (spec written) = Some gates
                    /\ gate ∉ map gate_name gates)
  /\ (exists node, node ∈ nodes
                   /\ affinity (spec written)
                      = Some {| match_key := hostname_label; match_operator := "In";
                                match_values := [v1node_name node] |}).

(** The footprint of a round on the API: the node list and the
    identities of the stored pods stay, and pods are appended to the
    record of writes. *)
Definition round_effect (P : V1Pod -> Prop) (v1 v1' : CoreV1Api) : Prop :=
  api_nodes v1' = api_nodes v1
  /\ map pod_id (api_pods v1') = map pod_id (api_pods v1)
  /\ exists written, api_replaced v1' = api_replaced v1 ++ written /\ Forall P written.

(** What a pod written by the control loop looks like: its namespace is
    listed and not ignored, and it is pinned to one of the nodes. *)
Definition written_by_loop (nodes : list V1Node) (namespaces ignored : list string)
    (written : V1Pod) : Prop :=
  (meta_namespace (metadata written) ∈ namespaces)
  /\ (meta_namespace (metadata written) ∉ ignored)
  /\ exists node, node ∈ nodes
                  /\ affinity (spec written)
                     = Some {| match_key := hostname_label; match_operator := "In";
                               match_values := [v1node_name node] |}.

(** The number that a string of ASCII digits denotes. *)
Definition decimal_value (digits : list ascii) : Z :=
  fold_left (fun acc c => 10 * acc + (Z.of_nat (nat_of_ascii c) - 48)) digits 0.

Global Instance pykey_eq_dec : EqDecision pykey.
Proof. solve_decision. Defined.

Global Instance outcome_eq_dec {A} `{EqDecision A} : EqDecision (outcome A).
Proof. solve_decision. Defined.

(** The kinds of keys that [<] compares without a TypeError. *)
Definition all_ints {A} (l : list (pykey * A)) : Prop :=
  Forall (fun p => exists z, fst p = KInt z) l.

Definition all_tuples {A} (l : list (pykey * A)) : Prop :=
  Forall (fun p => exists t, fst p = KTuple t) l.

(** ** Further concrete inputs *)

(** A gated pod of the same name as [ex_pod_b0] in another namespace. *)
Definition ex_same_name_other : V1Pod :=
  {| metadata := {| meta_name := "b-0"; meta_namespace := "batch";
                    meta_labels := Some {[ job_name_label := "b" ]};
                    creation_timestamp := Some 300 |};
     spec := ex_spec None None (Some [ {| gate_name := ex_gate |} ]);
     status := None |}.

(** A node tainted k1=v1, and two tolerations of key k1 with operator
    "Equal": the first for the value v1, the second for v2. *)
Definition ex_taint : V1Taint :=
  {| taint_effect := "NoSchedule"; taint_key := "k1"; taint_value := Some "v1" |}.

Definition ex_tainted_node : V1Node :=
  {| v1node_name := "tainted"; v1node_labels := topology_labels "pg" "c" "r" "h2";
     v1node_taints := Some [ex_taint]; v1node_conditions := ex_ready;
     v1node_allocatable := ex_allocatable |}.

Definition ex_toleration_v1 : V1Toleration :=
  {| toleration_effect := Some "NoSchedule"; toleration_key := Some "k1";
     toleration_operator := Some "Equal"; toleration_seconds := None;
     toleration_value := Some "v1" |}.

Definition ex_toleration_v2 : V1Toleration :=
  {| toleration_effect := Some "NoSchedule"; toleration_key := Some "k1";
     toleration_operator := Some "Equal"; toleration_seconds := None;
     toleration_value := Some "v2" |}.

(** A pod bound to node "up" whose only container has terminated. *)
Definition ex_finished_pod : V1Pod :=
  {| metadata := {| meta_name := "done"; meta_namespace := "default";
                    meta_labels := None; creation_timestamp := Some 0 |};
     spec := {| containers := containers (ex_spec None None None);
                node_selector := None; tolerations := None;
                scheduling_gates := None; spec_node_name := Some "up";
                affinity := None |};
     status := Some {| container_statuses :=
                         Some [ {| state_terminated := true |} ] |} |}.

(** A pod record with a completion index, a pod without creation
    timestamp, and a second node record with the key of [ex_rack2_node]. *)
Definition ex_indexed_pod : PodRecord :=
  pod_record
    {| metadata := {| meta_name := "job-0"; meta_namespace := "default";
                      meta_labels := Some {[ completion_index_label := "0" ]};
                      creation_timestamp := Some 0 |};
       spec := ex_spec None None (Some [ {| gate_name := ex_gate |} ]);
       status := None |}.

Definition ex_untimed_pod : V1Pod :=
  {| metadata := {| meta_name := "b-0"; meta_namespace := "default";
                    meta_labels := Some {[ job_name_label := "b" ]};
                    creation_timestamp := None |};
     spec := ex_spec None None (Some [ {| gate_name := ex_gate |} ]);
     status := None |}.

Definition ex_rack2_twin : NodeInfo :=
  ex_node_info "n2-twin" (topology_labels "pg" "c" "r2" "h1") [].

(** A pod whose node selector no node of [ex1_nodes] satisfies. *)
Definition ex_unplaceable : PodRecord := ex_selected "pod9" "fits-none".

(** The API of [ex_api] with the answers to the coming replace calls. *)
Definition ex_api_refusing (errors : list bool) (pods : list V1Pod) : CoreV1Api :=
  {| api_nodes := [ex_ready_node]; api_pods := pods; api_replaced := [];
     api_replace_errors := errors |}.


(** * Verification *)

(** ** Indexing *)

Lemma py_pos_nat {A} (l : list A) (k : nat) :
  (k < length l)%nat -> py_pos l (Z.of_nat k) = Some k.
Proof.
  intros Hk. unfold py_pos, len.
  destruct (Z.leb_spec 0 (Z.of_nat k)); [|lia].
  destruct (Z.ltb_spec (Z.of_nat k) (Z.of_nat (length l))); [|lia].
  by rewrite Nat2Z.id.
Qed.

Lemma getitem_nat {A} (l : list A) (k : nat) x :
  l !! k = Some x -> getitem l (Z.of_nat k) = Ok x.
Proof.
  intros Hx. unfold getitem.
  rewrite py_pos_nat by (by eapply lookup_lt_Some). simpl. by rewrite Hx.
Qed.

Lemma getitem_Z {A} (l : list A) z x :
  0 <= z -> l !! Z.to_nat z = Some x -> getitem l z = Ok x.
Proof. intros Hz Hx. rewrite <- (Z2Nat.id z Hz). by apply getitem_nat. Qed.

Lemma setitem_nat {A} (l : list A) (k : nat) x :
  (k < length l)%nat -> setitem l (Z.of_nat k) x = <[k := x]> l.
Proof. intros Hk. unfold setitem. by rewrite py_pos_nat. Qed.

Lemma getitem_last {A} (l : list A) (k : nat) x :
  length l = S k -> l !! k = Some x -> getitem l (-1) = Ok x.
Proof.
  intros Hl Hx. unfold getitem, py_pos, len. rewrite Hl.
  destruct (Z.leb_spec 0 (-1)); [lia|].
  destruct (Z.leb_spec 0 (-1 + Z.of_nat (S k))); [|lia].
  replace (Z.to_nat (-1 + Z.of_nat (S k))) with k by lia.
  simpl. by rewrite Hx.
Qed.

Lemma getitem_fuel {A} (l : list A) z : getitem l z ≠ OutOfFuel.
Proof. unfold getitem. by destruct (py_pos l z ≫= _). Qed.

(** ** The distance law *)

Lemma distance_loop_fuel k1 : forall k2 r, distance_loop k1 k2 r ≠ OutOfFuel.
Proof.
  induction k1 as [|x1 k1 IH]; intros [|x2 k2] r; cbn; try done.
  case_bool_decide; [done|]. apply IH.
Qed.

Lemma distance_loop_equal k : forall r, distance_loop k k r = Ok 0%Q.
Proof.
  induction k as [|x k IH]; intros r; cbn; [done|].
  rewrite bool_decide_eq_false_2 by (intros Hne; by apply Hne). apply IH.
Qed.

(** C4: for two nodes whose topology keys are full 4-tuples the distance
    is 0 when the keys are equal, and otherwise 10^(6 - 2 i) where i is
    the position (from 0) of the first coordinate at which they differ:
    1000000, 10000, 100 and 1. *)
Theorem node_topology_distance_law (node1 node2 : NodeInfo) :
  length (node_topology_key node1) = 4%nat ->
  length (node_topology_key node2) = 4%nat ->
  (node_topology_key node1 = node_topology_key node2 ->
   node_topology_distance node1 node2 = Ok 0%Q)
  /\ (forall i,
        first_differing (node_topology_key node1) (node_topology_key node2) i ->
        (i < 4)%nat
        /\ exists d, node_topology_distance node1 node2 = Ok d
                     /\ (d == inject_Z (10 ^ (6 - 2 * Z.of_nat i)))%Q).
Proof.
  intros H1 H2. unfold node_topology_distance. split.
  - intros ->. apply distance_loop_equal.
  - intros i [Htake Hdiff].
    destruct (node_topology_key node1) as [|a0 [|a1 [|a2 [|a3 [|? ?]]]]]; try done.
    destruct (node_topology_key node2) as [|b0 [|b1 [|b2 [|b3 [|? ?]]]]]; try done.
    destruct i as [|[|[|[|i]]]]; cbn in Htake, Hdiff; simplify_eq.
    all: split; [lia|]; cbn [distance_loop].
    all: repeat (rewrite (bool_decide_eq_false_2 (_ ≠ _))
                   by (intros Hne; by apply Hne)).
    all: rewrite bool_decide_eq_true_2 by congruence.
    all: eexists; split; [reflexivity|]; reflexivity.
Qed.

Lemma node_topology_distance_law_witness :
  let node1 := ex_node_info "n0" (topology_labels "pg" "c" "r1" "h1") [] in
  let node2 := ex_node_info "n2" (topology_labels "pg" "c" "r2" "h1") [] in
  length (node_topology_key node1) = 4%nat
  /\ length (node_topology_key node2) = 4%nat
  /\ first_differing (node_topology_key node1) (node_topology_key node2) 2
  /\ exists d, node_topology_distance node1 node2 = Ok d /\ (d == 100)%Q.
Proof.
  intros node1 node2.
  assert (Hdiff : first_differing (node_topology_key node1) (node_topology_key node2) 2).
  { split; [reflexivity|]. vm_compute. congruence. }
  split; [reflexivity|]. split; [reflexivity|]. split; [exact Hdiff|].
  destruct (node_topology_distance_law node1 node2 eq_refl eq_refl) as [_ Hlaw].
  destruct (Hlaw 2%nat Hdiff) as [_ (d & Hd & Heq)].
  exists d. split; [exact Hd|exact Heq].
Defined.

(** ** Feasibility *)

Lemma can_schedule_spec (node : NodeInfo) (pod : PodRecord) :
  can_schedule node pod = true <->
  (forall key value,
      (key, value) ∈ selector_items (pod_node_selector pod) ->
      node_labels node !! key = Some value)
  /\ (pod_cpu pod <= node_cpu node)%Q
  /\ (pod_memory pod <= node_memory node)%Q
  /\ pod_gpu pod <= node_gpu node.
Proof.
  unfold can_schedule.
  destruct (forallb _ _) eqn:Hsel.
  - rewrite !andb_true_iff, !Qle_bool_iff, Z.leb_le.
    rewrite forallb_forall in Hsel. split; [|tauto].
    intros [[Hc Hm] Hg]. split; [|done].
    intros key value Hin. apply list_elem_of_In in Hin.
    specialize (Hsel _ Hin). cbn in Hsel.
    destruct (node_labels node !! key); [|done].
    by apply bool_decide_eq_true in Hsel as ->.
  - split; [done|]. intros [Hall _].
    assert (forallb
              (fun '(key, value) =>
                 match node_labels node !! key with
                 | Some v => bool_decide (v = value)
                 | None => false
                 end) (selector_items (pod_node_selector pod)) = true) as Htrue;
      [|congruence].
    apply forallb_forall. intros [key value] Hin.
    apply list_elem_of_In in Hin. rewrite (Hall _ _ Hin).
    by apply bool_decide_eq_true.
Qed.

Lemma selector_items_lookup (sel : gmap string string) key value :
  (key, value) ∈ selector_items (Some sel) <-> sel !! key = Some value.
Proof. apply elem_of_map_to_list. Qed.

(** ** Sorting *)

Section Sorting.
Context {A : Type}.

(** A class of keys on which [<] is defined and is a strict weak order. *)
Variable comparable : pykey -> Prop.
Hypothesis comparable_defined :
  forall k1 k2, comparable k1 -> comparable k2 -> exists b, key_lt k1 k2 = Ok b.
Hypothesis comparable_asym :
  forall k1 k2, comparable k1 -> comparable k2 ->
    key_lt k1 k2 = Ok true -> key_lt k2 k1 = Ok false.
Hypothesis comparable_trans :
  forall k1 k2 k3, comparable k1 -> comparable k2 -> comparable k3 ->
    key_le k1 k2 -> key_le k2 k3 -> key_le k1 k3.

Local Abbreviation keyed_le := (fun p q : pykey * A => key_le (fst p) (fst q)).
Local Abbreviation all_comparable := (Forall (fun p : pykey * A => comparable (fst p))).

Lemma sorted_insert_sorted (kx : pykey * A) (l : list (pykey * A)) :
  comparable (fst kx) -> all_comparable l -> StronglySorted keyed_le l ->
  exists l', sorted_insert kx l = Ok l'
             /\ StronglySorted keyed_le l' /\ l' ≡ₚ kx :: l.
Proof.
  intros Hkx Hl Hsorted. induction Hsorted as [|ky rest Hrest IH Hall]; cbn.
  - exists [kx]. repeat split; [repeat constructor|done].
  - inversion Hl as [|? ? Hky Hcomp]; subst.
    destruct (comparable_defined (fst ky) (fst kx) Hky Hkx) as [b Hb].
    rewrite Hb. cbn [obind]. destruct b.
    + destruct (IH Hcomp) as (l' & -> & Hs' & Hp'). cbn [obind].
      exists (ky :: l'). split; [done|]. split.
      * constructor; [done|]. rewrite Hp'. constructor; [|done].
        by apply comparable_asym.
      * rewrite Hp'. apply Permutation_swap.
    + exists (kx :: ky :: rest). split; [done|]. split; [|done].
      constructor; [by constructor|]. constructor; [done|].
      rewrite Forall_forall in Hall. rewrite Forall_forall in Hcomp.
      rewrite Forall_forall. intros kz Hz.
      apply (comparable_trans _ (fst ky)); auto.
Qed.

Lemma sort_keyed_sorted (l : list (pykey * A)) :
  all_comparable l ->
  exists l', sort_keyed l = Ok l' /\ StronglySorted keyed_le l' /\ l' ≡ₚ l.
Proof.
  induction 1 as [|kx rest Hkx Hrest IH]; cbn.
  - exists []. repeat split; [constructor|done].
  - destruct IH as (rest' & -> & Hs & Hp). cbn [obind].
    destruct (sorted_insert_sorted kx rest' Hkx) as (l' & Hl' & Hs' & Hp'); [|done|].
    { by rewrite Hp. }
    exists l'. split; [done|]. split; [done|]. by rewrite Hp', Hp.
Qed.

Lemma mapM_keys (keyf : A -> outcome pykey) (key : A -> pykey) (l : list A) :
  Forall (fun x => keyf x = Ok (key x)) l ->
  mapM (fun x => let* k := keyf x in Ok (k, x)) l = Ok (map (fun x => (key x, x)) l).
Proof.
  induction 1 as [|x l Hx _ IH]; cbn [mapM]; [done|]. by rewrite Hx, IH.
Qed.

(** When every key is computed without error and lies in the class,
    [sorted] returns a permutation of its input in which no element
    comes after a later one. *)
Lemma sorted_sorts (keyf : A -> outcome pykey) (key : A -> pykey) (l : list A) :
  Forall (fun x => keyf x = Ok (key x) /\ comparable (key x)) l ->
  exists l', sorted l keyf = Ok l'
             /\ StronglySorted (fun x y => key_le (key x) (key y)) l'
             /\ l' ≡ₚ l.
Proof.
  intros Hl. unfold sorted.
  rewrite (mapM_keys keyf key) by (eapply Forall_impl; [done|]; by intros x [? _]).
  cbn [obind].
  destruct (sort_keyed_sorted (map (fun x => (key x, x)) l))
    as (s & -> & Hs & Hp).
  { rewrite Forall_forall in Hl. rewrite Forall_forall. intros [k x] Hin.
    apply list_elem_of_fmap in Hin as (y & [= -> ->] & Hy). by apply Hl. }
  cbn [obind]. exists (map snd s). split; [done|].
  assert (Hkeys : Forall (fun p : pykey * A => fst p = key (snd p)) s).
  { rewrite Hp. rewrite Forall_forall. intros [k x] Hin.
    by apply list_elem_of_fmap in Hin as (y & [= -> ->] & Hy). }
  split.
  - clear Hp. induction Hs as [|p s Hs IH Hall]; cbn; [constructor|].
    inversion Hkeys as [|? ? Hp Hkeys']; subst.
    constructor; [by apply IH|].
    rewrite Forall_forall in Hall. rewrite Forall_forall in Hkeys'.
    rewrite Forall_forall. intros y Hy.
    apply list_elem_of_fmap in Hy as (q & -> & Hq).
    specialize (Hall q Hq). cbn in Hall. by rewrite Hp, (Hkeys' q Hq) in Hall.
  - change (map snd s) with (snd <$> s). rewrite Hp.
    change (map ?f ?l) with (f <$> l). rewrite <- list_fmap_compose.
    by rewrite list_fmap_id.
Qed.
End Sorting.

(** *** The order of strings and of tuples of strings *)

Lemma string_lt_irrefl s : string_lt s s = false.
Proof.
  unfold string_lt.
  pose proof (proj2 (OrderedTypeEx.String_as_OT.cmp_eq s s) eq_refl) as H.
  unfold OrderedTypeEx.String_as_OT.cmp in H. by rewrite H.
Qed.

Lemma string_lt_asym s1 s2 : string_lt s1 s2 = true -> string_lt s2 s1 = false.
Proof.
  unfold string_lt. rewrite (String.compare_antisym s2 s1).
  by destruct (String.compare s1 s2).
Qed.

Lemma string_lt_total s1 s2 :
  string_lt s1 s2 = false -> s1 ≠ s2 -> string_lt s2 s1 = true.
Proof.
  unfold string_lt. rewrite (String.compare_antisym s2 s1).
  destruct (String.compare s1 s2) eqn:Hc; try done.
  intros _ Hne. by apply String.compare_eq_iff in Hc.
Qed.

Lemma string_lt_trans s1 s2 s3 :
  string_lt s1 s2 = true -> string_lt s2 s3 = true -> string_lt s1 s3 = true.
Proof.
  unfold string_lt. intros H12 H23.
  assert (String.compare s1 s2 = Lt) as H1 by (by destruct (String.compare s1 s2)).
  assert (String.compare s2 s3 = Lt) as H2 by (by destruct (String.compare s2 s3)).
  apply OrderedTypeEx.String_as_OT.cmp_lt in H1, H2.
  pose proof (OrderedTypeEx.String_as_OT.lt_trans _ _ _ H1 H2) as H13.
  apply OrderedTypeEx.String_as_OT.cmp_lt in H13.
  unfold OrderedTypeEx.String_as_OT.cmp in H13. by rewrite H13.
Qed.

Lemma tuple_lt_strings_defined (t1 : list string) :
  forall t2, exists b, tuple_lt (map AStr t1) (map AStr t2) = Ok b.
Proof.
  induction t1 as [|x t1 IH]; intros [|y t2]; cbn; eauto.
  case_decide; eauto.
Qed.

Lemma tuple_lt_strings_asym (t1 : list string) :
  forall t2,
    tuple_lt (map AStr t1) (map AStr t2) = Ok true ->
    tuple_lt (map AStr t2) (map AStr t1) = Ok false.
Proof.
  induction t1 as [|x t1 IH]; intros [|y t2]; cbn; try done.
  repeat case_decide; simplify_eq; try done.
  - apply IH.
  - intros [= Hlt]. by rewrite (string_lt_asym _ _ Hlt).
Qed.

Lemma tuple_lt_strings_trans (t1 : list string) :
  forall t2 t3,
    tuple_lt (map AStr t2) (map AStr t1) = Ok false ->
    tuple_lt (map AStr t3) (map AStr t2) = Ok false ->
    tuple_lt (map AStr t3) (map AStr t1) = Ok false.
Proof.
  induction t1 as [|x t1 IH]; intros [|y t2] [|z t3]; cbn; try done.
  repeat case_decide; simplify_eq; try done.
  - apply IH.
  - intros [= Hyx] [= Hzy].
    pose proof (string_lt_total _ _ Hyx ltac:(congruence)) as Hxy.
    pose proof (string_lt_total _ _ Hzy ltac:(congruence)) as Hyz.
    pose proof (string_lt_trans _ _ _ Hxy Hyz) as Hxx.
    by rewrite string_lt_irrefl in Hxx.
  - intros [= Hyx] [= Hzy].
    pose proof (string_lt_total _ _ Hyx ltac:(congruence)) as Hxy.
    pose proof (string_lt_total _ _ Hzy ltac:(congruence)) as Hyz.
    by rewrite (string_lt_asym _ _ (string_lt_trans _ _ _ Hxy Hyz)).
Qed.

Lemma StronglySorted_weaken {A} (R1 R2 : A -> A -> Prop) (l : list A) :
  (forall x y, R1 x y -> R2 x y) -> StronglySorted R1 l -> StronglySorted R2 l.
Proof.
  intros Himpl. induction 1 as [|x l _ IH Hall]; constructor; [done|].
  eapply Forall_impl; [exact Hall|]. intros y. apply Himpl.
Qed.

(** Sorting node records by topology key never fails and leaves them in
    the order [topology_le]. *)
Lemma sorted_by_topology_key (nodes : list NodeInfo) :
  exists sorted_nodes,
    sorted nodes node_sorting_key = Ok sorted_nodes
    /\ StronglySorted topology_le sorted_nodes
    /\ sorted_nodes ≡ₚ nodes.
Proof.
  apply (sorted_sorts (fun k => exists t, k = KTuple (map AStr t))
           ltac:(intros ? ? [t1 ->] [t2 ->]; apply tuple_lt_strings_defined)
           ltac:(intros ? ? [t1 ->] [t2 ->]; apply tuple_lt_strings_asym)
           ltac:(intros ? ? ? [t1 ->] [t2 ->] [t3 ->]; apply tuple_lt_strings_trans)
           node_sorting_key (fun node => KTuple (map AStr (node_topology_key node)))).
  apply Forall_forall. intros node _. split; [done|]. by eexists.
Qed.

Lemma sorted_nodes_strongly_sorted (nodes sorted_nodes : list NodeInfo) :
  sorted nodes node_sorting_key = Ok sorted_nodes ->
  StronglySorted topology_le sorted_nodes /\ sorted_nodes ≡ₚ nodes.
Proof.
  intros Hrun. destruct (sorted_by_topology_key nodes) as (l & Hl & Hsorted & Hperm).
  rewrite Hrun in Hl. by injection Hl as <-.
Qed.

(** Sorting jobs whose first pods all carry a creation time never fails
    and leaves them in ascending order of that time. *)
Lemma sorted_by_creation_time (jobs : list (list PodRecord)) :
  Forall (fun job => exists pod rest t,
            job = pod :: rest /\ pod_creation_time pod = Some t) jobs ->
  exists sorted_jobs,
    sorted jobs sort_jobs_by_time = Ok sorted_jobs
    /\ StronglySorted
         (fun job1 job2 =>
            forall p1 p2 t1 t2,
              head job1 = Some p1 -> head job2 = Some p2 ->
              pod_creation_time p1 = Some t1 -> pod_creation_time p2 = Some t2 ->
              t1 <= t2)
         sorted_jobs
    /\ sorted_jobs ≡ₚ jobs.
Proof.
  intros Hjobs.
  set (key := fun job : list PodRecord =>
                match head job ≫= pod_creation_time with
                | Some t => KInt t
                | None => KNone
                end).
  destruct (sorted_sorts (fun k => exists t, k = KInt t)
              ltac:(intros ? ? [t1 ->] [t2 ->]; cbn; eauto)
              ltac:(intros ? ? [t1 ->] [t2 ->]; cbn; intros [= H]; f_equal; lia)
              ltac:(intros ? ? ? [t1 ->] [t2 ->] [t3 ->]; unfold key_le; cbn;
                    intros [= H1] [= H2]; f_equal; lia)
              sort_jobs_by_time key jobs) as (sorted_jobs & Hrun & Hsorted & Hperm).
  { eapply Forall_impl; [exact Hjobs|].
    intros job (pod & rest & t & -> & Ht). unfold key, sort_jobs_by_time.
    assert (getitem (pod :: rest) 0 = Ok pod) as -> by reflexivity.
    cbn. rewrite Ht.
    split; [done|]. by eexists. }
  exists sorted_jobs. split; [done|]. split; [|done].
  eapply StronglySorted_weaken; [|exact Hsorted].
  intros job1 job2 Hle p1 p2 t1 t2 Hp1 Hp2 Ht1 Ht2.
  unfold key_le, key in Hle. rewrite Hp1, Hp2 in Hle. cbn in Hle.
  rewrite Ht1, Ht2 in Hle. cbn in Hle. injection Hle as Hle. lia.
Qed.

(** ** The assignment search *)

Lemma inner_fuel_take_S nodes (a : list Z) (k : nat) v :
  a !! k = Some v ->
  inner_fuel nodes (take (S k) a)
  = (inner_fuel nodes (take k a) + S (Z.to_nat (len nodes - v)))%nat.
Proof.
  revert k. induction a as [|x a IH]; intros [|k] Hk; simplify_eq/=.
  - lia.
  - rewrite (IH k Hk). lia.
Qed.

Lemma inner_fuel_take_insert nodes (a : list Z) (k : nat) x :
  inner_fuel nodes (take k (<[k := x]> a)) = inner_fuel nodes (take k a).
Proof. by rewrite take_insert_ge by lia. Qed.

Lemma node_topology_distance_fuel node1 node2 :
  node_topology_distance node1 node2 ≠ OutOfFuel.
Proof. apply distance_loop_fuel. Qed.

Lemma assignment_distance_fuel sorted_nodes sorted_pods a :
  assignment_distance sorted_nodes sorted_pods a ≠ OutOfFuel.
Proof.
  unfold assignment_distance. generalize (seq 1 (length sorted_pods - 1)).
  assert (Hacc : (Ok 0%Q : outcome Q) ≠ OutOfFuel) by done.
  revert Hacc. generalize (Ok 0%Q : outcome Q).
  intros acc Hacc l. revert acc Hacc.
  induction l as [|i l IHl]; intros acc Hacc; [done|]. cbn [fold_left].
  apply IHl. destruct acc as [x| |]; cbn [obind]; [|done..].
  pose proof (getitem_fuel a (Z.of_nat i)) as H1.
  destruct (getitem a (Z.of_nat i)) as [ai| |]; cbn [obind]; [|done..].
  pose proof (getitem_fuel sorted_nodes ai) as H2.
  destruct (getitem sorted_nodes ai) as [node1| |]; cbn [obind]; [|done..].
  pose proof (getitem_fuel a (Z.of_nat i - 1)) as H3.
  destruct (getitem a (Z.of_nat i - 1)) as [aj| |]; cbn [obind]; [|done..].
  pose proof (getitem_fuel sorted_nodes aj) as H4.
  destruct (getitem sorted_nodes aj) as [node2| |]; cbn [obind]; [|done..].
  pose proof (node_topology_distance_fuel node1 node2) as H5.
  by destruct (node_topology_distance node1 node2).
Qed.

Section Assignment.
Variable sorted_nodes : list NodeInfo.
Variable sorted_pods : list PodRecord.
Local Abbreviation n := (length sorted_pods).
Local Abbreviation M := (len sorted_nodes).

Lemma placed_lt a j v :
  placed sorted_nodes sorted_pods a j -> a !! j = Some v -> 0 <= v < M.
Proof.
  intros (v' & node & pod & Hv & Hge & Hnode & _) Hv'. simplify_eq.
  apply lookup_lt_Some in Hnode. unfold len. lia.
Qed.

Lemma placed_insert_ne a j k x :
  j ≠ k -> placed sorted_nodes sorted_pods a j ->
  placed sorted_nodes sorted_pods (<[k := x]> a) j.
Proof.
  intros Hne (v & node & pod & Hv & H). exists v, node, pod.
  by rewrite list_lookup_insert_ne.
Qed.

Lemma increasing_insert a k v x :
  increasing a -> a !! k = Some v -> v <= x ->
  (forall y, a !! S k = Some y -> x < y) ->
  increasing (<[k := x]> a).
Proof.
  intros Hinc Hk Hle Hnext j p q Hp Hq.
  assert (Hlen : (k < length a)%nat) by (by eapply lookup_lt_Some).
  destruct (decide (j = k)) as [->|Hjk].
  - rewrite list_lookup_insert_eq in Hp by done.
    rewrite list_lookup_insert_ne in Hq by lia. simplify_eq. by apply Hnext.
  - rewrite list_lookup_insert_ne in Hp by done.
    destruct (decide (S j = k)) as [<-|Hsjk].
    + rewrite list_lookup_insert_eq in Hq by done. simplify_eq.
      specialize (Hinc j p v Hp Hk). lia.
    + rewrite list_lookup_insert_ne in Hq by done. by eapply Hinc.
Qed.

Lemma inner_while_exit fuel a i :
  inner_while fuel sorted_nodes sorted_pods (a, i, false) = Ok (a, i, false).
Proof. destruct fuel; simpl; by rewrite andb_false_r. Qed.

Lemma inner_while_done fuel a all_ok :
  inner_while fuel sorted_nodes sorted_pods (a, -1, all_ok) = Ok (a, -1, all_ok).
Proof. by destruct fuel. Qed.

Lemma inner_while_step fuel a (k : nat) :
  inner_while (S fuel) sorted_nodes sorted_pods (a, Z.of_nat k, true)
  = let* c := inner_body sorted_nodes sorted_pods (a, Z.of_nat k, true) in
    match c with
    | Continue st' => inner_while fuel sorted_nodes sorted_pods st'
    | Break st' => Ok st'
    end.
Proof.
  cbn [inner_while]. destruct (Z.leb_spec 0 (Z.of_nat k)); [done|lia].
Qed.

Lemma inner_body_eq a (k : nat) v :
  a !! k = Some v ->
  inner_body sorted_nodes sorted_pods (a, Z.of_nat k, true)
  = let a1 := <[k := v + 1]> a in
    if v + 1 =? M then Ok (Break (a1, Z.of_nat k, true))
    else
      let* feasible :=
        (if 0 <=? v + 1 then
           let* node := getitem sorted_nodes (v + 1) in
           let* pod := getitem sorted_pods (Z.of_nat k) in
           Ok (can_schedule node pod)
         else Ok false) in
      if (feasible : bool) then Ok (Continue (a1, Z.of_nat k - 1, true))
      else
        let* blocked :=
          (if Z.of_nat k <? len a1 - 1 then
             let* next := getitem a1 (Z.of_nat k + 1) in
             Ok (v + 1 =? next - 1)
           else Ok false) in
        if (blocked : bool) then Ok (Continue (a1, Z.of_nat k, false))
        else Ok (Continue (a1, Z.of_nat k, true)).
Proof.
  intros Hk. assert (Hlen : (k < length a)%nat) by (by eapply lookup_lt_Some).
  unfold inner_body. rewrite (getitem_nat _ _ _ Hk). cbn [obind].
  rewrite setitem_nat by done.
  rewrite (getitem_nat (<[k:=v + 1]> a) k (v + 1))
    by (by rewrite list_lookup_insert_eq).
  reflexivity.
Qed.

Lemma inner_while_spec fuel :
  forall a k,
    (1 <= n)%nat -> inner_inv sorted_nodes sorted_pods a k ->
    (inner_fuel sorted_nodes (take k a) <= fuel)%nat ->
    exists a' i' ok',
      inner_while fuel sorted_nodes sorted_pods (a, Z.of_nat k - 1, true)
      = Ok (a', i', ok')
      /\ inner_post sorted_nodes sorted_pods a' ok'
      /\ (forall v, a !! (n - 1)%nat = Some v ->
            exists v', a' !! (n - 1)%nat = Some v' /\ v <= v' /\ (k = n -> v < v')).
Proof.
  induction fuel as [|fuel IH]; intros a k Hn (Hlen & Hk & Hinc & Hplaced & Hcur) Hfuel.
  all: destruct k as [|k'].
  1,3: replace (Z.of_nat 0 - 1) with (-1) by lia; rewrite inner_while_done;
    exists a, (-1), true; split; [done|]; split;
    [ split; [done|]; split; [done|];
      destruct (Hplaced (n - 1)%nat ltac:(lia)) as (v & node & pod & Hv & Hp);
      exists v; split; [done|];
      assert (0 <= v < M)
        by (eapply placed_lt; [|done]; by exists v, node, pod);
      split; [lia|]; intros _ _ j Hj; apply Hplaced; lia
    | intros v Hv; exists v; split; [done|]; split; lia ].
  { destruct (Hcur k' eq_refl) as (v & Hv & _).
    rewrite (inner_fuel_take_S _ _ _ _ Hv) in Hfuel. lia. }
  destruct (Hcur k' eq_refl) as (v & Hv & Htop & Hnext).
  assert (Hk'len : (k' < length a)%nat) by (by eapply lookup_lt_Some).
  replace (Z.of_nat (S k') - 1) with (Z.of_nat k') by lia.
  rewrite inner_while_step, (inner_body_eq _ _ _ Hv). cbn zeta.
  set (a1 := <[k' := v + 1]> a).
  assert (Hlen1 : length a1 = n) by (unfold a1; by rewrite length_insert).
  assert (Hinc1 : increasing a1).
  { eapply increasing_insert; [done..|lia|]. intros y Hy. specialize (Hnext y Hy). lia. }
  assert (Ha1k : a1 !! k' = Some (v + 1))
    by (unfold a1; by rewrite list_lookup_insert_eq).
  assert (Hnexty : S k' ≠ n -> exists y, a !! S k' = Some y /\ v + 1 < y < M).
  { intros Hne. destruct (lookup_lt_is_Some_2 a (S k')) as [y Hy]; [lia|].
    exists y. split; [done|]. specialize (Hnext y Hy).
    pose proof (placed_lt a (S k') y (Hplaced (S k') ltac:(lia)) Hy). lia. }
  assert (Hprog : forall v0, a !! (n - 1)%nat = Some v0 ->
            exists v1, a1 !! (n - 1)%nat = Some v1 /\ v0 <= v1 /\ (S k' = n -> v0 < v1)).
  { intros v0 Hv0. destruct (decide (S k' = n)) as [Heq|Hne].
    - replace (n - 1)%nat with k' in * by lia. simplify_eq.
      exists (v + 1). split; [done|]. lia.
    - exists v0. unfold a1. rewrite list_lookup_insert_ne by lia. split; [done|]. lia. }
  destruct (Z.eqb_spec (v + 1) M) as [HeqM|HneM].
  { cbn. exists a1, (Z.of_nat k'), true. split; [done|].
    assert (S k' = n) as Hkn.
    { destruct (decide (S k' = n)) as [|Hne]; [done|].
      destruct (Hnexty Hne) as (y & _ & Hy). lia. }
    split; [|done].
    split; [done|]. split; [done|].
    exists (v + 1). replace (n - 1)%nat with k' by lia. split; [done|].
    split; [lia|]. intros; lia. }
  assert (HltM : v + 1 < M).
  { destruct (decide (S k' = n)) as [Heq|Hne]; [specialize (Htop Heq); lia|].
    destruct (Hnexty Hne) as (y & _ & Hy). lia. }
  assert (Hstay : (inner_fuel sorted_nodes (take (S k') a1) <= fuel)%nat).
  { rewrite (inner_fuel_take_S _ _ _ _ Ha1k). unfold a1.
    rewrite inner_fuel_take_insert.
    rewrite (inner_fuel_take_S _ _ _ _ Hv) in Hfuel. lia. }
  assert (Hinv_stay : (forall y, a !! S k' = Some y -> v + 1 ≠ y - 1) -> inner_inv sorted_nodes sorted_pods a1 (S k')).
  { intros Hnb. split; [done|]. split; [done|]. split; [done|]. split.
    - intros j Hj. apply placed_insert_ne; [lia|]. apply Hplaced. lia.
    - intros k'' [= <-]. exists (v + 1). split; [done|]. split; [lia|].
      intros y Hy. unfold a1 in Hy. rewrite list_lookup_insert_ne in Hy by lia.
      specialize (Hnext y Hy). specialize (Hnb y Hy). lia. }
  assert (Hfinish : forall a' ok',
            inner_post sorted_nodes sorted_pods a' ok' ->
            (forall v1, a1 !! (n - 1)%nat = Some v1 ->
               exists v', a' !! (n - 1)%nat = Some v' /\ v1 <= v') ->
            inner_post sorted_nodes sorted_pods a' ok'
            /\ (forall v0, a !! (n - 1)%nat = Some v0 ->
               exists v', a' !! (n - 1)%nat = Some v' /\ v0 <= v' /\ (S k' = n -> v0 < v'))).
  { intros a' ok' Hpost Hmono. split; [done|]. intros v0 Hv0.
    destruct (Hprog v0 Hv0) as (v1 & Hv1 & Hle & Hlt).
    destruct (Hmono v1 Hv1) as (v' & Hv' & Hle').
    exists v'. split; [done|]. split; [lia|]. intros Heq. specialize (Hlt Heq). lia. }
  assert (Hblocked :
    exists a' i' ok',
      (let* blocked :=
        (if Z.of_nat k' <? len a1 - 1 then
           let* next := getitem a1 (Z.of_nat k' + 1) in
           Ok (v + 1 =? next - 1)
         else Ok false) in
       let* c := (if (blocked : bool) then Ok (Continue (a1, Z.of_nat k', false))
                  else Ok (Continue (a1, Z.of_nat k', true))) in
       match c with
       | Continue st' => inner_while fuel sorted_nodes sorted_pods st'
       | Break st' => Ok st'
       end) = Ok (a', i', ok')
      /\ inner_post sorted_nodes sorted_pods a' ok'
      /\ (forall v0, a !! (n - 1)%nat = Some v0 ->
            exists v', a' !! (n - 1)%nat = Some v' /\ v0 <= v' /\ (S k' = n -> v0 < v'))).
  { unfold len. rewrite Hlen1.
    destruct (Z.ltb_spec (Z.of_nat k') (Z.of_nat n - 1)) as [Hlt|Hge].
    - destruct (Hnexty ltac:(lia)) as (y & Hy & Hylt).
      assert (Hy1 : a1 !! S k' = Some y)
        by (unfold a1; by rewrite list_lookup_insert_ne by lia).
      replace (Z.of_nat k' + 1) with (Z.of_nat (S k')) by lia.
      rewrite (getitem_nat _ _ _ Hy1). cbn [obind].
      destruct (Z.eqb_spec (v + 1) (y - 1)) as [Heq|Hne].
      + cbn [obind]. rewrite inner_while_exit.
        exists a1, (Z.of_nat k'), false. split; [done|].
        apply (Hfinish a1 false).
        * split; [done|]. split; [done|].
          destruct (Hplaced (n - 1)%nat ltac:(lia)) as (w & node & pod & Hw & Hp).
          exists w. unfold a1. rewrite list_lookup_insert_ne by lia.
          split; [done|].
          assert (0 <= w < M) by (eapply placed_lt; [|done]; by exists w, node, pod).
          split; [lia|]. done.
        * intros v1 Hv1. exists v1. split; [done|lia].
      + cbn [obind].
        replace (Z.of_nat k') with (Z.of_nat (S k') - 1) by lia.
        destruct (IH a1 (S k') Hn) as (a' & i' & ok' & Hrun & Hpost & Hmono); [|done|].
        { apply Hinv_stay. intros y' Hy'. by simplify_eq. }
        exists a', i', ok'. split; [done|].
        apply (Hfinish a' ok'); [done|].
        intros v1 Hv1. destruct (Hmono v1 Hv1) as (v' & ? & ? & _). eauto.
    - cbn [obind].
      replace (Z.of_nat k') with (Z.of_nat (S k') - 1) by lia.
      destruct (IH a1 (S k') Hn) as (a' & i' & ok' & Hrun & Hpost & Hmono); [|done|].
      { apply Hinv_stay. intros y' Hy'. apply lookup_lt_Some in Hy'. lia. }
      exists a', i', ok'. split; [done|].
      apply (Hfinish a' ok'); [done|].
      intros v1 Hv1. destruct (Hmono v1 Hv1) as (v' & ? & ? & _). eauto. }
  destruct (Z.leb_spec 0 (v + 1)) as [Hpos|Hneg].
  2: { cbn [obind]. destruct Hblocked as (a' & i' & ok' & Hrun & H).
       exists a', i', ok'. split; [|done]. rewrite <- Hrun.
       by destruct (if Z.of_nat k' <? len a1 - 1 then _ else _) as [[]| |]. }
  destruct (lookup_lt_is_Some_2 sorted_nodes (Z.to_nat (v + 1))) as [node Hnode].
  { unfold len in HltM. lia. }
  destruct (lookup_lt_is_Some_2 sorted_pods k') as [pod Hpod]; [lia|].
  rewrite (getitem_Z _ _ _ Hpos Hnode), (getitem_nat _ _ _ Hpod). cbn [obind].
  destruct (can_schedule node pod) eqn:Hcs.
  2: { destruct Hblocked as (a' & i' & ok' & Hrun & H).
       exists a', i', ok'. split; [|done]. rewrite <- Hrun.
       by destruct (if Z.of_nat k' <? len a1 - 1 then _ else _) as [[]| |]. }
  destruct (IH a1 k' Hn) as (a' & i' & ok' & Hrun & Hpost & Hmono).
  { split; [done|]. split; [lia|]. split; [done|]. split.
    - intros j Hj. destruct (decide (j = k')) as [->|Hne].
      + by exists (v + 1), node, pod.
      + apply placed_insert_ne; [done|]. apply Hplaced. lia.
    - intros k'' ->. destruct (lookup_lt_is_Some_2 a k'') as [u Hu]; [lia|].
      exists u. unfold a1. rewrite list_lookup_insert_ne by lia.
      split; [done|]. split; [lia|].
      intros y. rewrite list_lookup_insert_eq by done. intros [= <-].
      specialize (Hinc k'' u v Hu Hv). lia. }
  { unfold a1. rewrite inner_fuel_take_insert.
    rewrite (inner_fuel_take_S _ _ _ _ Hv) in Hfuel. lia. }
  exists a', i', ok'. split; [done|].
  apply (Hfinish a' ok'); [done|].
  intros v1 Hv1. destruct (Hmono v1 Hv1) as (v' & ? & ? & _). eauto.
Qed.

Lemma distance_loop_same_length k1 :
  forall k2 r, length k1 = length k2 -> exists d, distance_loop k1 k2 r = Ok d.
Proof.
  induction k1 as [|x1 k1 IH]; intros [|x2 k2] r Hlen; cbn; try done; [by eexists|].
  case_bool_decide; [by eexists|]. apply IH. by injection Hlen.
Qed.

(** With keys of one length and every entry placed, the sum of
    distances is defined. *)
Lemma assignment_distance_defined a :
  length a = n ->
  (forall j, (j < n)%nat -> placed sorted_nodes sorted_pods a j) ->
  uniform_keys sorted_nodes ->
  exists d, assignment_distance sorted_nodes sorted_pods a = Ok d.
Proof.
  intros Hlen Hplaced Huniform. unfold assignment_distance.
  assert (Hidx : Forall (fun i => (1 <= i < n)%nat) (seq 1 (n - 1))).
  { apply Forall_forall. intros i Hi. apply list_elem_of_In, in_seq in Hi. lia. }
  revert Hidx. generalize (seq 1 (n - 1)). generalize 0%Q.
  intros x l. revert x. induction l as [|i l IH]; intros x Hidx; cbn [fold_left].
  { by eexists. }
  inversion Hidx as [|? ? Hi Hidx']; subst.
  destruct (Hplaced i ltac:(lia)) as (v1 & node1 & _ & Hv1 & Hge1 & Hnode1 & _).
  destruct (Hplaced (i - 1)%nat ltac:(lia)) as (v2 & node2 & _ & Hv2 & Hge2 & Hnode2 & _).
  cbn [obind]. rewrite (getitem_nat _ _ _ Hv1). cbn [obind].
  rewrite (getitem_Z _ _ _ Hge1 Hnode1). cbn [obind].
  replace (Z.of_nat i - 1) with (Z.of_nat (i - 1)) by lia.
  rewrite (getitem_nat _ _ _ Hv2). cbn [obind].
  rewrite (getitem_Z _ _ _ Hge2 Hnode2). cbn [obind].
  destruct (distance_loop_same_length (node_topology_key node1) (node_topology_key node2)
              1000000%Q) as [d Hd].
  { apply Huniform; by eapply list_elem_of_lookup_2. }
  unfold node_topology_distance. rewrite Hd. cbn [obind]. by apply IH.
Qed.

Lemma outer_body_spec st :
  (1 <= n)%nat -> outer_inv sorted_nodes sorted_pods st ->
  match outer_body sorted_nodes sorted_pods st with
  | Ok (Continue st') => outer_inv sorted_nodes sorted_pods st' /\ last_entry sorted_pods st < last_entry sorted_pods st'
  | Ok (Break (_, best, _)) =>
      best = [] \/ feasible_assignment sorted_nodes sorted_pods best
  | Raise _ => ~ uniform_keys sorted_nodes
  | OutOfFuel => False
  end.
Proof.
  destruct st as [[a best] dist]. intros Hn (Hlen & Hinc & (v & Hv & HvM) & Hbest).
  unfold outer_body.
  destruct (inner_while_spec (inner_fuel sorted_nodes a) a n Hn)
    as (a' & i' & ok' & Hrun & (Hlen' & Hinc' & v' & Hv' & Hv'M & Hall) & Hprog).
  { split; [done|]. split; [done|]. split; [done|]. split; [intros j Hj; lia|].
    intros k' Hk'. exists v. replace k' with (n - 1)%nat by lia.
    split; [done|]. split; [done|].
    intros y Hy. apply lookup_lt_Some in Hy. lia. }
  { rewrite take_ge by lia. done. }
  unfold len at 1. rewrite Hlen, Hrun. cbn [obind].
  rewrite (getitem_last a' (n - 1) v'); [|lia|done]. cbn [obind].
  destruct (Hprog v Hv) as (v'' & Hv'' & _ & Hlt). simplify_eq.
  specialize (Hlt eq_refl).
  destruct (Z.eqb_spec v' (len sorted_nodes)) as [Heq|Hne]; [exact Hbest|].
  assert (Hinv : forall best' dist',
    (best' = [] \/ feasible_assignment sorted_nodes sorted_pods best') ->
    outer_inv sorted_nodes sorted_pods (a', best', dist') /\ last_entry sorted_pods (a, best, dist) < last_entry sorted_pods (a', best', dist')).
  { intros best' dist' Hb. split.
    - split; [done|]. split; [done|]. split; [|done]. exists v'. split; [done|lia].
    - unfold last_entry. cbn. rewrite Hv, Hv'. cbn. lia. }
  destruct ok'; [|by apply Hinv].
  destruct (assignment_distance sorted_nodes sorted_pods a') as [d|e|] eqn:Hd;
    cbn [obind].
  - destruct (Qlt_bool d dist); apply Hinv; [|done].
    right. split; [done|]. split; [done|]. apply Hall; [lia|done].
  - intros Huniform.
    destruct (assignment_distance_defined a' Hlen' ltac:(apply Hall; [lia|done]) Huniform)
      as [d Hd']. congruence.
  - by apply assignment_distance_fuel in Hd.
Qed.

Lemma outer_while_spec fuel :
  forall st,
    (1 <= n)%nat -> outer_inv sorted_nodes sorted_pods st ->
    (Z.to_nat (M - last_entry sorted_pods st) < fuel)%nat ->
    match outer_while fuel sorted_nodes sorted_pods st with
    | Ok best => best = [] \/ feasible_assignment sorted_nodes sorted_pods best
    | Raise _ => ~ uniform_keys sorted_nodes
    | OutOfFuel => False
    end.
Proof.
  induction fuel as [|fuel IH]; intros st Hn Hinv Hfuel; [lia|].
  cbn [outer_while].
  pose proof (outer_body_spec st Hn Hinv) as Hbody.
  destruct (outer_body sorted_nodes sorted_pods st) as [[st'|[[a' best'] d']]| |];
    cbn [obind]; [|done..].
  destruct Hbody as [Hinv' Hlt]. apply IH; [done..|].
  destruct st' as [[a' best'] d']. destruct Hinv' as (_ & _ & (v & Hv & HvM) & _).
  unfold last_entry in *. cbn in *. rewrite Hv in *. cbn in *. lia.
Qed.

Lemma rev_seq_1 m : rev (seq 1 m) = map (fun j => (m - j)%nat) (seq 0 m).
Proof.
  induction m as [|m IH]; [done|].
  rewrite seq_S, rev_app_distr. cbn [rev app seq map]. rewrite IH.
  f_equal. rewrite <- seq_shift, map_map. done.
Qed.

Lemma initial_assignment_lookup m (j : nat) :
  (j < m)%nat -> initial_assignment m !! j = Some (Z.of_nat j - Z.of_nat m).
Proof.
  intros Hj. unfold initial_assignment. rewrite rev_seq_1, map_map.
  change (map ?f ?l) with (f <$> l).
  rewrite list_lookup_fmap, lookup_seq_lt by done. cbn. f_equal. lia.
Qed.

Lemma initial_assignment_length m : length (initial_assignment m) = m.
Proof. unfold initial_assignment. by rewrite length_map, length_rev, length_seq. Qed.

Lemma initial_assignment_inv :
  (1 <= n)%nat ->
  outer_inv sorted_nodes sorted_pods (initial_assignment n, [], 1000000000%Q).
Proof.
  intros Hn. split; [apply initial_assignment_length|]. split; [|split; [|by left]].
  - intros j x y Hx Hy.
    assert (S j < n)%nat
      by (apply lookup_lt_Some in Hy; by rewrite initial_assignment_length in Hy).
    rewrite initial_assignment_lookup in Hx, Hy by lia. simplify_eq. lia.
  - exists (-1). rewrite initial_assignment_lookup by lia.
    split; [f_equal; lia|]. unfold len. lia.
Qed.

Lemma calculate_pods_assignment_spec :
  match calculate_pods_assignment sorted_nodes sorted_pods with
  | Ok best => best = [] \/ feasible_assignment sorted_nodes sorted_pods best
  | Raise _ => sorted_pods = [] \/ ~ uniform_keys sorted_nodes
  | OutOfFuel => False
  end.
Proof.
  unfold calculate_pods_assignment.
  destruct (decide (n = 0%nat)) as [Hz|Hnz].
  { destruct sorted_pods; [|done].
    replace (length sorted_nodes + 2)%nat with (S (S (length sorted_nodes))) by lia.
    cbn. by left. }
  pose proof (outer_while_spec (length sorted_nodes + 2)
                (initial_assignment n, [], 1000000000%Q) ltac:(lia)
                (initial_assignment_inv ltac:(lia))) as Hspec.
  destruct (outer_while _ _ _ _) as [best|e|]; [|right|]; apply Hspec.
  all: unfold last_entry; cbn; rewrite initial_assignment_lookup by lia; cbn.
  all: unfold len; lia.
Qed.
End Assignment.

Lemma calculate_pods_assignment_terminates sorted_nodes sorted_pods :
  calculate_pods_assignment sorted_nodes sorted_pods ≠ OutOfFuel.
Proof.
  pose proof (calculate_pods_assignment_spec sorted_nodes sorted_pods) as H.
  intros Heq. by rewrite Heq in H.
Qed.

(** The search returns whenever there is a pod to place and the node
    keys have one length. *)
Lemma calculate_pods_assignment_returns sorted_nodes sorted_pods :
  sorted_pods ≠ [] -> uniform_keys sorted_nodes ->
  exists a, calculate_pods_assignment sorted_nodes sorted_pods = Ok a.
Proof.
  intros Hpods Huniform.
  pose proof (calculate_pods_assignment_spec sorted_nodes sorted_pods) as H.
  destruct (calculate_pods_assignment sorted_nodes sorted_pods) as [a|e|];
    [by exists a| |done].
  by destruct H.
Qed.

Lemma calculate_pods_assignment_sound sorted_nodes sorted_pods a :
  calculate_pods_assignment sorted_nodes sorted_pods = Ok a ->
  a = [] \/ feasible_assignment sorted_nodes sorted_pods a.
Proof.
  intros Heq.
  pose proof (calculate_pods_assignment_spec sorted_nodes sorted_pods) as H.
  by rewrite Heq in H.
Qed.

Lemma increasing_lt (a : list Z) :
  increasing a ->
  forall (i j : nat) x y, (i < j)%nat -> a !! i = Some x -> a !! j = Some y -> x < y.
Proof.
  intros Hinc i j. induction j as [|j IH]; intros x y Hij Hx Hy; [lia|].
  destruct (decide (i = j)) as [->|Hne]; [by eapply Hinc|].
  destruct (lookup_lt_is_Some_2 a j) as [z Hz].
  { apply lookup_lt_Some in Hy. lia. }
  specialize (IH x z ltac:(lia) Hx Hz). specialize (Hinc j z y Hz Hy). lia.
Qed.

Lemma StronglySorted_lookup {A} (R : A -> A -> Prop) (l : list A) :
  StronglySorted R l ->
  forall (i j : nat) x y, (i < j)%nat -> l !! i = Some x -> l !! j = Some y -> R x y.
Proof.
  induction 1 as [|x0 l Hsorted IH Hall]; intros i j x y Hij Hx Hy; [done|].
  destruct j as [|j]; [lia|]. cbn in Hy.
  destruct i as [|i]; cbn in Hx.
  - simplify_eq. rewrite Forall_forall in Hall. apply Hall.
    by eapply list_elem_of_lookup_2.
  - eapply IH; [|done..]. lia.
Qed.

Lemma is_feasible_assignment_true sorted_nodes sorted_pods a :
  is_feasible_assignment sorted_nodes sorted_pods a = true ->
  feasible_assignment sorted_nodes sorted_pods a.
Proof.
  unfold is_feasible_assignment. rewrite !andb_true_iff, !forallb_forall.
  intros [[Hlen Hinc] Hplaced]. apply bool_decide_eq_true in Hlen.
  split; [done|]. split.
  - intros j x y Hx Hy.
    specialize (Hinc j). rewrite Hx, Hy in Hinc. apply Z.ltb_lt, Hinc.
    apply in_seq. apply lookup_lt_Some in Hx. lia.
  - intros j Hj. specialize (Hplaced j ltac:(apply in_seq; lia)).
    destruct (a !! j) as [v|] eqn:Hv; [|done].
    destruct (sorted_pods !! j) as [pod|] eqn:Hpod; [|done].
    apply andb_true_iff in Hplaced as [Hge Hcs]. apply Z.leb_le in Hge.
    destruct (sorted_nodes !! Z.to_nat v) as [node|] eqn:Hnode; [|done].
    by exists v, node, pod.
Qed.

(** C2: every entry of an assignment that [calculate_pods_assignment]
    returns is the index of a node on which the pod of that position can
    be scheduled: the selector's key/value pairs are among the node's
    labels and free cpu, memory and gpu cover the pod's requests, which
    is what [can_schedule] tests. *)
Theorem calculate_pods_assignment_feasible
    (sorted_nodes : list NodeInfo) (sorted_pods : list PodRecord)
    (a : list Z) (i : nat) (k : Z) :
  calculate_pods_assignment sorted_nodes sorted_pods = Ok a ->
  a !! i = Some k ->
  length a = length sorted_pods
  /\ exists node pod,
       0 <= k /\ sorted_nodes !! Z.to_nat k = Some node
       /\ sorted_pods !! i = Some pod
       /\ can_schedule node pod = true
       /\ (forall key value,
             (key, value) ∈ selector_items (pod_node_selector pod) ->
             node_labels node !! key = Some value)
       /\ (pod_cpu pod <= node_cpu node)%Q
       /\ (pod_memory pod <= node_memory node)%Q
       /\ pod_gpu pod <= node_gpu node.
Proof.
  intros Hrun Hk.
  destruct (calculate_pods_assignment_sound _ _ _ Hrun) as [->|(Hlen & _ & Hplaced)];
    [done|].
  split; [done|].
  destruct (Hplaced i) as (v & node & pod & Hv & Hge & Hnode & Hpod & Hcs).
  { apply lookup_lt_Some in Hk. lia. }
  simplify_eq. exists node, pod.
  repeat (split; [done|]). by apply can_schedule_spec.
Qed.

Lemma calculate_pods_assignment_feasible_witness :
  calculate_pods_assignment ex2_nodes ex2_pods = Ok [0; 1; 2; 3]
  /\ [0; 1; 2; 3] !! 2%nat = Some 2
  /\ exists node pod,
       ex2_nodes !! 2%nat = Some node /\ ex2_pods !! 2%nat = Some pod
       /\ can_schedule node pod = true.
Proof.
  assert (Hrun : calculate_pods_assignment ex2_nodes ex2_pods = Ok [0; 1; 2; 3])
    by (vm_compute; reflexivity).
  split; [exact Hrun|]. split; [reflexivity|].
  destruct (calculate_pods_assignment_feasible ex2_nodes ex2_pods [0; 1; 2; 3] 2 2
              Hrun eq_refl) as [_ (node & pod & _ & Hnode & Hpod & Hcs & _)].
  exists node, pod. split; [exact Hnode|]. split; [exact Hpod|exact Hcs].
Defined.

(** C3: an assignment that [calculate_pods_assignment] returns is a
    strictly increasing sequence of indices into the sorted node list;
    hence its entries are pairwise distinct, and when the nodes are
    sorted by topology key the keys of the assigned nodes never decrease
    along the assignment. *)
Theorem calculate_pods_assignment_increasing
    (sorted_nodes : list NodeInfo) (sorted_pods : list PodRecord) (a : list Z) :
  calculate_pods_assignment sorted_nodes sorted_pods = Ok a ->
  (forall (i j : nat) x y,
      (i < j)%nat -> a !! i = Some x -> a !! j = Some y -> x < y)
  /\ (forall (i : nat) x, a !! i = Some x -> 0 <= x < len sorted_nodes)
  /\ NoDup a
  /\ (StronglySorted topology_le sorted_nodes ->
      forall (i j : nat) x y node1 node2,
        (i < j)%nat -> a !! i = Some x -> a !! j = Some y ->
        sorted_nodes !! Z.to_nat x = Some node1 ->
        sorted_nodes !! Z.to_nat y = Some node2 ->
        topology_le node1 node2).
Proof.
  intros Hrun.
  assert (increasing a /\
            forall (i : nat) x, a !! i = Some x -> 0 <= x < len sorted_nodes)
    as [Hinc Hrange].
  { destruct (calculate_pods_assignment_sound _ _ _ Hrun) as [->|(Hlen & Hinc & Hplaced)].
    - split; [by intros j x y Hx|by intros i x Hx].
    - split; [done|]. intros i x Hx. eapply placed_lt; [|done].
      apply Hplaced. apply lookup_lt_Some in Hx. lia. }
  pose proof (increasing_lt a Hinc) as Hlt.
  split; [done|]. split; [done|]. split.
  - apply NoDup_alt. intros i j x Hi Hj.
    destruct (Nat.lt_total i j) as [Hij|[->|Hij]]; [|done|].
    + specialize (Hlt i j x x Hij Hi Hj). lia.
    + specialize (Hlt j i x x Hij Hj Hi). lia.
  - intros Hsorted i j x y node1 node2 Hij Hx Hy Hn1 Hn2.
    eapply (StronglySorted_lookup _ _ Hsorted (Z.to_nat x) (Z.to_nat y)); [|done..].
    specialize (Hlt i j x y Hij Hx Hy).
    pose proof (Hrange i x Hx). lia.
Qed.

Lemma calculate_pods_assignment_increasing_witness :
  sorted ex2_listed node_sorting_key = Ok ex2_nodes
  /\ calculate_pods_assignment ex2_nodes ex2_pods = Ok [0; 1; 2; 3]
  /\ StronglySorted topology_le ex2_nodes
  /\ NoDup [0; 1; 2; 3]
  /\ (forall node1 node2,
        ex2_nodes !! 1%nat = Some node1 -> ex2_nodes !! 3%nat = Some node2 ->
        topology_le node1 node2).
Proof.
  assert (Hsort : sorted ex2_listed node_sorting_key = Ok ex2_nodes)
    by (vm_compute; reflexivity).
  assert (Hrun : calculate_pods_assignment ex2_nodes ex2_pods = Ok [0; 1; 2; 3])
    by (vm_compute; reflexivity).
  destruct (sorted_nodes_strongly_sorted _ _ Hsort) as [Hsorted _].
  destruct (calculate_pods_assignment_increasing ex2_nodes ex2_pods [0; 1; 2; 3] Hrun)
    as (_ & _ & Hnodup & Hkeys).
  split; [exact Hsort|]. split; [exact Hrun|]. split; [exact Hsorted|].
  split; [exact Hnodup|].
  intros node1 node2 Hn1 Hn2.
  exact (Hkeys Hsorted 1%nat 3%nat 1 3 node1 node2 ltac:(lia) eq_refl eq_refl Hn1 Hn2).
Defined.

(** C1, at two inputs.  For [ex1_nodes] and [ex1_pods] the search
    returns the empty assignment although [1; 2; 3] is feasible and
    strictly increasing.  For [ex2_nodes] and [ex2_pods], where every pod
    fits everywhere, it returns [0; 1; 2; 3] of cost 201 although
    [0; 1; 3; 4] is feasible, strictly increasing and of cost 102. *)
Theorem calculate_pods_assignment_not_exhaustive :
  (calculate_pods_assignment ex1_nodes ex1_pods = Ok []
   /\ feasible_assignment ex1_nodes ex1_pods [1; 2; 3])
  /\ (calculate_pods_assignment ex2_nodes ex2_pods = Ok [0; 1; 2; 3]
      /\ feasible_assignment ex2_nodes ex2_pods [0; 1; 3; 4]
      /\ exists d_returned d_other,
           assignment_distance ex2_nodes ex2_pods [0; 1; 2; 3] = Ok d_returned
           /\ assignment_distance ex2_nodes ex2_pods [0; 1; 3; 4] = Ok d_other
           /\ (d_returned == 201)%Q /\ (d_other == 102)%Q
           /\ (d_other < d_returned)%Q).
Proof.
  split; [split|split; [|split]].
  - vm_compute. reflexivity.
  - apply is_feasible_assignment_true. vm_compute. reflexivity.
  - vm_compute. reflexivity.
  - apply is_feasible_assignment_true. vm_compute. reflexivity.
  - eexists _, _. split; [vm_compute; reflexivity|].
    split; [vm_compute; reflexivity|]. repeat split.
Qed.

(** ** The node filter *)

Lemma nodes_loop_not_ready dict pods node before after :
  v1node_labels node !! placement_group_label ≠ None ->
  not_ready node = true ->
  forall nodes_info,
    nodes_loop dict pods (before ++ node :: after) nodes_info
    = nodes_loop dict pods before nodes_info.
Proof.
  intros Hlabel Hnr. induction before as [|x before IH]; intros nodes_info.
  - cbn. rewrite bool_decide_eq_false_2 by done. by rewrite Hnr.
  - cbn. case_bool_decide; [apply IH|].
    destruct (not_ready x); [done|].
    destruct (match v1node_taints x with Some _ => _ | None => _ end); apply IH.
Qed.

(** After a NotReady node that carries the placement-group label no
    further node is examined. *)
Lemma find_schedulable_nodes_not_ready node before after pods tolerated_taints :
  v1node_labels node !! placement_group_label ≠ None ->
  not_ready node = true ->
  find_schedulable_nodes (before ++ node :: after) pods tolerated_taints
  = find_schedulable_nodes before pods tolerated_taints.
Proof. intros Hlabel Hnr. unfold find_schedulable_nodes. by apply nodes_loop_not_ready. Qed.

(** C5, at the node list [ex_not_ready_node; ex_ready_node]: the node
    "up" is Ready, untainted and labelled, and is found when it is alone,
    but after the NotReady node "down" it is not examined and the result
    is empty. *)
Theorem find_schedulable_nodes_stops_at_not_ready :
  find_schedulable_nodes [ex_not_ready_node; ex_ready_node] [] (Some []) = []
  /\ find_schedulable_nodes [ex_ready_node] [] (Some [])
     = [("up", node_free_resources ex_ready_node [])].
Proof. split; vm_compute; reflexivity. Qed.

(** C6, at the node [ex_partial_node]: it lacks the cluster, rack and
    host labels, yet it is in the returned map, with the empty topology
    key. *)
Theorem find_schedulable_nodes_keeps_partial_topology :
  v1node_labels ex_partial_node !! rack_label = None
  /\ find_schedulable_nodes [ex_partial_node] [] (Some [])
     = [("partial", node_free_resources ex_partial_node [])]
  /\ node_topology_key (node_free_resources ex_partial_node []) = [].
Proof. repeat split; vm_compute; reflexivity. Qed.

Lemma node_free_resources_labels node pods :
  node_labels (node_free_resources node pods) = v1node_labels node.
Proof.
  unfold node_free_resources. by destruct (fold_left _ pods _) as [[? ?] ?].
Qed.

(** Only the placement-group label is tested by the filter. *)
Lemma find_schedulable_nodes_placement_group nodes pods tolerated_taints name info :
  (name, info) ∈ find_schedulable_nodes nodes pods tolerated_taints ->
  node_labels info !! placement_group_label ≠ None.
Proof.
  unfold find_schedulable_nodes.
  generalize (match tolerated_taints with
              | Some ts => fold_left (fun d t => dict_set d (toleration_key t) t) ts []
              | None => []
              end).
  intros dict.
  assert (Hacc : forall x, x ∈ ([] : list (string * NodeInfo)) ->
                           node_labels x.2 !! placement_group_label ≠ None)
    by (intros x Hx; by apply elem_of_nil in Hx).
  revert Hacc. generalize ([] : list (string * NodeInfo)).
  induction nodes as [|node nodes IH]; intros acc Hacc Hin; cbn in Hin.
  - by apply (Hacc _ Hin).
  - case_bool_decide as Hlabel; [by eapply IH|].
    destruct (not_ready node); [by apply (Hacc _ Hin)|].
    destruct (match v1node_taints node with Some _ => _ | None => _ end);
      [by eapply IH|].
    eapply IH; [|done]. clear Hin IH.
    induction acc as [|[k v] acc IHacc]; cbn.
    + intros x Hx. apply list_elem_of_singleton in Hx as ->.
      cbn. by rewrite node_free_resources_labels.
    + case_decide.
      * intros x Hx. apply elem_of_cons in Hx as [->|Hx].
        -- cbn. by rewrite node_free_resources_labels.
        -- apply Hacc. by right.
      * intros x Hx. apply elem_of_cons in Hx as [->|Hx].
        -- apply Hacc. by left.
        -- apply IHacc; [|done]. intros y Hy. apply Hacc. by right.
Qed.

(** A node with an empty key ahead of a fully labelled one makes the
    distance computation fail, and with it the whole scheduling round. *)
Lemma partial_topology_breaks_round :
  schedule_pod_with_gate ex_pods_pair ex_gate ex_api_partial
  = (Raise IndexError, ex_api_partial).
Proof. vm_compute. reflexivity. Qed.

(** ** Grouping into jobs *)

Lemma groupby_nonempty {A B} `{EqDecision B} (key : A -> B) (l : list A) :
  Forall (fun g => g ≠ []) (groupby key l).
Proof.
  induction l as [|x l IH]; [constructor|]. cbn.
  destruct (groupby key l) as [|[|y g] gs] eqn:Hg.
  - by repeat constructor.
  - by repeat constructor.
  - case_decide.
    + inversion IH; subst. by constructor.
    + by constructor.
Qed.

Lemma groupby_concat {A B} `{EqDecision B} (key : A -> B) (l : list A) :
  concat (groupby key l) = l.
Proof.
  induction l as [|x l IH]; [done|]. cbn.
  pose proof (groupby_nonempty key l) as Hne.
  destruct (groupby key l) as [|[|y g] gs] eqn:Hg; cbn in *.
  - by rewrite <- IH.
  - by inversion Hne.
  - case_decide; cbn; by rewrite <- IH.
Qed.

(** C7, at the pod list [ex_interleaved]: the pods "a-0" and "a-1"
    carry the same job name but are separated by a pod of job "b", and
    end in two different groups. *)
Theorem split_pods_based_on_jobs_splits_interleaved :
  pod_job_name (ex_plain "a-0" "a") = pod_job_name (ex_plain "a-1" "a")
  /\ split_pods_based_on_jobs ex_interleaved
     = [ [ex_plain "a-0" "a"]; [ex_plain "b-0" "b"]; [ex_plain "a-1" "a"] ].
Proof. split; vm_compute; reflexivity. Qed.

(** ** Tolerations and the scheduling round *)

Lemma tolerations_loop_raises ts rest p2 :
  p2 ∈ rest -> tolerations (pod_spec p2) ≠ Some ts ->
  tolerations_loop (Some ts) rest = Raise AssertionError.
Proof.
  intros Hin Hne. induction rest as [|p rest IH]; [by apply elem_of_nil in Hin|].
  cbn. case_bool_decide as Heq; [|done].
  apply elem_of_cons in Hin as [->|Hin]; [congruence|by apply IH].
Qed.

Lemma tolerations_loop_raised ts rest e :
  tolerations_loop (Some ts) rest = Raise e ->
  e = AssertionError
  /\ exists p2, p2 ∈ rest /\ tolerations (pod_spec p2) ≠ Some ts.
Proof.
  induction rest as [|p rest IH]; [done|]. cbn.
  case_bool_decide as Heq.
  - intros Hr. destruct (IH Hr) as (-> & p2 & Hin & Hne).
    split; [done|]. exists p2. split; [by right|done].
  - intros [= <-]. split; [done|]. exists p. split; [by left|congruence].
Qed.

(** The assertion fails exactly on a mismatch. *)
Lemma get_pods_taint_toleration_raises job :
  get_pods_taint_toleration job = Raise AssertionError <-> tolerations_mismatch job.
Proof.
  unfold get_pods_taint_toleration. split.
  - intros Hr.
    assert (tolerations_loop None job = Raise AssertionError) as Hloop
      by (destruct (tolerations_loop None job); cbn in Hr; congruence).
    clear Hr. induction job as [|p job IH]; [done|]. cbn in Hloop.
    destruct (tolerations (pod_spec p)) as [ts|] eqn:Hp.
    + destruct (tolerations_loop_raised _ _ _ Hloop) as (_ & p2 & Hin & Hne).
      by exists [], p, ts, job, p2.
    + destruct (IH Hloop) as (pre & p1 & ts & rest & p2 & -> & Hpre & Hp1 & Hin & Hne).
      exists (p :: pre), p1, ts, rest, p2. split; [done|]. split; [by constructor|done].
  - intros (pre & p1 & ts & rest & p2 & -> & Hpre & Hp1 & Hin & Hne).
    assert (tolerations_loop None (pre ++ p1 :: rest) = Raise AssertionError) as ->;
      [|done].
    induction Hpre as [|p pre Hp _ IH]; cbn.
    + rewrite Hp1. by eapply tolerations_loop_raises.
    + by rewrite Hp.
Qed.

Lemma jobs_loop_app nodes pods gate before rest v1 :
  jobs_loop nodes pods gate (before ++ rest) v1
  = match jobs_loop nodes pods gate before v1 with
    | (Ok _, v1') => jobs_loop nodes pods gate rest v1'
    | failed => failed
    end.
Proof.
  revert v1. induction before as [|job before IH]; intros v1; [done|].
  cbn [app jobs_loop]. unfold mbind.
  destruct (schedule_job nodes pods gate job v1) as [[[]|e|] v1']; [|done..].
  apply IH.
Qed.

Lemma schedule_job_mismatch nodes pods gate job v1 :
  tolerations_mismatch job ->
  schedule_job nodes pods gate job v1 = (Raise AssertionError, v1).
Proof.
  intros Hmis. pose proof Hmis as (pre & p1 & ts & rest & p2 & Hjob & _).
  apply get_pods_taint_toleration_raises in Hmis.
  unfold schedule_job, mbind, lift. rewrite Hmis.
  destruct job as [|p job]; [by destruct pre|]. done.
Qed.

(** C8, as the code has it: when the assertion of
    [get_pods_taint_toleration] fails for a job, [schedule_pod_with_gate]
    writes nothing for that job and raises AssertionError; the jobs
    sorted after it are not processed, and what was written for the jobs
    sorted before it stays. *)
Theorem schedule_pod_with_gate_tolerations_mismatch
    (pods : list V1Pod) (gate : string) (v1 : CoreV1Api)
    (before : list (list PodRecord)) (job : list PodRecord)
    (after : list (list PodRecord)) :
  sorted (split_pods_based_on_jobs (dict_values (find_schedulable_pods pods gate)))
    sort_jobs_by_time = Ok (before ++ job :: after) ->
  tolerations_mismatch job ->
  schedule_pod_with_gate pods gate v1
  = match jobs_loop (api_nodes v1) pods gate before v1 with
    | (Ok _, v1') => (Raise AssertionError, v1')
    | failed => failed
    end.
Proof.
  intros Hsorted Hmis. unfold schedule_pod_with_gate, mbind at 1, lift.
  rewrite Hsorted, jobs_loop_app.
  destruct (jobs_loop (api_nodes v1) pods gate before v1) as [[[]|e|] v1']; [|done..].
  cbn [jobs_loop]. unfold mbind. by rewrite schedule_job_mismatch.
Qed.

Lemma ex_job_a_mismatch :
  tolerations_mismatch [pod_record ex_pod_a0; pod_record ex_pod_a1].
Proof.
  exists [], (pod_record ex_pod_a0), [ex_toleration], [pod_record ex_pod_a1],
    (pod_record ex_pod_a1).
  split; [done|]. split; [constructor|]. split; [done|].
  split; [by left|]. vm_compute. congruence.
Qed.

(** Two pods whose tolerations differ in [toleration_seconds] only are
    a mismatch as well, and the round ends in the same way. *)
Lemma ex_job_seconds_mismatch :
  tolerations_mismatch
    [ pod_record (ex_pod "a-0" "a" 100 None (Some [ex_toleration_for 300]));
      pod_record (ex_pod "a-1" "a" 100 None (Some [ex_toleration_for 600])) ]
  /\ get_pods_taint_toleration
       [ pod_record (ex_pod "a-0" "a" 100 None (Some [ex_toleration_for 300]));
         pod_record (ex_pod "a-1" "a" 100 None (Some [ex_toleration_for 600])) ]
     = Raise AssertionError.
Proof.
  split; [|vm_compute; reflexivity].
  exists [], (pod_record (ex_pod "a-0" "a" 100 None (Some [ex_toleration_for 300]))),
    [ex_toleration_for 300],
    [pod_record (ex_pod "a-1" "a" 100 None (Some [ex_toleration_for 600]))],
    (pod_record (ex_pod "a-1" "a" 100 None (Some [ex_toleration_for 600]))).
  split; [done|]. split; [constructor|]. split; [done|].
  split; [by left|]. vm_compute. congruence.
Qed.

Lemma schedule_pod_with_gate_tolerations_mismatch_witness :
  sorted (split_pods_based_on_jobs (dict_values (find_schedulable_pods ex_pods_ab ex_gate)))
    sort_jobs_by_time
  = Ok ([] ++ [pod_record ex_pod_a0; pod_record ex_pod_a1] :: [[pod_record ex_pod_b0]])
  /\ tolerations_mismatch [pod_record ex_pod_a0; pod_record ex_pod_a1]
  /\ schedule_pod_with_gate ex_pods_ab ex_gate (ex_api ex_pods_ab)
     = (Raise AssertionError, ex_api ex_pods_ab).
Proof.
  assert (Hsorted :
    sorted (split_pods_based_on_jobs (dict_values (find_schedulable_pods ex_pods_ab ex_gate)))
      sort_jobs_by_time
    = Ok ([] ++ [pod_record ex_pod_a0; pod_record ex_pod_a1] :: [[pod_record ex_pod_b0]]))
    by (vm_compute; reflexivity).
  split; [exact Hsorted|]. split; [exact ex_job_a_mismatch|].
  exact (schedule_pod_with_gate_tolerations_mismatch ex_pods_ab ex_gate
           (ex_api ex_pods_ab) [] _ _ Hsorted ex_job_a_mismatch).
Defined.

(** C8 fails as stated: with the two pods of job "a" carrying different
    tolerations, the round ends in an AssertionError, and the pod of job
    "b", which is committed when it is scheduled alone, is not. *)
Lemma schedule_pod_with_gate_assertion_escapes :
  schedule_pod_with_gate ex_pods_ab ex_gate (ex_api ex_pods_ab)
  = (Raise AssertionError, ex_api ex_pods_ab)
  /\ fst (schedule_pod_with_gate [ex_pod_b0] ex_gate (ex_api ex_pods_ab)) = Ok tt
  /\ map (fun p => meta_name (metadata p))
       (api_replaced (snd (schedule_pod_with_gate [ex_pod_b0] ex_gate (ex_api ex_pods_ab))))
     = ["b-0"].
Proof. repeat split; vm_compute; reflexivity. Qed.

(** ** The committer *)

Lemma gate_present_spec gate gates :
  existsb (fun g => bool_decide (gate_name g = gate)) gates = true
  <-> gate ∈ map gate_name gates.
Proof.
  rewrite existsb_exists, list_elem_of_In, in_map_iff. split.
  - intros (g & Hin & Hg). apply bool_decide_eq_true in Hg. by exists g.
  - intros (g & Hg & Hin). exists g. split; [done|]. by apply bool_decide_eq_true.
Qed.

Lemma find_existsb {A} (f : A -> bool) (l : list A) x :
  find f l = Some x -> existsb f l = true.
Proof.
  intros Hf. apply find_some in Hf as [Hin Hx]. apply existsb_exists. by exists x.
Qed.

(** C9: when the pod read back from the API carries the target gate,
    one pod is handed to [replace_namespaced_pod], and its gate list is
    the original list without the gates named [gate], all other gates
    kept in their order; it is the one pod written, unless the server
    refuses the replace, in which case nothing is written and the call
    still returns normally; when the target gate is absent, nothing is
    written and the state of the API is unchanged. *)
Theorem schedule_pod_on_node_removes_gate
    (v1 : CoreV1Api) (name namespace : string) (node : NodeInfo) (gate : string)
    (pod : V1Pod) (gates : list V1PodSchedulingGate) :
  find (is_pod name namespace) (api_pods v1) = Some pod ->
  scheduling_gates (spec pod) = Some gates ->
  (gate ∈ map gate_name gates ->
   exists written,
     schedule_pod_on_node name namespace node gate v1
     = (Ok tt,
        if replace_refused v1 then answered v1
        else
          {| api_nodes := api_nodes v1;
             api_pods := replace_first name namespace written (api_pods v1);
             api_replaced := api_replaced v1 ++ [written];
             api_replace_errors := tail (api_replace_errors v1) |})
     /\ scheduling_gates (spec written)
        = Some (filter (fun g => gate_name g ≠ gate) gates)
     /\ metadata written = metadata pod
     /\ affinity (spec written)
        = Some {| match_key := hostname_label; match_operator := "In";
                  match_values := [node_name node] |})
  /\ (forall g, g ∈ filter (fun g => gate_name g ≠ gate) gates
                <-> g ∈ gates /\ gate_name g ≠ gate)
  /\ filter (fun g => gate_name g ≠ gate) gates `sublist_of` gates
  /\ (gate ∉ map gate_name gates ->
      schedule_pod_on_node name namespace node gate v1 = (Ok tt, v1)).
Proof.
  intros Hfind Hgates.
  split; [|split; [|split]].
  - intros Hin. apply gate_present_spec in Hin.
    exists {| metadata := metadata pod;
              spec := {| containers := containers (spec pod);
                         node_selector := node_selector (spec pod);
                         tolerations := tolerations (spec pod);
                         scheduling_gates :=
                           Some (filter (fun g => gate_name g ≠ gate) gates);
                         spec_node_name := spec_node_name (spec pod);
                         affinity :=
                           Some {| match_key := hostname_label;
                                   match_operator := "In";
                                   match_values := [node_name node] |} |};
              status := status pod |}.
    unfold schedule_pod_on_node, try_except_api, mbind, read_namespaced_pod.
    rewrite Hfind, Hgates, Hin. unfold replace_namespaced_pod.
    rewrite (find_existsb _ _ _ Hfind). by destruct (replace_refused v1).
  - intros g. rewrite list_elem_of_filter. tauto.
  - apply sublist_filter.
  - intros Hnot.
    assert (existsb (fun g => bool_decide (gate_name g = gate)) gates = false) as Hex.
    { destruct (existsb _ gates) eqn:Hex; [|done]. by apply gate_present_spec in Hex. }
    unfold schedule_pod_on_node, try_except_api, mbind, read_namespaced_pod.
    by rewrite Hfind, Hgates, Hex.
Qed.

Lemma schedule_pod_on_node_removes_gate_witness :
  find (is_pod "p" "default") (api_pods (ex_api [ex_three_gates])) = Some ex_three_gates
  /\ scheduling_gates (spec ex_three_gates) = Some ex_gates
  /\ ex_gate ∈ map gate_name ex_gates
  /\ exists written,
       api_replaced (snd (schedule_pod_on_node "p" "default" ex_rack1_node ex_gate
                            (ex_api [ex_three_gates]))) = [written]
       /\ scheduling_gates (spec written)
          = Some [ {| gate_name := "other/gate-y" |};
                   {| gate_name := "gke.io/topology-aware-auto-z" |} ].
Proof.
  assert (Hin : ex_gate ∈ map gate_name ex_gates) by (by left).
  split; [reflexivity|]. split; [reflexivity|]. split; [exact Hin|].
  destruct (schedule_pod_on_node_removes_gate (ex_api [ex_three_gates]) "p" "default"
              ex_rack1_node ex_gate ex_three_gates ex_gates eq_refl eq_refl)
    as [Hwrite _].
  destruct (Hwrite Hin) as (written & Hrun & Hnew & _).
  exists written. rewrite Hrun. split; [reflexivity|]. rewrite Hnew. reflexivity.
Defined.

(** Whatever the API holds, nothing is written unless the pod read back
    carries the target gate: a missing pod is an ApiException that is
    swallowed, a pod without a gate list is a TypeError. *)
Lemma schedule_pod_on_node_no_write v1 name namespace node gate :
  (forall pod gates,
      find (is_pod name namespace) (api_pods v1) = Some pod ->
      scheduling_gates (spec pod) = Some gates ->
      gate ∉ map gate_name gates) ->
  snd (schedule_pod_on_node name namespace node gate v1) = v1.
Proof.
  intros Habsent.
  unfold schedule_pod_on_node, try_except_api, mbind, read_namespaced_pod.
  destruct (find (is_pod name namespace) (api_pods v1)) as [pod|] eqn:Hfind; [|done].
  destruct (scheduling_gates (spec pod)) as [gates|] eqn:Hgates; [|done].
  specialize (Habsent pod gates eq_refl Hgates).
  destruct (existsb _ gates) eqn:Hex; [|done]. by apply gate_present_spec in Hex.
Qed.

(** ** The sort key of a pod *)

Lemma scan_suffix_digits remaining :
  Forall (fun c => isdigit c = true) remaining ->
  forall suffix, scan_suffix remaining suffix = Raise IndexError.
Proof.
  induction 1 as [|c remaining Hc _ IH]; intros suffix; cbn; [done|].
  rewrite Hc. apply IH.
Qed.

Lemma scan_suffix_returns remaining :
  forall suffix s,
    scan_suffix remaining suffix = Ok s ->
    Exists (fun c => isdigit c = false) remaining.
Proof.
  induction remaining as [|c remaining IH]; intros suffix s; cbn; [done|].
  destruct (isdigit c) eqn:Hc.
  - intros Hs. right. by eapply IH.
  - intros _. by left.
Qed.

Lemma sorted_key_error {A} (key : A -> outcome pykey) (l : list A) x rest e :
  l = x :: rest -> key x = Raise e -> sorted l key = Raise e.
Proof. intros -> Hx. unfold sorted. cbn. by rewrite Hx. Qed.

(** C10: for a pod record without index, [pod_sorting_key] returns a
    key, which then is a (prefix, number) pair, only if the name has a
    character that is not a digit; on a name made of digits only (the
    empty name included) it raises IndexError, and so does a scheduling
    round over a gated pod of that name. *)
Theorem pod_sorting_key_without_index (pod : PodRecord) :
  pod_index pod = None ->
  (forall key,
      pod_sorting_key pod = Ok key ->
      (exists prefix number, key = KTuple [AStr prefix; AInt number])
      /\ Exists (fun c => isdigit c = false) (list_ascii_of_string (pod_name pod)))
  /\ (Forall (fun c => isdigit c = true) (list_ascii_of_string (pod_name pod)) ->
      pod_sorting_key pod = Raise IndexError
      /\ forall v1,
           schedule_pod_with_gate [gated_pod (pod_name pod)] ex_gate v1
           = (Raise IndexError, v1)).
Proof.
  intros Hindex. unfold pod_sorting_key. rewrite Hindex. split.
  - intros key Hkey.
    destruct (scan_suffix (rev (list_ascii_of_string (pod_name pod))) [])
      as [suffix| |] eqn:Hscan; cbn in Hkey; [|done..].
    split.
    + destruct (if bool_decide (suffix ≠ []) then int suffix else Ok 0) as [idx| |];
        cbn in Hkey; [|done..].
      injection Hkey as <-. by eexists _, _.
    + apply scan_suffix_returns in Hscan. apply Exists_exists in Hscan as (c & Hin & Hc).
      apply Exists_exists. exists c. split; [|done].
      apply list_elem_of_In. apply list_elem_of_In, in_rev in Hin. done.
  - intros Hdigits.
    assert (Hkey : pod_sorting_key (pod_record (gated_pod (pod_name pod)))
                   = Raise IndexError).
    { unfold pod_sorting_key. cbn.
      rewrite scan_suffix_digits; [done|]. by apply Forall_rev. }
    split.
    + rewrite scan_suffix_digits; [done|]. by apply Forall_rev.
    + intros v1. unfold schedule_pod_with_gate, mbind, lift.
      assert (find_schedulable_pods [gated_pod (pod_name pod)] ex_gate
              = [(pod_name pod, pod_record (gated_pod (pod_name pod)))]) as ->
        by reflexivity.
      cbn [dict_values map snd split_pods_based_on_jobs groupby].
      assert (sorted [[pod_record (gated_pod (pod_name pod))]] sort_jobs_by_time
              = Ok [[pod_record (gated_pod (pod_name pod))]]) as ->
        by reflexivity.
      cbn [jobs_loop]. unfold mbind, schedule_job, lift, mbind.
      assert (getitem [pod_record (gated_pod (pod_name pod))] 0
              = Ok (pod_record (gated_pod (pod_name pod)))) as -> by reflexivity.
      assert (get_pods_taint_toleration [pod_record (gated_pod (pod_name pod))]
              = Ok []) as -> by reflexivity.
      by rewrite (sorted_key_error _ _ _ _ _ eq_refl Hkey).
Qed.

Lemma pod_sorting_key_without_index_witness :
  pod_index (pod_record ex_digits) = None
  /\ Forall (fun c => isdigit c = true)
       (list_ascii_of_string (pod_name (pod_record ex_digits)))
  /\ pod_sorting_key (pod_record ex_digits) = Raise IndexError
  /\ schedule_pod_with_gate [ex_digits] ex_gate (ex_api [ex_digits])
     = (Raise IndexError, ex_api [ex_digits]).
Proof.
  assert (Hdigits : Forall (fun c => isdigit c = true)
                      (list_ascii_of_string (pod_name (pod_record ex_digits))))
    by (repeat constructor).
  split; [reflexivity|]. split; [exact Hdigits|].
  destruct (pod_sorting_key_without_index (pod_record ex_digits) eq_refl)
    as [_ Hraise].
  destruct (Hraise Hdigits) as [Hkey Hround].
  split; [exact Hkey|]. exact (Hround (ex_api [ex_digits])).
Defined.

(** * Further properties of the code *)

(** ** Insertion-ordered dictionaries *)

Section DictFacts.
Context {K V : Type} `{EqDecision K}.

Lemma dict_get_set (d : list (K * V)) k v k' :
  dict_get (dict_set d k v) k' = if decide (k = k') then Some v else dict_get d k'.
Proof.
  induction d as [|[k0 v0] d IH]; cbn.
  - by repeat case_decide.
  - destruct (decide (k0 = k)) as [->|Hne]; cbn.
    + by repeat case_decide.
    + rewrite IH. repeat case_decide; congruence.
Qed.

Lemma dict_set_keys (d : list (K * V)) k v k' :
  k' ∈ map fst (dict_set d k v) <-> k' = k \/ k' ∈ map fst d.
Proof.
  induction d as [|[k0 v0] d IH]; cbn.
  - rewrite list_elem_of_singleton, elem_of_nil. tauto.
  - case_decide; subst; cbn; rewrite !elem_of_cons; [tauto|]. rewrite IH. tauto.
Qed.

Lemma dict_set_nodup (d : list (K * V)) k v :
  NoDup (map fst d) -> NoDup (map fst (dict_set d k v)).
Proof.
  induction d as [|[k0 v0] d IH]; cbn; intros Hnd.
  - apply NoDup_singleton.
  - apply NoDup_cons in Hnd as [Hnotin Hnd].
    case_decide; subst; cbn; apply NoDup_cons; [done|]. split; [|by apply IH].
    rewrite dict_set_keys. intros [->|Hin]; done.
Qed.

Lemma dict_set_elem (d : list (K * V)) k v x :
  x ∈ dict_set d k v -> x = (k, v) \/ x ∈ d.
Proof.
  induction d as [|[k0 v0] d IH]; cbn.
  - rewrite list_elem_of_singleton. tauto.
  - case_decide; subst; rewrite !elem_of_cons; [tauto|].
    intros [->|Hin]; [tauto|]. destruct (IH Hin); tauto.
Qed.

Lemma dict_set_idem (d : list (K * V)) k v :
  dict_set (dict_set d k v) k v = dict_set d k v.
Proof.
  induction d as [|[k0 v0] d IH]; cbn.
  - by case_decide.
  - destruct (decide (k0 = k)) as [->|Hne]; cbn; case_decide; try done.
    by rewrite IH.
Qed.

Lemma dict_get_elem (d : list (K * V)) k v :
  dict_get d k = Some v -> (k, v) ∈ d.
Proof.
  induction d as [|[k0 v0] d IH]; cbn; [done|].
  case_decide; subst.
  - intros [= ->]. by left.
  - intros Hget. right. by apply IH.
Qed.

Lemma dict_elem_get (d : list (K * V)) k v :
  NoDup (map fst d) -> (k, v) ∈ d -> dict_get d k = Some v.
Proof.
  induction d as [|[k0 v0] d IH]; cbn; intros Hnd Hin.
  - by apply elem_of_nil in Hin.
  - apply NoDup_cons in Hnd as [Hnotin Hnd].
    apply elem_of_cons in Hin as [[= -> ->]|Hin].
    + by case_decide.
    + case_decide; subst; [|by apply IH].
      exfalso. apply Hnotin. apply list_elem_of_fmap. by exists (k, v).
Qed.
End DictFacts.

(** ** The pod filter *)

(** The inner loop over the gates of one pod stores the pod's record
    once when the gate is among them. *)
Lemma gates_fold_carries (gate name : string) (rec : PodRecord) gates :
  forall d : list (string * PodRecord),
    fold_left
      (fun d g => if bool_decide (gate_name g = gate) then dict_set d name rec else d)
      gates d
    = if bool_decide (gate ∈ map gate_name gates) then dict_set d name rec else d.
Proof.
  induction gates as [|g gates IH]; intros d; cbn [fold_left map].
  - rewrite bool_decide_eq_false_2; [done|]. apply not_elem_of_nil.
  - rewrite IH. destruct (decide (gate_name g = gate)) as [Heq|Hne].
    + rewrite (bool_decide_eq_true_2 _ Heq).
      rewrite (bool_decide_eq_true_2 (gate ∈ _ :: _)) by (rewrite Heq; by left).
      case_bool_decide; [apply dict_set_idem|done].
    + rewrite (bool_decide_eq_false_2 _ Hne).
      assert (bool_decide (gate ∈ gate_name g :: map gate_name gates)
              = bool_decide (gate ∈ map gate_name gates)) as ->; [|done].
      apply bool_decide_ext. rewrite elem_of_cons.
      split; [intros [Heq|Hin]; [congruence|done]|by right].
Qed.

Lemma find_schedulable_pods_fold pods gate :
  find_schedulable_pods pods gate = fold_left (pods_step gate) pods [].
Proof.
  unfold find_schedulable_pods. generalize ([] : list (string * PodRecord)).
  induction pods as [|pod pods IH]; intros d; cbn [fold_left]; [done|].
  rewrite gates_fold_carries. apply IH.
Qed.

Lemma pods_fold_elem gate pods :
  forall d x,
    x ∈ fold_left (pods_step gate) pods d ->
    x ∈ d \/ exists pod, pod ∈ pods /\ carries_gate gate pod
                        /\ x = (meta_name (metadata pod), pod_record pod).
Proof.
  induction pods as [|pod pods IH]; intros d x; cbn [fold_left]; [tauto|].
  intros Hin. destruct (IH _ _ Hin) as [Hd|(p & Hp & Hc & ->)].
  - unfold pods_step in Hd. case_bool_decide as Hc; [|tauto].
    apply dict_set_elem in Hd as [->|Hd]; [|tauto].
    right. exists pod. split; [by left|done].
  - right. exists p. split; [by right|done].
Qed.

Lemma pods_fold_nodup gate pods :
  forall d, NoDup (map fst d) -> NoDup (map fst (fold_left (pods_step gate) pods d)).
Proof.
  induction pods as [|pod pods IH]; intros d Hnd; cbn [fold_left]; [done|].
  apply IH. unfold pods_step. case_bool_decide; [by apply dict_set_nodup|done].
Qed.

Lemma pods_fold_get_other gate name pods :
  forall d,
    (forall pod, pod ∈ pods -> carries_gate gate pod -> meta_name (metadata pod) ≠ name) ->
    dict_get (fold_left (pods_step gate) pods d) name = dict_get d name.
Proof.
  induction pods as [|pod pods IH]; intros d Hother; cbn [fold_left]; [done|].
  rewrite IH by (intros p Hp; apply Hother; by right).
  unfold pods_step. case_bool_decide as Hc; [|done].
  rewrite dict_get_set. case_decide as Heq; [|done].
  exfalso. by apply (Hother pod ltac:(by left) Hc).
Qed.

(** X1: [find_schedulable_pods] returns a dictionary with one entry per
    pod name; every entry is the record of a listed pod that carries the
    gate, stored under that pod's name, and every listed pod that carries
    the gate has its name among the keys. *)
Theorem find_schedulable_pods_entries (pods : list V1Pod) (gate : string) :
  NoDup (map fst (find_schedulable_pods pods gate))
  /\ (forall name rec,
        (name, rec) ∈ find_schedulable_pods pods gate ->
        exists pod, pod ∈ pods /\ carries_gate gate pod
                    /\ name = meta_name (metadata pod) /\ rec = pod_record pod)
  /\ (forall pod,
        pod ∈ pods -> carries_gate gate pod ->
        meta_name (metadata pod) ∈ map fst (find_schedulable_pods pods gate)).
Proof.
  rewrite find_schedulable_pods_fold. split; [|split].
  - apply pods_fold_nodup. constructor.
  - intros name rec Hin.
    destruct (pods_fold_elem _ _ _ _ Hin) as [Hnil|(pod & Hp & Hc & [= -> ->])].
    + by apply elem_of_nil in Hnil.
    + by exists pod.
  - generalize ([] : list (string * PodRecord)).
    induction pods as [|p pods IH]; intros d pod Hin Hc; cbn [fold_left].
    + by apply elem_of_nil in Hin.
    + apply elem_of_cons in Hin as [->|Hin]; [|by apply IH].
      clear IH. unfold pods_step at 2. rewrite (bool_decide_eq_true_2 _ Hc).
      assert (Hkey : meta_name (metadata p)
                     ∈ map fst (dict_set d (meta_name (metadata p)) (pod_record p)))
        by (apply dict_set_keys; by left).
      revert Hkey. generalize (dict_set d (meta_name (metadata p)) (pod_record p)).
      induction pods as [|q pods IH]; intros d' Hkey; cbn [fold_left]; [done|].
      apply IH. unfold pods_step. case_bool_decide; [|done].
      apply dict_set_keys. by right.
Qed.

(** X2: the dictionary is keyed by the pod's name alone, and a later pod
    replaces an earlier one of the same name: the record found under a
    name is that of the last listed pod of that name that carries the
    gate, whatever namespace the pods are in. *)
Theorem find_schedulable_pods_last_wins
    (pods1 : list V1Pod) (pod : V1Pod) (pods2 : list V1Pod) (gate : string) :
  carries_gate gate pod ->
  (forall p, p ∈ pods2 -> carries_gate gate p ->
             meta_name (metadata p) ≠ meta_name (metadata pod)) ->
  dict_get (find_schedulable_pods (pods1 ++ pod :: pods2) gate)
    (meta_name (metadata pod)) = Some (pod_record pod).
Proof.
  intros Hc Hlater. rewrite find_schedulable_pods_fold, fold_left_app.
  cbn [fold_left]. rewrite pods_fold_get_other by done.
  unfold pods_step. rewrite (bool_decide_eq_true_2 _ Hc), dict_get_set.
  by case_decide.
Qed.

Lemma find_schedulable_pods_last_wins_witness :
  carries_gate ex_gate ex_same_name_other
  /\ (forall p, p ∈ ([] : list V1Pod) -> carries_gate ex_gate p ->
                meta_name (metadata p) ≠ meta_name (metadata ex_same_name_other))
  /\ dict_get (find_schedulable_pods ([ex_pod_b0] ++ ex_same_name_other :: []) ex_gate)
       "b-0" = Some (pod_record ex_same_name_other)
  /\ pod_namespace (pod_record ex_same_name_other) = "batch"
  /\ length (find_schedulable_pods [ex_pod_b0; ex_same_name_other] ex_gate) = 1%nat.
Proof.
  assert (Hc : carries_gate ex_gate ex_same_name_other) by (by left).
  assert (Hlater : forall p, p ∈ ([] : list V1Pod) -> carries_gate ex_gate p ->
            meta_name (metadata p) ≠ meta_name (metadata ex_same_name_other))
    by (intros p Hp; by apply elem_of_nil in Hp).
  split; [exact Hc|]. split; [exact Hlater|].
  split; [exact (find_schedulable_pods_last_wins [ex_pod_b0] ex_same_name_other []
                   ex_gate Hc Hlater)|].
  split; reflexivity.
Defined.

(** ** Gate discovery *)

Lemma gates_fold_names (prefix : string) gates :
  forall (s : gset string) name,
    name ∈ fold_left
             (fun s g =>
                if String.prefix prefix (gate_name g) then {[ gate_name g ]} ∪ s else s)
             gates s
    <-> name ∈ s \/ exists g, g ∈ gates /\ gate_name g = name
                              /\ String.prefix prefix name = true.
Proof.
  induction gates as [|g gates IH]; intros s name; cbn [fold_left].
  - split; [tauto|]. intros [Hs|(g & Hg & _)]; [done|by apply elem_of_nil in Hg].
  - rewrite IH. split.
    + intros [Hin|(g' & Hg' & Hname & Hpre)].
      * destruct (String.prefix prefix (gate_name g)) eqn:Hp; [|tauto].
        apply elem_of_union in Hin as [Hin|Hin]; [|tauto].
        apply elem_of_singleton in Hin as ->.
        right. exists g. split; [by left|done].
      * right. exists g'. split; [by right|done].
    + intros [Hin|(g' & Hg' & Hname & Hpre)].
      * left. destruct (String.prefix prefix (gate_name g)); [|done].
        apply elem_of_union. by right.
      * apply elem_of_cons in Hg' as [->|Hg'].
        -- left. rewrite Hname, Hpre. apply elem_of_union. left.
           by apply elem_of_singleton.
        -- right. by exists g'.
Qed.

Lemma pods_fold_names (prefix : string) pods :
  forall (s : gset string) name,
    name ∈ fold_left
             (fun s pod =>
                fold_left
                  (fun s g =>
                     if String.prefix prefix (gate_name g)
                     then {[ gate_name g ]} ∪ s else s)
                  (default [] (scheduling_gates (spec pod))) s)
             pods s
    <-> name ∈ s \/ exists pod, pod ∈ pods /\ carries_gate name pod
                                /\ String.prefix prefix name = true.
Proof.
  induction pods as [|pod pods IH]; intros s name; cbn [fold_left].
  - split; [tauto|]. intros [Hs|(p & Hp & _)]; [done|by apply elem_of_nil in Hp].
  - rewrite IH, gates_fold_names. unfold carries_gate. split.
    + intros [[Hin|(g & Hg & Hname & Hpre)]|(p & Hp & Hc & Hpre)]; [tauto| |].
      * right. exists pod. split; [by left|]. split; [|done].
        apply list_elem_of_fmap. by exists g.
      * right. exists p. split; [by right|done].
    + intros [Hin|(p & Hp & Hc & Hpre)]; [tauto|].
      apply elem_of_cons in Hp as [->|Hp].
      * left. right. apply list_elem_of_fmap in Hc as (g & -> & Hg). by exists g.
      * right. by exists p.
Qed.

(** X3: [find_pod_gates] returns exactly the names that start with the
    prefix and are the name of a gate of some listed pod. *)
Theorem find_pod_gates_spec (pods : list V1Pod) (prefix name : string) :
  name ∈ find_pod_gates pods prefix
  <-> String.prefix prefix name = true
      /\ exists pod, pod ∈ pods /\ carries_gate name pod.
Proof.
  unfold find_pod_gates. rewrite pods_fold_names. split.
  - intros [Hin|(pod & Hp & Hc & Hpre)]; [by apply elem_of_empty in Hin|].
    split; [done|]. by exists pod.
  - intros [Hpre (pod & Hp & Hc)]. right. by exists pod.
Qed.

(** X4: every gate name that [find_pod_gates] discovers selects at least
    one pod in [find_schedulable_pods], so a round started for it has a
    job to look at. *)
Theorem discovered_gate_has_pods (pods : list V1Pod) (prefix gate : string) :
  gate ∈ find_pod_gates pods prefix ->
  find_schedulable_pods pods gate ≠ []
  /\ exists pod, pod ∈ pods /\ carries_gate gate pod
                 /\ meta_name (metadata pod) ∈ map fst (find_schedulable_pods pods gate).
Proof.
  intros Hin. apply pods_fold_names in Hin as [Hin|(pod & Hp & Hc & _)];
    [by apply elem_of_empty in Hin|].
  assert (Hkey : meta_name (metadata pod) ∈ map fst (find_schedulable_pods pods gate)).
  { rewrite find_schedulable_pods_fold. clear -Hp Hc.
    generalize ([] : list (string * PodRecord)).
    induction pods as [|p pods IH]; intros d; cbn [fold_left];
      [by apply elem_of_nil in Hp|].
    apply elem_of_cons in Hp as [<-|Hp]; [|by apply IH].
    clear IH. unfold pods_step at 2. rewrite (bool_decide_eq_true_2 _ Hc).
    assert (Hkey : meta_name (metadata pod)
                   ∈ map fst (dict_set d (meta_name (metadata pod)) (pod_record pod)))
      by (apply dict_set_keys; by left).
    revert Hkey. generalize (dict_set d (meta_name (metadata pod)) (pod_record pod)).
    induction pods as [|q pods IH]; intros d' Hkey; cbn [fold_left]; [done|].
    apply IH. unfold pods_step. case_bool_decide; [|done].
    apply dict_set_keys. by right. }
  split; [|by exists pod].
  intros Hnil. rewrite Hnil in Hkey. by apply elem_of_nil in Hkey.
Qed.

Lemma discovered_gate_has_pods_witness :
  ex_gate ∈ find_pod_gates [ex_three_gates] "gke.io/topology-aware-auto-"
  /\ find_schedulable_pods [ex_three_gates] ex_gate ≠ [].
Proof.
  assert (Hin : ex_gate ∈ find_pod_gates [ex_three_gates] "gke.io/topology-aware-auto-").
  { unfold find_pod_gates. apply pods_fold_names. right. exists ex_three_gates.
    split; [by left|]. split; [by left|reflexivity]. }
  split; [exact Hin|].
  exact (proj1 (discovered_gate_has_pods [ex_three_gates] _ ex_gate Hin)).
Defined.

(** ** The node filter *)

Lemma tolerated_dict_get (ts : list V1Toleration) k :
  forall d : list (option string * V1Toleration),
    dict_get (fold_left (fun d t => dict_set d (toleration_key t) t) ts d) k
    = match last (filter (fun t => toleration_key t = k) ts) with
      | Some t => Some t
      | None => dict_get d k
      end.
Proof.
  induction ts as [|t ts IH]; intros d; cbn [fold_left]; [done|].
  rewrite IH, filter_cons, dict_get_set.
  destruct (decide (toleration_key t = k)) as [Heq|Hne].
  - rewrite last_cons. by destruct (last (filter _ ts)).
  - by destruct (last (filter _ ts)).
Qed.

Lemma taint_tolerated_spec (ts : list V1Toleration) (t : V1Taint) :
  taint_not_tolerated (tolerated_taint_dict (Some ts)) t = false <-> tolerates ts t.
Proof.
  unfold taint_not_tolerated, tolerated_taint_dict, tolerates.
  rewrite tolerated_dict_get. cbn [dict_get].
  destruct (last (filter _ ts)) as [tol|]; split.
  - intros Hf. exists tol. split; [done|]. intros Hop.
    rewrite (bool_decide_eq_true_2 _ Hop) in Hf. cbn in Hf.
    apply bool_decide_eq_false in Hf. by destruct (decide (toleration_value tol = taint_value t)).
  - intros (tol' & [= <-] & Hval).
    destruct (decide (toleration_operator tol = Some "Equal")) as [Hop|Hop].
    + rewrite (bool_decide_eq_true_2 _ Hop). cbn.
      apply bool_decide_eq_false. intros Hne. by apply Hne, Hval.
    + by rewrite (bool_decide_eq_false_2 _ Hop).
  - done.
  - by intros (tol' & [=] & _).
Qed.

Lemma node_free_resources_name node pods :
  node_name (node_free_resources node pods) = v1node_name node.
Proof.
  unfold node_free_resources. by destruct (fold_left _ pods _) as [[? ?] ?].
Qed.

Lemma nodes_loop_elem dict pods nodes :
  forall acc x,
    x ∈ nodes_loop dict pods nodes acc ->
    x ∈ acc
    \/ exists node,
         node ∈ nodes
         /\ x = (v1node_name node, node_free_resources node pods)
         /\ v1node_labels node !! placement_group_label ≠ None
         /\ not_ready node = false
         /\ (forall taints, v1node_taints node = Some taints ->
               Forall (fun t => taint_not_tolerated dict t = false) taints).
Proof.
  induction nodes as [|node nodes IH]; intros acc x; cbn [nodes_loop]; [tauto|].
  assert (Hlater : forall acc',
            x ∈ nodes_loop dict pods nodes acc' ->
            (x ∈ acc' -> x ∈ acc \/ exists n, n ∈ node :: nodes
                /\ x = (v1node_name n, node_free_resources n pods)
                /\ v1node_labels n !! placement_group_label ≠ None
                /\ not_ready n = false
                /\ (forall taints, v1node_taints n = Some taints ->
                      Forall (fun t => taint_not_tolerated dict t = false) taints)) ->
            x ∈ acc \/ exists n, n ∈ node :: nodes
                /\ x = (v1node_name n, node_free_resources n pods)
                /\ v1node_labels n !! placement_group_label ≠ None
                /\ not_ready n = false
                /\ (forall taints, v1node_taints n = Some taints ->
                      Forall (fun t => taint_not_tolerated dict t = false) taints)).
  { intros acc' Hin Hacc. destruct (IH _ _ Hin) as [Hx|(n & Hn & Hrest)]; [by apply Hacc|].
    right. exists n. split; [by right|done]. }
  case_bool_decide as Hlabel; [intros Hin; apply (Hlater _ Hin); tauto|].
  destruct (not_ready node) eqn:Hready; [tauto|].
  destruct (match v1node_taints node with Some _ => _ | None => _ end) eqn:Hskip;
    [intros Hin; apply (Hlater _ Hin); tauto|].
  intros Hin. apply (Hlater _ Hin). intros Hx.
  apply dict_set_elem in Hx as [->|Hx]; [|tauto].
  right. exists node. split; [by left|]. split; [done|]. split; [done|]. split; [done|].
  intros taints Htaints. rewrite Htaints in Hskip.
  apply Forall_forall. intros t Ht.
  destruct (taint_not_tolerated dict t) eqn:Hnt; [|done].
  assert (existsb (taint_not_tolerated dict) taints = true) as Hex; [|congruence].
  apply existsb_exists. exists t. split; [by apply list_elem_of_In|done].
Qed.

(** X5: every entry that [find_schedulable_nodes] returns is the
    capacity record of a listed node, under that node's name; the node
    carries the placement-group label, has no Ready condition with a
    status other than "True", and each of its taints is tolerated: the
    last of the job's tolerations with the taint's key exists and, if its
    operator is "Equal", has the taint's value. *)
Theorem find_schedulable_nodes_sound
    (nodes : list V1Node) (pods : list V1Pod) (tolerated_taints : list V1Toleration)
    (name : string) (info : NodeInfo) :
  (name, info) ∈ find_schedulable_nodes nodes pods (Some tolerated_taints) ->
  exists node,
    node ∈ nodes /\ name = v1node_name node /\ info = node_free_resources node pods
    /\ v1node_labels node !! placement_group_label ≠ None
    /\ not_ready node = false
    /\ (forall taints, v1node_taints node = Some taints ->
          Forall (tolerates tolerated_taints) taints).
Proof.
  intros Hin.
  destruct (nodes_loop_elem (tolerated_taint_dict (Some tolerated_taints)) pods nodes
              [] (name, info) Hin)
    as [Hnil|(node & Hn & [= -> ->] & Hlabel & Hready & Htaints)];
    [by apply elem_of_nil in Hnil|].
  exists node. repeat (split; [done|]).
  intros taints Ht. specialize (Htaints taints Ht).
  eapply Forall_impl; [exact Htaints|]. intros t. apply taint_tolerated_spec.
Qed.

Lemma find_schedulable_nodes_sound_witness :
  ("up", node_free_resources ex_ready_node [])
    ∈ find_schedulable_nodes [ex_ready_node] [] (Some [])
  /\ exists node,
       node ∈ [ex_ready_node] /\ not_ready node = false
       /\ node_free_resources ex_ready_node [] = node_free_resources node [].
Proof.
  assert (Hin : ("up", node_free_resources ex_ready_node [])
                  ∈ find_schedulable_nodes [ex_ready_node] [] (Some []))
    by (vm_compute; by left).
  split; [exact Hin|].
  destruct (find_schedulable_nodes_sound [ex_ready_node] [] [] "up" _ Hin)
    as (node & Hn & _ & Hinfo & _ & Hready & _).
  exists node. split; [exact Hn|]. split; [exact Hready|exact Hinfo].
Defined.

(** X6: only the last toleration of a key counts.  A node with a taint
    whose key has no toleration, or whose last toleration of that key has
    operator "Equal" and another value, is left out whatever the other
    tolerations are. *)
Theorem find_schedulable_nodes_untolerated
    (node : V1Node) (taints : list V1Taint) (t : V1Taint)
    (tolerated_taints : list V1Toleration) (pods : list V1Pod) :
  v1node_taints node = Some taints -> t ∈ taints ->
  ~ tolerates tolerated_taints t ->
  find_schedulable_nodes [node] pods (Some tolerated_taints) = [].
Proof.
  intros Htaints Ht Hnot. unfold find_schedulable_nodes. cbn [nodes_loop].
  case_bool_decide; [done|]. destruct (not_ready node); [done|].
  rewrite Htaints.
  assert (existsb (taint_not_tolerated
                     (fold_left (fun d t0 => dict_set d (toleration_key t0) t0)
                        tolerated_taints [])) taints = true) as ->; [|done].
  apply existsb_exists. exists t. split; [by apply list_elem_of_In|].
  destruct (taint_not_tolerated _ t) eqn:Hnt; [done|].
  exfalso. apply Hnot. by apply taint_tolerated_spec.
Qed.

Lemma find_schedulable_nodes_untolerated_witness :
  v1node_taints ex_tainted_node = Some [ex_taint]
  /\ ex_taint ∈ [ex_taint]
  /\ ~ tolerates [ex_toleration_v1; ex_toleration_v2] ex_taint
  /\ find_schedulable_nodes [ex_tainted_node] []
       (Some [ex_toleration_v1; ex_toleration_v2]) = [].
Proof.
  assert (Hnot : ~ tolerates [ex_toleration_v1; ex_toleration_v2] ex_taint).
  { intros (tol & Hlast & Hval). vm_compute in Hlast. injection Hlast as <-.
    specialize (Hval eq_refl). discriminate Hval. }
  split; [reflexivity|]. split; [by left|]. split; [exact Hnot|].
  exact (find_schedulable_nodes_untolerated ex_tainted_node [ex_taint] ex_taint
           [ex_toleration_v1; ex_toleration_v2] [] eq_refl ltac:(by left) Hnot).
Defined.

(** ** Resource accounting *)

Lemma used_fold_bound name (pods : list V1Pod) :
  forall used,
    fold_left
      (fun used pod =>
         if bool_decide (spec_node_name (spec pod) = Some name)
         then add3 used (get_pod_used_resources pod) else used)
      pods used
    = fold_left (fun used pod => add3 used (get_pod_used_resources pod))
        (filter (bound_to name) pods) used.
Proof.
  induction pods as [|pod pods IH]; intros used; cbn [fold_left]; [done|].
  rewrite filter_cons. unfold bound_to at 1.
  destruct (decide (spec_node_name (spec pod) = Some name)) as [Heq|Hne].
  - rewrite (bool_decide_eq_true_2 _ Heq). cbn [fold_left]. apply IH.
  - rewrite (bool_decide_eq_false_2 _ Hne). apply IH.
Qed.

(** X7: the free capacity of a node depends only on the pods bound to
    it: pods bound elsewhere or not bound at all can be left out of the
    pod list without changing the record. *)
Theorem node_free_resources_bound_pods (node : V1Node) (pods : list V1Pod) :
  node_free_resources node pods
  = node_free_resources node (filter (bound_to (v1node_name node)) pods).
Proof.
  unfold node_free_resources. rewrite !used_fold_bound.
  by rewrite list_filter_filter_l by done.
Qed.

Lemma terminated_fold (pairs : list (V1Container * V1ContainerStatus)) :
  Forall (fun p => state_terminated (snd p) = true) pairs ->
  forall used,
    fold_left
      (fun used '(container, container_status) =>
         if state_terminated container_status then used
         else add3 used (container_requests container))
      pairs used = used.
Proof.
  induction 1 as [|[c s] pairs Hs _ IH]; intros used; cbn [fold_left]; [done|].
  cbn in Hs. rewrite Hs. apply IH.
Qed.

Lemma zip_with_status_snd cs : forall ss p,
  p ∈ zip_with_status cs ss -> snd p ∈ ss.
Proof.
  induction cs as [|c cs IH]; intros [|s ss] p; cbn; try (intros H; by apply elem_of_nil in H).
  intros Hp. apply elem_of_cons in Hp as [->|Hp]; [by left|]. right. by apply IH.
Qed.

(** X8: a pod without status, without container statuses, or all of
    whose container statuses are terminated, uses nothing; bound to a
    node, it leaves the node's free capacity as it is. *)
Theorem get_pod_used_resources_terminated (pod : V1Pod) :
  (forall st statuses,
      status pod = Some st -> container_statuses st = Some statuses ->
      Forall (fun s => state_terminated s = true) statuses) ->
  get_pod_used_resources pod = (0%Q, 0%Q, 0).
Proof.
  intros Hterm. unfold get_pod_used_resources.
  destruct (status pod) as [st|]; [|done].
  destruct (container_statuses st) as [statuses|] eqn:Hst; [|done].
  apply terminated_fold. apply Forall_forall. intros p Hp.
  specialize (Hterm st statuses eq_refl Hst). rewrite Forall_forall in Hterm.
  apply Hterm. by eapply zip_with_status_snd.
Qed.

Lemma get_pod_used_resources_terminated_witness :
  (forall st statuses,
      status ex_finished_pod = Some st -> container_statuses st = Some statuses ->
      Forall (fun s => state_terminated s = true) statuses)
  /\ get_pod_used_resources ex_finished_pod = (0%Q, 0%Q, 0).
Proof.
  assert (Hterm : forall st statuses,
            status ex_finished_pod = Some st -> container_statuses st = Some statuses ->
            Forall (fun s => state_terminated s = true) statuses).
  { intros st statuses [= <-] [= <-]. by repeat constructor. }
  split; [exact Hterm|].
  exact (get_pod_used_resources_terminated ex_finished_pod Hterm).
Defined.

(** ** The committer *)

Lemma is_pod_id name namespace pod :
  is_pod name namespace pod = true <-> pod_id pod = (name, namespace).
Proof.
  unfold is_pod, pod_id. rewrite andb_true_iff, !bool_decide_eq_true.
  split; [by intros [-> ->]|by intros [= -> ->]].
Qed.

Lemma replace_first_ids name namespace pod store :
  pod_id pod = (name, namespace) ->
  map pod_id (replace_first name namespace pod store) = map pod_id store.
Proof.
  intros Hid. induction store as [|p store IH]; cbn; [done|].
  destruct (is_pod name namespace p) eqn:Hp; cbn.
  - apply is_pod_id in Hp. by rewrite Hid, Hp.
  - by rewrite IH.
Qed.


Lemma round_effect_refl P v1 : round_effect P v1 v1.
Proof.
  split; [done|]. split; [done|]. exists []. split; [by rewrite app_nil_r|constructor].
Qed.

Lemma round_effect_trans P v1 v2 v3 :
  round_effect P v1 v2 -> round_effect P v2 v3 -> round_effect P v1 v3.
Proof.
  intros (Hn1 & Hi1 & w1 & Hw1 & HP1) (Hn2 & Hi2 & w2 & Hw2 & HP2).
  split; [congruence|]. split; [congruence|].
  exists (w1 ++ w2). split; [by rewrite Hw2, Hw1, app_assoc|by apply Forall_app].
Qed.

(** What one call of the committer does to the API, in every case. *)
Lemma schedule_pod_on_node_cases v1 name namespace node gate :
  let r := schedule_pod_on_node name namespace node gate v1 in
  ((forall node', schedule_pod_on_node name namespace node' gate v1 = (Ok tt, v1))
   \/ (forall node', schedule_pod_on_node name namespace node' gate v1
                     = (Raise TypeError, v1)))
  \/ exists pod gates written,
       find (is_pod name namespace) (api_pods v1) = Some pod
       /\ scheduling_gates (spec pod) = Some gates
       /\ gate ∈ map gate_name gates
       /\ written
          = {| metadata := metadata pod;
               spec := {| containers := containers (spec pod);
                          node_selector := node_selector (spec pod);
                          tolerations := tolerations (spec pod);
                          scheduling_gates :=
                            Some (filter (fun g => gate_name g ≠ gate) gates);
                          spec_node_name := spec_node_name (spec pod);
                          affinity :=
                            Some {| match_key := hostname_label;
                                    match_operator := "In";
                                    match_values := [node_name node] |} |};
               status := status pod |}
       /\ r = (Ok tt,
               if replace_refused v1 then answered v1
               else
                 {| api_nodes := api_nodes v1;
                    api_pods := replace_first name namespace written (api_pods v1);
                    api_replaced := api_replaced v1 ++ [written];
                    api_replace_errors := tail (api_replace_errors v1) |}).
Proof.
  cbn zeta. unfold schedule_pod_on_node, try_except_api, mbind, read_namespaced_pod.
  destruct (find (is_pod name namespace) (api_pods v1)) as [pod|] eqn:Hfind; [|tauto].
  destruct (scheduling_gates (spec pod)) as [gates|] eqn:Hgates; [|cbn; tauto].
  destruct (existsb _ gates) eqn:Hex; [|cbn; tauto].
  right. exists pod, gates. eexists. split; [done|]. split; [done|].
  split; [by apply gate_present_spec|]. split; [reflexivity|].
  unfold replace_namespaced_pod. rewrite (find_existsb _ _ _ Hfind).
  by destruct (replace_refused v1).
Qed.

(** A refused replace is swallowed: the call returns normally, and
    neither the stored pods nor the record of writes change. *)
Lemma schedule_pod_on_node_refused v1 name namespace node gate pod gates :
  find (is_pod name namespace) (api_pods v1) = Some pod ->
  scheduling_gates (spec pod) = Some gates ->
  gate ∈ map gate_name gates ->
  replace_refused v1 = true ->
  schedule_pod_on_node name namespace node gate v1 = (Ok tt, answered v1).
Proof.
  intros Hfind Hgates Hin Hrefused. apply gate_present_spec in Hin.
  unfold schedule_pod_on_node, try_except_api, mbind, read_namespaced_pod.
  rewrite Hfind, Hgates, Hin. unfold replace_namespaced_pod. by rewrite Hrefused.
Qed.

Lemma round_effect_answered P v1 : round_effect P v1 (answered v1).
Proof.
  split; [done|]. split; [done|]. exists []. split; [by rewrite app_nil_r|constructor].
Qed.

(** X9: the committer raises nothing but TypeError, and that exactly
    when the pod read back has no gate list; a pod that is not found is
    passed over without an error.  It never changes the API state when it
    raises. *)
Theorem schedule_pod_on_node_errors
    (v1 : CoreV1Api) (name namespace : string) (node : NodeInfo) (gate : string) :
  (fst (schedule_pod_on_node name namespace node gate v1) = Ok tt
   \/ schedule_pod_on_node name namespace node gate v1 = (Raise TypeError, v1))
  /\ (schedule_pod_on_node name namespace node gate v1 = (Raise TypeError, v1)
      <-> exists pod, find (is_pod name namespace) (api_pods v1) = Some pod
                      /\ scheduling_gates (spec pod) = None)
  /\ (find (is_pod name namespace) (api_pods v1) = None ->
      schedule_pod_on_node name namespace node gate v1 = (Ok tt, v1)).
Proof.
  unfold schedule_pod_on_node, try_except_api, mbind, read_namespaced_pod.
  destruct (find (is_pod name namespace) (api_pods v1)) as [pod|] eqn:Hfind.
  - destruct (scheduling_gates (spec pod)) as [gates|] eqn:Hgates; cbn.
    + destruct (existsb _ gates); unfold replace_namespaced_pod;
        rewrite ?(find_existsb _ _ _ Hfind); try destruct (replace_refused v1); cbn.
      all: split; [by left|]; split; [|done].
      all: split; [done|]; intros (p & [= <-] & Hnone); congruence.
    + split; [by right|]. split; [|done]. split; [|done]. intros _. by exists pod.
  - cbn. split; [by left|]. split; [|done]. split; [done|]. by intros (p & [=] & _).
Qed.



(** After a refused replace the pod still carries the gate, and the
    next call writes it. *)
Lemma schedule_pod_on_node_retry :
  schedule_pod_on_node "p" "default" ex_rack1_node ex_gate
    (ex_api_refusing [true] [ex_three_gates])
  = (Ok tt, ex_api [ex_three_gates])
  /\ length (api_replaced
               (snd (schedule_pod_on_node "p" "default" ex_rack1_node ex_gate
                       (ex_api [ex_three_gates])))) = 1%nat.
Proof. split; reflexivity. Qed.

(** ** The scheduling round *)

Lemma sorted_insert_perm {A} (kx : pykey * A) (l : list (pykey * A)) :
  forall l', sorted_insert kx l = Ok l' -> l' ≡ₚ kx :: l.
Proof.
  induction l as [|ky rest IH]; cbn; intros l'.
  - by intros [= <-].
  - destruct (key_lt (fst ky) (fst kx)) as [[]| |]; cbn [obind]; try done.
    + destruct (sorted_insert kx rest) as [rest'| |]; cbn [obind]; try done.
      intros [= <-]. rewrite (IH rest' eq_refl). apply Permutation_swap.
    + by intros [= <-].
Qed.

Lemma sort_keyed_perm {A} (l : list (pykey * A)) :
  forall l', sort_keyed l = Ok l' -> l' ≡ₚ l.
Proof.
  induction l as [|kx rest IH]; cbn; intros l'.
  - by intros [= <-].
  - destruct (sort_keyed rest) as [rest'| |]; cbn [obind]; try done.
    intros Hins. rewrite (sorted_insert_perm _ _ _ Hins). f_equiv. by apply IH.
Qed.

Lemma mapM_keyed_snd {A} (key : A -> outcome pykey) (l : list A) :
  forall keyed,
    mapM (fun x => let* k := key x in Ok (k, x)) l = Ok keyed -> map snd keyed = l.
Proof.
  induction l as [|x l IH]; cbn; intros keyed.
  - by intros [= <-].
  - destruct (key x) as [k| |]; cbn [obind]; try done.
    destruct (mapM _ l) as [ys| |]; cbn [obind]; try done.
    intros [= <-]. cbn. by rewrite (IH ys eq_refl).
Qed.

(** Whenever [sorted] returns, it returns a permutation of its input. *)
Lemma sorted_perm {A} (l l' : list A) (key : A -> outcome pykey) :
  sorted l key = Ok l' -> l' ≡ₚ l.
Proof.
  unfold sorted.
  destruct (mapM _ l) as [keyed| |] eqn:Hkeyed; cbn [obind]; try done.
  destruct (sort_keyed keyed) as [s| |] eqn:Hs; cbn [obind]; try done.
  intros [= <-]. change (map snd s) with (snd <$> s).
  rewrite (sort_keyed_perm _ _ Hs). apply mapM_keyed_snd in Hkeyed.
  change (snd <$> keyed) with (map snd keyed). by rewrite Hkeyed.
Qed.

Lemma pods_fold_none gate pods :
  (forall pod, pod ∈ pods -> ~ carries_gate gate pod) ->
  forall d, fold_left (pods_step gate) pods d = d.
Proof.
  induction pods as [|pod pods IH]; intros Hnone d; cbn [fold_left]; [done|].
  unfold pods_step at 2.
  rewrite bool_decide_eq_false_2 by (apply Hnone; by left).
  apply IH. intros p Hp. apply Hnone. by right.
Qed.

(** X11: a round for a gate that no listed pod carries (in particular a
    round over an empty pod list) returns at once: nothing is read from
    or written to the API. *)
Theorem schedule_pod_with_gate_no_gated_pods
    (pods : list V1Pod) (gate : string) (v1 : CoreV1Api) :
  (forall pod, pod ∈ pods -> ~ carries_gate gate pod) ->
  schedule_pod_with_gate pods gate v1 = (Ok tt, v1).
Proof.
  intros Hnone. unfold schedule_pod_with_gate.
  rewrite find_schedulable_pods_fold, (pods_fold_none _ _ Hnone). reflexivity.
Qed.

Lemma schedule_pod_with_gate_no_gated_pods_witness :
  (forall pod, pod ∈ [ex_finished_pod] -> ~ carries_gate ex_gate pod)
  /\ schedule_pod_with_gate [ex_finished_pod] ex_gate (ex_api [ex_finished_pod])
     = (Ok tt, ex_api [ex_finished_pod]).
Proof.
  assert (Hnone : forall pod, pod ∈ [ex_finished_pod] -> ~ carries_gate ex_gate pod).
  { intros pod Hp Hc. apply list_elem_of_singleton in Hp as ->.
    by apply elem_of_nil in Hc. }
  split; [exact Hnone|].
  exact (schedule_pod_with_gate_no_gated_pods [ex_finished_pod] ex_gate _ Hnone).
Defined.

Section RoundEffect.
Variable nodes : list V1Node.
Variable pods : list V1Pod.
Variable gate : string.

Local Abbreviation effect := (round_effect (written_by_round nodes pods gate)).

(** The record stems from a listed pod that carries the gate. *)
Local Abbreviation listed :=
  (fun rec : PodRecord =>
     exists pod, pod ∈ pods /\ carries_gate gate pod
                 /\ (pod_name rec, pod_namespace rec) = pod_id pod).

(** The node record has the name of one of the nodes. *)
Local Abbreviation known :=
  (fun info : NodeInfo => exists node, node ∈ nodes /\ node_name info = v1node_name node).

Lemma mbind_effect {A B} (m : M A) (f : A -> M B) v1 :
  effect v1 (snd (m v1)) ->
  (forall a, fst (m v1) = Ok a -> effect (snd (m v1)) (snd (f a (snd (m v1))))) ->
  effect v1 (snd (mbind m f v1)).
Proof.
  intros Hm Hf. unfold mbind. destruct (m v1) as [[a|e|] v1'] eqn:Hrun; cbn in *;
    [|done..].
  eapply round_effect_trans; [exact Hm|]. by apply Hf.
Qed.

Lemma schedule_pod_on_node_effect v1 rec info :
  listed rec -> known info ->
  effect v1 (snd (schedule_pod_on_node (pod_name rec) (pod_namespace rec) info gate v1)).
Proof.
  intros (p & Hp & Hc & Hid) (node & Hnode & Hname).
  destruct (schedule_pod_on_node_cases v1 (pod_name rec) (pod_namespace rec) info gate)
    as [[Hr|Hr]|(pod & gates & written & Hfind & Hgates & Hin & Hw & Hr)].
  - rewrite (Hr info). apply round_effect_refl.
  - rewrite (Hr info). apply round_effect_refl.
  - rewrite Hr. cbn [snd]. destruct (replace_refused v1); [apply round_effect_answered|].
    assert (Hwid : pod_id written = (pod_name rec, pod_namespace rec)).
    { rewrite Hw. unfold pod_id. cbn. apply find_some in Hfind as [_ Hfound].
      by apply is_pod_id in Hfound. }
    split; [done|]. split; [by apply replace_first_ids|].
    exists [written]. split; [done|]. constructor; [|constructor].
    split; [exists p; by rewrite Hwid|]. split.
    + exists (filter (fun g => gate_name g ≠ gate) gates). split; [by rewrite Hw|].
      intros Hg. apply list_elem_of_fmap in Hg as (g & -> & Hg).
      by apply list_elem_of_filter in Hg as [Hne _].
    + exists node. split; [done|]. by rewrite Hw, Hname.
Qed.

Lemma getitem_elem {A} (l : list A) z x : getitem l z = Ok x -> x ∈ l.
Proof.
  unfold getitem. destruct (py_pos l z) as [k|]; cbn; [|done].
  destruct (l !! k) as [y|] eqn:Hy; [|done].
  intros [= <-]. by eapply list_elem_of_lookup_2.
Qed.

Lemma commit_loop_effect sorted_nodes best_assignment todo :
  Forall known sorted_nodes -> Forall listed todo ->
  forall i v1,
    effect v1 (snd (commit_loop sorted_nodes best_assignment gate i todo v1)).
Proof.
  intros Hnodes Htodo. induction Htodo as [|rec todo Hrec _ IH]; intros i v1;
    cbn [commit_loop]; [apply round_effect_refl|].
  apply mbind_effect; [apply round_effect_refl|]. intros k Hk.
  apply mbind_effect; [apply round_effect_refl|]. intros info Hinfo.
  cbn [lift snd fst] in *.
  apply mbind_effect.
  - apply schedule_pod_on_node_effect; [done|].
    rewrite Forall_forall in Hnodes. apply Hnodes. by eapply getitem_elem.
  - intros _ _. apply IH.
Qed.

Lemma find_schedulable_nodes_known node_pods tolerated_taints :
  Forall known (dict_values (find_schedulable_nodes nodes node_pods tolerated_taints)).
Proof.
  apply Forall_forall. intros info Hin. unfold dict_values in Hin.
  apply list_elem_of_fmap in Hin as ([name info'] & -> & Hin).
  destruct (nodes_loop_elem _ _ _ _ _ Hin) as [Hnil|(node & Hn & [= -> ->] & _)];
    [by apply elem_of_nil in Hnil|].
  exists node. split; [done|]. apply node_free_resources_name.
Qed.

Lemma schedule_job_effect node_pods job v1 :
  Forall listed job ->
  effect v1 (snd (schedule_job nodes node_pods gate job v1)).
Proof.
  intros Hjob. unfold schedule_job.
  apply mbind_effect; [apply round_effect_refl|]. intros _ _.
  apply mbind_effect; [apply round_effect_refl|]. intros tols _.
  apply mbind_effect; [apply round_effect_refl|]. intros sorted_pods Hpods.
  apply mbind_effect; [apply round_effect_refl|]. intros sorted_nodes Hnodes.
  apply mbind_effect; [apply round_effect_refl|]. intros best _.
  cbn [lift snd fst] in *.
  destruct best; [apply round_effect_refl|].
  apply commit_loop_effect.
  - rewrite (sorted_perm _ _ _ Hnodes). apply find_schedulable_nodes_known.
  - by rewrite (sorted_perm _ _ _ Hpods).
Qed.

Lemma jobs_loop_effect node_pods jobs :
  Forall (Forall listed) jobs ->
  forall v1, effect v1 (snd (jobs_loop nodes node_pods gate jobs v1)).
Proof.
  induction 1 as [|job jobs Hjob _ IH]; intros v1; cbn [jobs_loop];
    [apply round_effect_refl|].
  apply mbind_effect; [by apply schedule_job_effect|]. intros _ _. apply IH.
Qed.
End RoundEffect.

Lemma schedule_pod_with_gate_effect_core
    (pods : list V1Pod) (gate : string) (v1 : CoreV1Api) :
  round_effect (written_by_round (api_nodes v1) pods gate)
    v1 (snd (schedule_pod_with_gate pods gate v1)).
Proof.
  unfold schedule_pod_with_gate.
  apply mbind_effect; [apply round_effect_refl|]. intros sorted_jobs Hsorted.
  cbn [lift snd fst] in *. apply jobs_loop_effect.
  apply sorted_perm in Hsorted.
  rewrite Hsorted. apply Forall_forall. intros job Hjob.
  apply Forall_forall. intros rec Hrec.
  assert (Hin : rec ∈ dict_values (find_schedulable_pods pods gate)).
  { rewrite <- (groupby_concat pod_job_name (dict_values (find_schedulable_pods pods gate))).
    apply list_elem_of_In, in_concat. exists job. split; by apply list_elem_of_In. }
  unfold dict_values in Hin. apply list_elem_of_fmap in Hin as ([name rec'] & -> & Hin).
  rewrite find_schedulable_pods_fold in Hin.
  destruct (pods_fold_elem _ _ _ _ Hin) as [Hnil|(pod & Hp & Hc & [= -> ->])];
    [by apply elem_of_nil in Hnil|].
  exists pod. split; [done|]. split; [done|].
  unfold pod_id, pod_record. by destruct (fold_left _ (containers (spec pod)) _) as [[? ?] ?].
Qed.

(** X12: whatever a round does and however it ends, it leaves the node
    list and the identities of the stored pods alone, and every pod it
    writes has the name and namespace of a listed pod that carried the
    gate, has no gate of that name left, and is pinned by a hostname
    affinity to one of the nodes the API lists. *)
Theorem schedule_pod_with_gate_effect
    (pods : list V1Pod) (gate : string) (v1 : CoreV1Api) :
  round_effect (written_by_round (api_nodes v1) pods gate)
    v1 (snd (schedule_pod_with_gate pods gate v1)).
Proof. apply schedule_pod_with_gate_effect_core. Qed.

(** ** The control loop *)

Lemma list_pods_loop_spec names :
  forall acc v1,
    list_pods_loop names acc v1
    = (Ok (acc ++ concat (map (fun n => filter (fun pod => meta_namespace (metadata pod) = n)
                                          (api_pods v1)) names)), v1).
Proof.
  induction names as [|n names IH]; intros acc v1; cbn [list_pods_loop map concat].
  - unfold mret. by rewrite app_nil_r.
  - unfold mbind, list_namespaced_pod. rewrite IH. by rewrite <- app_assoc.
Qed.

(** Listing never fails, reads only, and yields pods of listed
    namespaces that are not ignored. *)
Lemma list_pods_spec namespaces ignored v1 :
  exists pods,
    list_pods namespaces ignored v1 = (Ok pods, v1)
    /\ forall pod, pod ∈ pods <->
         pod ∈ api_pods v1
         /\ meta_namespace (metadata pod) ∈ namespaces
         /\ meta_namespace (metadata pod) ∉ ignored.
Proof.
  unfold list_pods. rewrite list_pods_loop_spec. eexists. split; [reflexivity|].
  intros pod. cbn [app]. rewrite list_elem_of_In, in_concat. split.
  - intros (l & Hl & Hpod). apply in_map_iff in Hl as (n & <- & Hn).
    apply list_elem_of_In, list_elem_of_filter in Hn as [Hni Hn].
    apply list_elem_of_In, list_elem_of_filter in Hpod as [<- Hpod]. done.
  - intros (Hpod & Hn & Hni). eexists. split.
    + apply in_map_iff. exists (meta_namespace (metadata pod)). split; [reflexivity|].
      apply list_elem_of_In, list_elem_of_filter. done.
    + apply list_elem_of_In, list_elem_of_filter. done.
Qed.

Lemma round_effect_weaken (P Q : V1Pod -> Prop) v1 v1' :
  (forall w, P w -> Q w) -> round_effect P v1 v1' -> round_effect Q v1 v1'.
Proof.
  intros HPQ (Hn & Hi & written & Hw & HP). split; [done|]. split; [done|].
  exists written. split; [done|]. eapply Forall_impl; [exact HP|exact HPQ].
Qed.

Section LoopEffect.
Variable set_order : gset string -> list string.
Variable nodes : list V1Node.
Variable namespaces ignored : list string.
Variable prefix : string.
Variable interval : interval_arg.

Local Abbreviation loop_effect :=
  (round_effect (written_by_loop nodes namespaces ignored)).

Lemma round_loop_effect gate v1 pods :
  api_nodes v1 = nodes ->
  (forall pod, pod ∈ pods ->
     meta_namespace (metadata pod) ∈ namespaces
     /\ meta_namespace (metadata pod) ∉ ignored) ->
  loop_effect v1 (snd (schedule_pod_with_gate pods gate v1)).
Proof.
  intros Hnodes Hpods. eapply round_effect_weaken; [|apply schedule_pod_with_gate_effect_core].
  intros w ((pod & Hp & _ & Hid) & _ & Hpin). rewrite Hnodes in Hpin.
  destruct (Hpods pod Hp) as [Hin Hnot].
  assert (meta_namespace (metadata w) = meta_namespace (metadata pod)) as Heq
    by (unfold pod_id in Hid; congruence).
  unfold written_by_loop. by rewrite Heq.
Qed.

Lemma gates_loop_effect gates :
  forall v1, api_nodes v1 = nodes ->
    loop_effect v1 (snd (gates_loop namespaces ignored gates v1)).
Proof.
  induction gates as [|g gates IH]; intros v1 Hnodes; cbn [gates_loop];
    [apply round_effect_refl|].
  destruct (list_pods_spec namespaces ignored v1) as (pods & Hlist & Hpods).
  unfold mbind. rewrite Hlist.
  pose proof (round_loop_effect g v1 pods Hnodes
                ltac:(intros pod Hp; by apply Hpods in Hp as (_ & ? & ?))) as Hround.
  destruct (schedule_pod_with_gate pods g v1) as [[[]|e|] v1'] eqn:Hrun; cbn [snd] in *;
    [|done..].
  eapply round_effect_trans; [exact Hround|]. apply IH.
  destruct Hround as [Hn _]. congruence.
Qed.

Lemma scheduling_tick_effect v1 :
  api_nodes v1 = nodes ->
  loop_effect v1 (snd (scheduling_tick set_order namespaces ignored prefix interval v1)).
Proof.
  intros Hnodes. unfold scheduling_tick, mbind at 1, lift.
  destruct (interval_wait interval) as [[]|e|]; [|apply round_effect_refl..].
  unfold mbind.
  destruct (list_pods_spec namespaces ignored v1) as (pods & -> & _).
  case_bool_decide; [apply round_effect_refl|]. by apply gates_loop_effect.
Qed.

Lemma ticks_loop_effect ticks :
  forall v1, api_nodes v1 = nodes ->
    loop_effect v1
      (snd (ticks_loop set_order namespaces ignored prefix interval ticks v1)).
Proof.
  induction ticks as [|ticks IH]; intros v1 Hnodes; cbn [ticks_loop];
    [apply round_effect_refl|].
  pose proof (scheduling_tick_effect v1 Hnodes) as Htick. unfold mbind.
  destruct (scheduling_tick set_order namespaces ignored prefix interval v1)
    as [[[]|e|] v1'] eqn:Hrun; cbn [snd] in *; [|done..].
  eapply round_effect_trans; [exact Htick|]. apply IH.
  destruct Htick as [Hn _]. congruence.
Qed.
End LoopEffect.

(** X13: however many ticks the control loop runs and however it ends,
    it never changes the node list nor adds, removes or renames a stored
    pod, and every pod it writes lives in a listed namespace that is not
    ignored and is pinned by a hostname affinity to a listed node; pods
    of ignored namespaces are never written. *)
Theorem run_scheduling_loop_effect
    (set_order : gset string -> list string) (namespaces ignored : list string)
    (prefix : string) (interval : interval_arg) (ticks : nat) (v1 : CoreV1Api) :
  round_effect (written_by_loop (api_nodes v1) namespaces ignored)
    v1 (snd (run_scheduling_loop set_order namespaces ignored prefix interval ticks v1)).
Proof.
  unfold run_scheduling_loop, try_except_api.
  pose proof (ticks_loop_effect set_order (api_nodes v1) namespaces ignored prefix
                interval ticks v1 eq_refl) as Hloop.
  by destruct (ticks_loop set_order namespaces ignored prefix interval ticks v1)
    as [[[]|[]|] v1'].
Qed.




(** ** Sort keys of pods *)

Lemma is_ascii_digit_isdigit c : is_ascii_digit c = true -> isdigit c = true.
Proof. intros Hc. unfold isdigit. by rewrite Hc. Qed.

Lemma scan_suffix_digits_then (digits : list ascii) c rest :
  Forall (fun d => isdigit d = true) digits -> isdigit c = false ->
  forall suffix,
    scan_suffix (rev digits ++ c :: rest) suffix = Ok (digits ++ suffix).
Proof.
  intros Hdigits Hc. induction digits as [|d digits IH] using rev_ind; intros suffix.
  - cbn. by rewrite Hc.
  - apply Forall_app in Hdigits as [Hdigits Hd]. apply Forall_inv in Hd. cbn beta in Hd.
    rewrite rev_app_distr. cbn [rev app scan_suffix]. rewrite Hd.
    rewrite IH by done. by rewrite <- app_assoc.
Qed.

Lemma int_digits_decimal (digits : list ascii) :
  Forall (fun d => is_ascii_digit d = true) digits ->
  forall acc after,
    digits ≠ [] \/ after = true ->
    int_digits acc after digits
    = Some (fold_left (fun acc c => 10 * acc + (Z.of_nat (nat_of_ascii c) - 48)) digits acc).
Proof.
  induction 1 as [|d digits Hd _ IH]; intros acc after Hne; cbn.
  - destruct Hne as [Hne| ->]; done.
  - rewrite Hd. apply IH. by right.
Qed.

Lemma pod_sorting_key_split
    (pod : PodRecord) (prefix : list ascii) (c : ascii) (digits : list ascii) :
  pod_index pod = None ->
  list_ascii_of_string (pod_name pod) = prefix ++ c :: digits ->
  isdigit c = false ->
  Forall (fun d => is_ascii_digit d = true) digits ->
  pod_sorting_key pod
  = Ok (KTuple [AStr (string_of_list_ascii (prefix ++ [c])); AInt (decimal_value digits)]).
Proof.
  intros Hindex Hname Hc Hdigits. unfold pod_sorting_key. rewrite Hindex, Hname.
  rewrite rev_app_distr. cbn [rev]. rewrite <- app_assoc. cbn [app].
  rewrite scan_suffix_digits_then;
    [|eapply Forall_impl; [exact Hdigits|apply is_ascii_digit_isdigit]|done].
  cbn [obind]. rewrite app_nil_r.
  assert ((if bool_decide (digits ≠ []) then int digits else Ok 0)
          = Ok (decimal_value digits)) as ->.
  { case_bool_decide as Hne.
    - unfold int. by rewrite (int_digits_decimal _ Hdigits 0 false (or_introl Hne)).
    - destruct digits; [done|].
      first [discriminate Hne | (exfalso; by apply Hne)]. }
  cbn [obind]. do 4 f_equal.
  rewrite length_app. cbn [length]. replace (length prefix + S (length digits) - length digits)%nat
    with (length (prefix ++ [c])) by (rewrite length_app; cbn; lia).
  rewrite (app_assoc prefix [c] digits 
             : prefix ++ c :: digits = (prefix ++ [c]) ++ digits) at 1.
  by rewrite take_app_length.
Qed.

(** X15: for a pod without index whose name is a prefix that does not
    end in a digit followed by a run of ASCII digits, the sort key is
    the pair of that prefix and the number the digits denote (0 when
    there are none). *)
Theorem pod_sorting_key_splits_name
    (pod : PodRecord) (prefix : list ascii) (c : ascii) (digits : list ascii) :
  pod_index pod = None ->
  list_ascii_of_string (pod_name pod) = prefix ++ c :: digits ->
  isdigit c = false ->
  Forall (fun d => is_ascii_digit d = true) digits ->
  pod_sorting_key pod
  = Ok (KTuple [AStr (string_of_list_ascii (prefix ++ [c])); AInt (decimal_value digits)]).
Proof. apply pod_sorting_key_split. Qed.

Lemma pod_sorting_key_splits_name_witness :
  pod_index (ex_plain "foo-pod10" "job") = None
  /\ list_ascii_of_string (pod_name (ex_plain "foo-pod10" "job"))
     = list_ascii_of_string "foo-po" ++ "d"%char :: list_ascii_of_string "10"
  /\ pod_sorting_key (ex_plain "foo-pod10" "job")
     = Ok (KTuple [AStr "foo-pod"; AInt 10]).
Proof.
  split; [reflexivity|]. split; [reflexivity|].
  exact (pod_sorting_key_splits_name (ex_plain "foo-pod10" "job")
           (list_ascii_of_string "foo-po") "d"%char (list_ascii_of_string "10")
           eq_refl eq_refl eq_refl ltac:(by repeat constructor)).
Defined.

Lemma tuple_lt_irrefl t : tuple_lt t t = Ok false.
Proof. induction t as [|x t IH]; cbn; [done|]. by case_decide. Qed.

(** X16: two pods without index whose names share the prefix are
    ordered by the numbers that follow it, not by the digit strings:
    "pod2" comes before "pod10". *)
Theorem pod_sorting_key_numeric_order
    (pod1 pod2 : PodRecord) (prefix : list ascii) (c : ascii) (digits1 digits2 : list ascii) :
  pod_index pod1 = None -> pod_index pod2 = None ->
  list_ascii_of_string (pod_name pod1) = prefix ++ c :: digits1 ->
  list_ascii_of_string (pod_name pod2) = prefix ++ c :: digits2 ->
  isdigit c = false ->
  Forall (fun d => is_ascii_digit d = true) digits1 ->
  Forall (fun d => is_ascii_digit d = true) digits2 ->
  exists k1 k2,
    pod_sorting_key pod1 = Ok k1 /\ pod_sorting_key pod2 = Ok k2
    /\ key_lt k1 k2 = Ok (decimal_value digits1 <? decimal_value digits2).
Proof.
  intros Hi1 Hi2 Hn1 Hn2 Hc Hd1 Hd2.
  pose proof (pod_sorting_key_split pod1 prefix c digits1 Hi1 Hn1 Hc Hd1) as Hk1.
  pose proof (pod_sorting_key_split pod2 prefix c digits2 Hi2 Hn2 Hc Hd2) as Hk2.
  eexists _, _. split; [exact Hk1|]. split; [exact Hk2|].
  cbn. rewrite decide_True by done.
  destruct (decide (AInt (decimal_value digits1) = AInt (decimal_value digits2)))
    as [[= ->]|Hne]; cbn; [by rewrite Z.ltb_irrefl|done].
Qed.

Lemma pod_sorting_key_numeric_order_witness :
  exists k1 k2,
    pod_sorting_key (ex_plain "foo-pod2" "job") = Ok k1
    /\ pod_sorting_key (ex_plain "foo-pod10" "job") = Ok k2
    /\ key_lt k1 k2 = Ok true.
Proof.
  exact (pod_sorting_key_numeric_order
           (ex_plain "foo-pod2" "job") (ex_plain "foo-pod10" "job")
           (list_ascii_of_string "foo-po") "d"%char
           (list_ascii_of_string "2") (list_ascii_of_string "10")
           eq_refl eq_refl eq_refl eq_refl eq_refl
           ltac:(by repeat constructor) ltac:(by repeat constructor)).
Defined.

(** ** Sorting *)

Lemma key_lt_outcomes k1 k2 :
  (exists b, key_lt k1 k2 = Ok b) \/ key_lt k1 k2 = Raise TypeError.
Proof.
  destruct k1 as [|z1|t1], k2 as [|z2|t2]; cbn; eauto.
  revert t2. induction t1 as [|x t1 IH]; intros [|y t2]; cbn; eauto.
  case_decide; [apply IH|]. destruct x, y; cbn; eauto.
Qed.

Lemma key_lt_same_kind k1 k2 b :
  key_lt k1 k2 = Ok b ->
  (exists z1 z2, k1 = KInt z1 /\ k2 = KInt z2)
  \/ (exists t1 t2, k1 = KTuple t1 /\ k2 = KTuple t2).
Proof. destruct k1, k2; cbn; intros; simplify_eq; eauto. Qed.

Lemma key_lt_irrefl k b : key_lt k k = Ok b -> b = false.
Proof.
  destruct k as [|z|t]; cbn; [done| |].
  - intros [= <-]. apply Z.ltb_irrefl.
  - rewrite tuple_lt_irrefl. by intros [= <-].
Qed.

Lemma sorted_insert_outcomes {A} (kx : pykey * A) l :
  (exists l', sorted_insert kx l = Ok l') \/ sorted_insert kx l = Raise TypeError.
Proof.
  induction l as [|ky rest IH]; cbn; [eauto|].
  destruct (key_lt_outcomes (fst ky) (fst kx)) as [[[] ->]| ->]; cbn [obind]; eauto.
  destruct IH as [[l' ->]| ->]; cbn [obind]; eauto.
Qed.

Lemma sort_keyed_outcomes {A} (l : list (pykey * A)) :
  (exists l', sort_keyed l = Ok l') \/ sort_keyed l = Raise TypeError.
Proof.
  induction l as [|kx rest IH]; cbn; [eauto|].
  destruct IH as [[rest' ->]| ->]; cbn [obind]; [|eauto].
  apply sorted_insert_outcomes.
Qed.

(** A sort that returns has compared keys of one kind only. *)
Lemma sort_keyed_one_kind {A} (l : list (pykey * A)) :
  forall l', sort_keyed l = Ok l' ->
    (length l <= 1)%nat \/ all_ints l \/ all_tuples l.
Proof.
  induction l as [|kx rest IH]; cbn; intros l'; [left; lia|].
  destruct (sort_keyed rest) as [rest'| |] eqn:Hrest; cbn [obind]; try done.
  specialize (IH rest' eq_refl). pose proof (sort_keyed_perm _ _ Hrest) as Hperm.
  destruct rest' as [|ky rest'']; cbn.
  - apply Permutation_nil_l in Hperm as <-. intros _. left. cbn. lia.
  - destruct (key_lt (fst ky) (fst kx)) as [b| |] eqn:Hlt; cbn [obind]; try done.
    intros _. right.
    assert (Hky : ky ∈ rest) by (rewrite <- Hperm; by left).
    assert (Hone : (length rest <= 1)%nat -> rest = [ky]).
    { intros Hlen. destruct rest as [|r [|r' rest]]; cbn in Hlen; try lia.
      - by apply elem_of_nil in Hky.
      - by apply list_elem_of_singleton in Hky as ->. }
    destruct (key_lt_same_kind _ _ _ Hlt) as [(z1 & z2 & Hk1 & Hk2)|(t1 & t2 & Hk1 & Hk2)].
    + left. constructor; [by exists z2|].
      destruct IH as [Hlen|[Hints|Htuples]]; [| done |].
      * rewrite (Hone Hlen). constructor; [by exists z1|constructor].
      * unfold all_tuples in Htuples. rewrite Forall_forall in Htuples.
        destruct (Htuples ky Hky) as [t Ht]. congruence.
    + right. constructor; [by exists t2|].
      destruct IH as [Hlen|[Hints|Htuples]]; [| | done].
      * rewrite (Hone Hlen). constructor; [by exists t1|constructor].
      * unfold all_ints in Hints. rewrite Forall_forall in Hints.
        destruct (Hints ky Hky) as [z Hz]. congruence.
Qed.

Lemma mapM_keyed_keys {A} (keyf : A -> outcome pykey) (l : list A) :
  forall keyed,
    mapM (fun x => let* k := keyf x in Ok (k, x)) l = Ok keyed ->
    Forall (fun p => keyf (snd p) = Ok (fst p)) keyed.
Proof.
  induction l as [|x l IH]; cbn; intros keyed.
  - intros [= <-]. constructor.
  - destruct (keyf x) as [k| |] eqn:Hk; cbn [obind]; try done.
    destruct (mapM _ l) as [ys| |]; cbn [obind]; try done.
    intros [= <-]. constructor; [done|]. by apply IH.
Qed.

Lemma mapM_keyed_total {A} (keyf : A -> outcome pykey) (l : list A) :
  Forall (fun x => exists k, keyf x = Ok k) l ->
  exists keyed, mapM (fun x => let* k := keyf x in Ok (k, x)) l = Ok keyed.
Proof.
  induction 1 as [|x l [k Hk] _ [keyed IH]]; cbn; [eauto|].
  rewrite Hk. cbn [obind]. rewrite IH. cbn [obind]. eauto.
Qed.

(** Sorting elements whose keys are of two kinds, or two or more
    elements one of whose keys is [None], is a TypeError. *)
Lemma sorted_type_error {A} (keyf : A -> outcome pykey) (l : list A) x y :
  Forall (fun x => exists k, keyf x = Ok k) l ->
  (2 <= length l)%nat -> x ∈ l -> y ∈ l ->
  (forall z, keyf x ≠ Ok (KInt z)) -> (forall t, keyf y ≠ Ok (KTuple t)) ->
  sorted l keyf = Raise TypeError.
Proof.
  intros Hkeys Hlen Hx Hy Hnoint Hnotuple. unfold sorted.
  destruct (mapM_keyed_total keyf l Hkeys) as [keyed Hkeyed]. rewrite Hkeyed. cbn [obind].
  pose proof (mapM_keyed_snd _ _ _ Hkeyed) as Hsnd.
  pose proof (mapM_keyed_keys _ _ _ Hkeyed) as Hfst. rewrite Forall_forall in Hfst.
  destruct (sort_keyed_outcomes keyed) as [[s Hs]| ->]; [|done]. exfalso.
  assert (Hin : forall u, u ∈ l -> exists p, p ∈ keyed /\ snd p = u).
  { intros u Hu. rewrite <- Hsnd in Hu. apply list_elem_of_fmap in Hu as (p & -> & Hp).
    by exists p. }
  destruct (sort_keyed_one_kind _ _ Hs) as [Hone|[Hints|Htuples]].
  - rewrite <- Hsnd, length_map in Hlen. lia.
  - destruct (Hin y Hy) as (p & Hp & <-).
    unfold all_ints in Hints. rewrite Forall_forall in Hints.
    destruct (Hints p Hp) as [z Hz]. destruct (Hin x Hx) as (q & Hq & <-).
    destruct (Hints q Hq) as [z' Hz']. apply (Hnoint z'). by rewrite (Hfst q Hq), Hz'.
  - destruct (Hin y Hy) as (p & Hp & <-).
    unfold all_tuples in Htuples. rewrite Forall_forall in Htuples.
    destruct (Htuples p Hp) as [t Ht]. apply (Hnotuple t). by rewrite (Hfst p Hp), Ht.
Qed.

Lemma scan_suffix_outcomes remaining :
  forall suffix,
    (exists s, scan_suffix remaining suffix = Ok s)
    \/ scan_suffix remaining suffix = Raise IndexError.
Proof.
  induction remaining as [|c remaining IH]; intros suffix; cbn; [by right|].
  destruct (isdigit c); [apply IH|]. left. by exists suffix.
Qed.

(** A key is computed, or the index is not a number (ValueError), or
    the name consists of digits (IndexError) or ends in digits that are
    not a number (ValueError). *)
Lemma pod_sorting_key_outcomes (pod : PodRecord) :
  (exists k, pod_sorting_key pod = Ok k)
  \/ pod_sorting_key pod = Raise ValueError
  \/ pod_sorting_key pod = Raise IndexError.
Proof.
  unfold pod_sorting_key. destruct (pod_index pod) as [index|].
  - unfold int. destruct (int_digits 0 false _); cbn [obind]; eauto.
  - destruct (scan_suffix_outcomes (rev (list_ascii_of_string (pod_name pod))) [])
      as [[s ->]| ->]; cbn [obind]; [|auto].
    case_bool_decide; cbn [obind]; [|eauto].
    unfold int. destruct (int_digits 0 false s); cbn [obind]; eauto.
Qed.

(** The keys are computed in list order: the first that fails decides. *)
Lemma sorted_first_key_error {A} (keyf : A -> outcome pykey) (pre : list A) x rest e :
  Forall (fun x => exists k, keyf x = Ok k) pre ->
  keyf x = Raise e ->
  sorted (pre ++ x :: rest) keyf = Raise e.
Proof.
  intros Hpre Hx. unfold sorted.
  assert (mapM (fun x => let* k := keyf x in Ok (k, x)) (pre ++ x :: rest) = Raise e)
    as ->; [|done].
  induction Hpre as [|y pre [k Hk] _ IH]; cbn [app mapM].
  - by rewrite Hx.
  - rewrite Hk. cbn [obind]. by rewrite IH.
Qed.

Lemma keys_computed_or_not {A} (keyf : A -> outcome pykey) (l : list A) :
  (forall x, (exists k, keyf x = Ok k) \/ exists e, keyf x = Raise e) ->
  Forall (fun x => exists k, keyf x = Ok k) l
  \/ exists pre x rest e,
       l = pre ++ x :: rest
       /\ Forall (fun x => exists k, keyf x = Ok k) pre /\ keyf x = Raise e.
Proof.
  intros Hkeyf. induction l as [|x l IH]; [left; constructor|].
  destruct (Hkeyf x) as [Hx|[e Hx]].
  - destruct IH as [Hl|(pre & y & rest & e & -> & Hpre & Hy)].
    + left. by constructor.
    + right. exists (x :: pre), y, rest, e. split; [done|]. split; [by constructor|done].
  - right. exists [], x, l, e. split; [done|]. split; [constructor|done].
Qed.

(** X17: a job in which one pod carries a completion index and another
    does not cannot be sorted, so [sorted] never returns for it: when
    every key can be computed it raises TypeError, because an integer is
    compared with a pair; otherwise it raises the error of the first pod
    whose key cannot be computed, a ValueError or an IndexError. *)
Theorem sorted_pods_mixed_index
    (job : list PodRecord) (indexed plain : PodRecord) :
  indexed ∈ job -> plain ∈ job ->
  pod_index indexed ≠ None -> pod_index plain = None ->
  (exists e, sorted job pod_sorting_key = Raise e
             /\ (e = TypeError \/ e = ValueError \/ e = IndexError))
  /\ (Forall (fun pod => exists k, pod_sorting_key pod = Ok k) job ->
      sorted job pod_sorting_key = Raise TypeError)
  /\ (forall pre pod rest e,
        job = pre ++ pod :: rest ->
        Forall (fun pod => exists k, pod_sorting_key pod = Ok k) pre ->
        pod_sorting_key pod = Raise e ->
        sorted job pod_sorting_key = Raise e).
Proof.
  intros Hi Hp Hindexed Hplain.
  assert (Hcomputed : Forall (fun pod => exists k, pod_sorting_key pod = Ok k) job ->
                      sorted job pod_sorting_key = Raise TypeError).
  { intros Hkeys.
    assert (Hlen : (2 <= length job)%nat).
    { destruct job as [|a [|b job]]; cbn; [by apply elem_of_nil in Hi| |lia].
      apply list_elem_of_singleton in Hi as ->. apply list_elem_of_singleton in Hp as ->.
      done. }
    apply (sorted_type_error pod_sorting_key job plain indexed); try done.
    - intros z. unfold pod_sorting_key. rewrite Hplain.
      destruct (scan_suffix _ _); cbn [obind]; try done.
      by destruct (if bool_decide _ then _ else _).
    - intros t. unfold pod_sorting_key.
      destruct (pod_index indexed); [|done]. by destruct (int _). }
  split; [|split; [exact Hcomputed|]].
  - destruct (keys_computed_or_not pod_sorting_key job)
      as [Hkeys|(pre & pod & rest & e & -> & Hpre & Hpod)].
    + intros pod. destruct (pod_sorting_key_outcomes pod) as [?|[->| ->]]; eauto.
    + exists TypeError. split; [by apply Hcomputed|by left].
    + exists e. split; [by apply sorted_first_key_error|].
      destruct (pod_sorting_key_outcomes pod) as [[k Hk]|[Hv|Hx]]; right.
      * congruence.
      * left. congruence.
      * right. congruence.
  - intros pre pod rest e -> Hpre Hpod. by apply sorted_first_key_error.
Qed.

Lemma sorted_pods_mixed_index_witness :
  sorted [ex_indexed_pod; ex_plain "job-1" "job"] pod_sorting_key = Raise TypeError
  /\ sorted [ex_indexed_pod; ex_plain "123" "job"] pod_sorting_key = Raise IndexError.
Proof.
  assert (Hindexed : pod_index ex_indexed_pod ≠ None) by (vm_compute; congruence).
  split.
  - destruct (sorted_pods_mixed_index [ex_indexed_pod; ex_plain "job-1" "job"]
                ex_indexed_pod (ex_plain "job-1" "job")
                ltac:(by left) ltac:(right; by left) Hindexed eq_refl)
      as (_ & Hcomputed & _).
    apply Hcomputed. repeat constructor; eexists; vm_compute; reflexivity.
  - destruct (sorted_pods_mixed_index [ex_indexed_pod; ex_plain "123" "job"]
                ex_indexed_pod (ex_plain "123" "job")
                ltac:(by left) ltac:(right; by left) Hindexed eq_refl)
      as (_ & _ & Hfirst).
    apply (Hfirst [ex_indexed_pod] (ex_plain "123" "job") []); [reflexivity| |reflexivity].
    repeat constructor; eexists; vm_compute; reflexivity.
Defined.

(** X18: two or more jobs cannot be ordered when the first pod of one of
    them has no creation timestamp: [sorted] raises TypeError, whatever
    the other timestamps are. *)
Theorem sorted_jobs_missing_time (jobs : list (list PodRecord)) (job : list PodRecord) :
  Forall (fun job => job ≠ []) jobs ->
  (2 <= length jobs)%nat -> job ∈ jobs ->
  head job ≫= pod_creation_time = None ->
  sorted jobs sort_jobs_by_time = Raise TypeError.
Proof.
  intros Hne Hlen Hjob Htime.
  assert (Hkey : sort_jobs_by_time job = Ok KNone).
  { rewrite Forall_forall in Hne. specialize (Hne job Hjob).
    destruct job as [|pod rest]; [done|]. cbn in Htime. unfold sort_jobs_by_time.
    assert (getitem (pod :: rest) 0 = Ok pod) as -> by reflexivity.
    cbn. by rewrite Htime. }
  apply (sorted_type_error sort_jobs_by_time jobs job job); try done.
  - eapply Forall_impl; [exact Hne|]. intros [|pod rest] Hj; [done|].
    unfold sort_jobs_by_time.
    assert (getitem (pod :: rest) 0 = Ok pod) as -> by reflexivity.
    cbn. eauto.
  - intros z. by rewrite Hkey.
  - intros t. by rewrite Hkey.
Qed.

Lemma sorted_jobs_missing_time_witness :
  Forall (fun job => job ≠ []) [[ex_plain "a-0" "a"]; [pod_record ex_untimed_pod]]
  /\ head [pod_record ex_untimed_pod] ≫= pod_creation_time = None
  /\ sorted [[ex_plain "a-0" "a"]; [pod_record ex_untimed_pod]] sort_jobs_by_time
     = Raise TypeError.
Proof.
  assert (Hne : Forall (fun job : list PodRecord => job ≠ [])
                  [[ex_plain "a-0" "a"]; [pod_record ex_untimed_pod]])
    by (by repeat constructor).
  split; [exact Hne|]. split; [reflexivity|].
  exact (sorted_jobs_missing_time [[ex_plain "a-0" "a"]; [pod_record ex_untimed_pod]]
           [pod_record ex_untimed_pod] Hne ltac:(cbn; lia) ltac:(right; by left) eq_refl).
Defined.

Lemma sorted_insert_filter {A} (k : pykey) (kx : pykey * A) l :
  forall l',
    sorted_insert kx l = Ok l' ->
    filter (fun p => fst p = k) l' = filter (fun p => fst p = k) (kx :: l).
Proof.
  induction l as [|ky rest IH]; cbn [sorted_insert]; intros l'.
  - by intros [= <-].
  - destruct (key_lt (fst ky) (fst kx)) as [[]| |] eqn:Hlt; cbn [obind]; try done.
    + destruct (sorted_insert kx rest) as [rest'| |]; cbn [obind]; try done.
      intros [= <-]. specialize (IH rest' eq_refl).
      rewrite (filter_cons _ kx rest) in IH.
      rewrite (filter_cons _ ky rest'), (filter_cons _ kx (ky :: rest)),
        (filter_cons _ ky rest), IH.
      destruct (decide (fst ky = k)) as [Hky|Hky];
        destruct (decide (fst kx = k)) as [Hkx|Hkx]; try done.
      rewrite Hky, Hkx in Hlt. by apply key_lt_irrefl in Hlt.
    + by intros [= <-].
Qed.

Lemma sort_keyed_filter {A} (k : pykey) (l : list (pykey * A)) :
  forall l',
    sort_keyed l = Ok l' ->
    filter (fun p => fst p = k) l' = filter (fun p => fst p = k) l.
Proof.
  induction l as [|kx rest IH]; cbn [sort_keyed]; intros l'.
  - by intros [= <-].
  - destruct (sort_keyed rest) as [rest'| |]; cbn [obind]; try done.
    intros Hins. rewrite (sorted_insert_filter k _ _ _ Hins).
    rewrite !filter_cons. rewrite (IH rest' eq_refl). done.
Qed.

(** X19: [sorted] is stable: elements with the same key leave it in the
    order in which they came, so jobs created at the same time keep the
    order of the grouping and nodes with equal topology keys the order of
    the node dictionary. *)
Theorem sorted_stable {A} (l l' : list A) (keyf : A -> outcome pykey) (k : pykey) :
  sorted l keyf = Ok l' ->
  filter (fun x => keyf x = Ok k) l' = filter (fun x => keyf x = Ok k) l.
Proof.
  unfold sorted.
  destruct (mapM _ l) as [keyed| |] eqn:Hkeyed; cbn [obind]; try done.
  destruct (sort_keyed keyed) as [s| |] eqn:Hs; cbn [obind]; try done.
  intros [= <-].
  pose proof (mapM_keyed_keys _ _ _ Hkeyed) as Hkeys.
  pose proof (mapM_keyed_snd _ _ _ Hkeyed) as Hsnd.
  pose proof (sort_keyed_filter k _ _ Hs) as Hfilter.
  assert (Hskeys : Forall (fun p => keyf (snd p) = Ok (fst p)) s).
  { rewrite (sort_keyed_perm _ _ Hs). exact Hkeys. }
  assert (Hmap : forall m : list (pykey * A),
            Forall (fun p => keyf (snd p) = Ok (fst p)) m ->
            filter (fun x => keyf x = Ok k) (map snd m)
            = map snd (filter (fun p => fst p = k) m)).
  { induction 1 as [|p m Hp _ IH]; [done|]. cbn [map]. rewrite !filter_cons, IH.
    destruct (decide (fst p = k)) as [Hk|Hk].
    - rewrite decide_True by (by rewrite Hp, Hk). done.
    - rewrite decide_False by (rewrite Hp; congruence). done. }
  rewrite (Hmap s Hskeys), Hfilter, <- (Hmap keyed Hkeys). by rewrite Hsnd.
Qed.

Lemma sorted_stable_witness :
  sorted [ex_rack2_node; ex_rack1_node; ex_rack2_twin] node_sorting_key
  = Ok [ex_rack1_node; ex_rack2_node; ex_rack2_twin]
  /\ filter (fun x => node_sorting_key x
                      = Ok (KTuple (map AStr (node_topology_key ex_rack2_node))))
       [ex_rack1_node; ex_rack2_node; ex_rack2_twin]
     = filter (fun x => node_sorting_key x
                        = Ok (KTuple (map AStr (node_topology_key ex_rack2_node))))
         [ex_rack2_node; ex_rack1_node; ex_rack2_twin].
Proof.
  assert (Hrun : sorted [ex_rack2_node; ex_rack1_node; ex_rack2_twin] node_sorting_key
                 = Ok [ex_rack1_node; ex_rack2_node; ex_rack2_twin])
    by (vm_compute; reflexivity).
  split; [exact Hrun|].
  exact (sorted_stable _ _ node_sorting_key
           (KTuple (map AStr (node_topology_key ex_rack2_node))) Hrun).
Defined.

(** X20: sorting node records by topology key never fails, and returns
    a permutation of them in which no node has a smaller key than a node
    before it; nodes without a full set of labels, whose key is the
    empty tuple, come first. *)
Theorem sorted_nodes_by_topology_key (nodes : list NodeInfo) :
  exists sorted_nodes,
    sorted nodes node_sorting_key = Ok sorted_nodes
    /\ StronglySorted topology_le sorted_nodes
    /\ sorted_nodes ≡ₚ nodes
    /\ (forall node1 node2,
          node_topology_key node1 = [] -> topology_le node1 node2).
Proof.
  destruct (sorted_by_topology_key nodes) as (sorted_nodes & Hrun & Hsorted & Hperm).
  exists sorted_nodes. repeat (split; [done|]).
  intros node1 node2 Hempty. unfold topology_le. rewrite Hempty.
  by destruct (map AStr (node_topology_key node2)).
Qed.

(** ** The assignment search at its edges *)

(** X21: with no pods the search does not return an empty assignment:
    the inner loop is skipped and [assignment[-1]] on the empty list
    raises IndexError, whatever the nodes are. *)
Theorem calculate_pods_assignment_no_pods (sorted_nodes : list NodeInfo) :
  calculate_pods_assignment sorted_nodes [] = Raise IndexError.
Proof.
  unfold calculate_pods_assignment. rewrite Nat.add_comm. reflexivity.
Qed.

Lemma feasible_entries_ge sorted_nodes sorted_pods a :
  feasible_assignment sorted_nodes sorted_pods a ->
  forall (j : nat) v, a !! j = Some v -> Z.of_nat j <= v.
Proof.
  intros (Hlen & Hinc & Hplaced). induction j as [|j IH]; intros v Hv.
  - assert (Hj : (0 < length sorted_pods)%nat)
      by (rewrite <- Hlen; by apply lookup_lt_Some in Hv).
    destruct (Hplaced _ Hj) as (v' & ? & ? & Hv' & ? & _).
    assert (v' = v) as -> by congruence. cbn. lia.
  - assert (Hj : (j < length a)%nat) by (apply lookup_lt_Some in Hv; lia).
    apply lookup_lt_is_Some in Hj as [x Hx].
    specialize (IH x Hx). specialize (Hinc j x v Hx Hv). lia.
Qed.

(** X22: with fewer nodes than pods the search can only return the
    empty assignment: an assignment gives the pods distinct nodes. *)
Theorem calculate_pods_assignment_too_few_nodes
    (sorted_nodes : list NodeInfo) (sorted_pods : list PodRecord) (a : list Z) :
  (length sorted_nodes < length sorted_pods)%nat ->
  calculate_pods_assignment sorted_nodes sorted_pods = Ok a ->
  a = [].
Proof.
  intros Hfew Hrun.
  destruct (calculate_pods_assignment_sound _ _ _ Hrun) as [->|Hfeasible]; [done|].
  exfalso. pose proof (feasible_entries_ge _ _ _ Hfeasible) as Hge.
  destruct Hfeasible as (Hlen & _ & Hplaced).
  assert (Hlast : (length sorted_pods - 1 < length sorted_pods)%nat) by lia.
  destruct (Hplaced _ Hlast) as (v & node & pod & Hv & H0 & Hnode & _).
  apply Hge in Hv. apply lookup_lt_Some in Hnode. lia.
Qed.

Lemma calculate_pods_assignment_too_few_nodes_witness :
  (length [ex_rack1_node] < length [ex_plain "a-0" "a"; ex_plain "a-1" "a"])%nat
  /\ calculate_pods_assignment [ex_rack1_node] [ex_plain "a-0" "a"; ex_plain "a-1" "a"]
     = Ok [].
Proof.
  assert (Hfew : (length [ex_rack1_node]
                  < length [ex_plain "a-0" "a"; ex_plain "a-1" "a"])%nat)
    by (cbn; lia).
  split; [exact Hfew|].
  destruct (calculate_pods_assignment [ex_rack1_node]
              [ex_plain "a-0" "a"; ex_plain "a-1" "a"]) as [a| |] eqn:Hrun.
  - by rewrite (calculate_pods_assignment_too_few_nodes _ _ a Hfew Hrun).
  - vm_compute in Hrun. discriminate Hrun.
  - vm_compute in Hrun. discriminate Hrun.
Defined.

(** X23: when one pod of the job fits on none of the nodes, the search
    can only return the empty assignment; no pod of the job is placed. *)
Theorem calculate_pods_assignment_unschedulable_pod
    (sorted_nodes : list NodeInfo) (sorted_pods : list PodRecord)
    (pod : PodRecord) (a : list Z) :
  pod ∈ sorted_pods ->
  (forall node, node ∈ sorted_nodes -> can_schedule node pod = false) ->
  calculate_pods_assignment sorted_nodes sorted_pods = Ok a ->
  a = [].
Proof.
  intros Hpod Hnone Hrun.
  destruct (calculate_pods_assignment_sound _ _ _ Hrun) as [->|Hfeasible]; [done|].
  exfalso. destruct Hfeasible as (_ & _ & Hplaced).
  apply list_elem_of_lookup in Hpod as [j Hj].
  destruct (Hplaced j (lookup_lt_Some _ _ _ Hj)) as (v & node & pod' & _ & _ & Hnode & Hpod' & Hfit).
  assert (pod' = pod) as -> by congruence.
  rewrite (Hnone node) in Hfit; [done|]. by eapply list_elem_of_lookup_2.
Qed.

Lemma calculate_pods_assignment_unschedulable_pod_witness :
  (forall node, node ∈ ex1_nodes -> can_schedule node ex_unplaceable = false)
  /\ calculate_pods_assignment ex1_nodes [ex_plain "a-0" "a"; ex_unplaceable] = Ok [].
Proof.
  assert (Hnone : forall node, node ∈ ex1_nodes -> can_schedule node ex_unplaceable = false).
  { intros node Hnode. unfold ex1_nodes in Hnode.
    repeat (apply elem_of_cons in Hnode as [->|Hnode]; [vm_compute; reflexivity|]).
    by apply elem_of_nil in Hnode. }
  split; [exact Hnone|].
  destruct (calculate_pods_assignment ex1_nodes [ex_plain "a-0" "a"; ex_unplaceable])
    as [a| |] eqn:Hrun.
  - by rewrite (calculate_pods_assignment_unschedulable_pod _ _ ex_unplaceable a
                  ltac:(right; by left) Hnone Hrun).
  - vm_compute in Hrun. discriminate Hrun.
  - vm_compute in Hrun. discriminate Hrun.
Defined.

Section SinglePod.
Variable pod : PodRecord.

Lemma inner_body_single (sorted_nodes : list NodeInfo) (v : Z) :
  -1 <= v ->
  inner_body sorted_nodes [pod] ([v], 0, true)
  = if v + 1 =? len sorted_nodes then Ok (Break ([v + 1], 0, true))
    else
      let* node := getitem sorted_nodes (v + 1) in
      if can_schedule node pod then Ok (Continue ([v + 1], -1, true))
      else Ok (Continue ([v + 1], 0, true)).
Proof.
  intros Hv. unfold inner_body.
  change (getitem [v] 0) with (Ok v). cbn [obind].
  change (setitem [v] 0 (v + 1)) with [v + 1].
  change (getitem [v + 1] 0) with (Ok (v + 1)). cbn [obind].
  destruct (v + 1 =? len sorted_nodes); [done|].
  assert ((0 <=? v + 1) = true) as -> by lia.
  destruct (getitem sorted_nodes (v + 1)) as [node| |]; cbn [obind]; try done.
Qed.

Lemma inner_while_single (rest : list NodeInfo) :
  forall (pre : list NodeInfo) (fuel : nat),
    (length rest < fuel)%nat ->
    inner_while fuel (pre ++ rest) [pod] ([len pre - 1], 0, true)
    = Ok (match list_find (fun node => can_schedule node pod = true) rest with
          | Some (j, _) => ([len pre + Z.of_nat j], -1, true)
          | None => ([len (pre ++ rest)], 0, true)
          end).
Proof.
  induction rest as [|node rest IH]; intros pre fuel Hfuel;
    (destruct fuel as [|fuel]; [cbn in Hfuel; lia|]);
    cbn [inner_while]; change ((0 <=? 0) && true) with true; cbn match;
    rewrite inner_body_single by (unfold len; lia);
    replace (len pre - 1 + 1) with (len pre) by lia.
  - rewrite app_nil_r, Z.eqb_refl. done.
  - assert ((len pre =? len (pre ++ node :: rest)) = false) as ->.
    { apply Z.eqb_neq. unfold len. rewrite length_app. cbn [length]. lia. }
    unfold len at 1. rewrite (getitem_nat _ _ node). 2:{ apply list_lookup_middle. reflexivity. }
    cbn [obind list_find]. destruct (decide (can_schedule node pod = true)) as [Hfit|Hfit].
    + rewrite Hfit. cbn [obind]. rewrite inner_while_done. cbn. by rewrite Z.add_0_r.
    + apply not_true_is_false in Hfit. rewrite Hfit.
      specialize (IH (pre ++ [node]) fuel).
      rewrite <- app_assoc in IH. cbn [app] in IH.
      replace (len (pre ++ [node]) - 1) with (len pre) in IH
        by (unfold len; rewrite length_app; cbn [length]; lia).
      cbn [obind]. rewrite IH by (cbn in Hfuel; lia).
      destruct (list_find (fun node => can_schedule node pod = true) rest) as [[j node']|]; cbn; [|done].
      do 4 f_equal. unfold len. rewrite length_app. cbn [length]. lia.
Qed.

Lemma outer_body_single (rest pre : list NodeInfo) (best : list Z) (minimum : Q) :
  outer_body (pre ++ rest) [pod] ([len pre - 1], best, minimum)
  = Ok (match list_find (fun node => can_schedule node pod = true) rest with
        | Some (j, _) =>
            if Qlt_bool 0 minimum
            then Continue ([len pre + Z.of_nat j], [len pre + Z.of_nat j], 0%Q)
            else Continue ([len pre + Z.of_nat j], best, minimum)
        | None => Break ([len (pre ++ rest)], best, minimum)
        end).
Proof.
  unfold outer_body.
  change (len [len pre - 1] - 1) with 0.
  rewrite inner_while_single.
  2:{ unfold inner_fuel, len. cbn [fold_right]. rewrite length_app. lia. }
  cbn [obind]. destruct (list_find (fun node => can_schedule node pod = true) rest) as [[j node]|] eqn:Hfind.
  - change (getitem [len pre + Z.of_nat j] (-1)) with (Ok (len pre + Z.of_nat j)).
    cbn [obind].
    assert ((len pre + Z.of_nat j =? len (pre ++ rest)) = false) as ->.
    { apply list_find_Some in Hfind as (Hj & _). apply lookup_lt_Some in Hj.
      apply Z.eqb_neq. unfold len. rewrite length_app. lia. }
    change (assignment_distance (pre ++ rest) [pod] [len pre + Z.of_nat j]) with (Ok 0%Q).
    cbn [obind]. by destruct (Qlt_bool 0 minimum).
  - change (getitem [len (pre ++ rest)] (-1)) with (Ok (len (pre ++ rest))).
    cbn [obind]. by rewrite Z.eqb_refl.
Qed.

Lemma split_after (rest pre : list NodeInfo) (j : nat) :
  (j < length rest)%nat ->
  pre ++ rest = (pre ++ take (S j) rest) ++ drop (S j) rest
  /\ len pre + Z.of_nat j = len (pre ++ take (S j) rest) - 1
  /\ (length (drop (S j) rest) < length rest)%nat.
Proof.
  intros Hj. rewrite <- app_assoc, take_drop. split; [done|].
  unfold len. rewrite length_app, length_take, length_drop. lia.
Qed.

(** Once an assignment is recorded with distance 0, no later one
    replaces it. *)
Lemma outer_while_single_found (fuel : nat) :
  forall (rest pre : list NodeInfo) (best : list Z),
    (length rest < fuel)%nat ->
    outer_while fuel (pre ++ rest) [pod] ([len pre - 1], best, 0%Q) = Ok best.
Proof.
  induction fuel as [|fuel IH]; intros rest pre best Hfuel; [lia|].
  cbn [outer_while]. rewrite outer_body_single. cbn [obind].
  destruct (list_find (fun node => can_schedule node pod = true) rest) as [[j node]|] eqn:Hfind; [|done].
  change (Qlt_bool 0 0) with false. cbn match.
  apply list_find_Some in Hfind as (Hj & _). apply lookup_lt_Some in Hj.
  destruct (split_after rest pre j Hj) as (-> & -> & Hlen).
  apply IH. lia.
Qed.

Lemma outer_while_single (fuel : nat) (rest pre : list NodeInfo) :
  (length rest < fuel)%nat ->
  outer_while fuel (pre ++ rest) [pod] ([len pre - 1], [], 1000000000%Q)
  = Ok (match list_find (fun node => can_schedule node pod = true) rest with
        | Some (j, _) => [len pre + Z.of_nat j]
        | None => []
        end).
Proof.
  intros Hfuel. destruct fuel as [|fuel]; [lia|].
  cbn [outer_while]. rewrite outer_body_single. cbn [obind].
  destruct (list_find (fun node => can_schedule node pod = true) rest) as [[j node]|] eqn:Hfind; [|done].
  change (Qlt_bool 0 1000000000) with true. cbn match.
  apply list_find_Some in Hfind as (Hj & _). apply lookup_lt_Some in Hj.
  destruct (split_after rest pre j Hj) as (Hsplit & Hpos & Hlen).
  rewrite Hsplit. rewrite Hpos at 1.
  by rewrite outer_while_single_found by lia.
Qed.

End SinglePod.

(** X24: for a job of one pod the search is a first fit: it returns the
    index of the first node, in the order given, on which the pod can
    be scheduled, and the empty assignment when there is none. *)
Theorem calculate_pods_assignment_single_pod
    (sorted_nodes : list NodeInfo) (pod : PodRecord) :
  calculate_pods_assignment sorted_nodes [pod]
  = Ok (match list_find (fun node => can_schedule node pod = true) sorted_nodes with
        | Some (j, _) => [Z.of_nat j]
        | None => []
        end).
Proof.
  unfold calculate_pods_assignment.
  change (initial_assignment (length [pod])) with [len (@nil NodeInfo) - 1].
  rewrite (outer_while_single pod _ sorted_nodes []) by lia.
  by destruct (list_find _ sorted_nodes) as [[j node]|].
Qed.

(** X25: when all nodes have topology keys of one length and there is
    at least one pod, the search returns: it neither raises nor runs
    on, and what it returns is empty or a feasible assignment. *)
Theorem calculate_pods_assignment_total
    (sorted_nodes : list NodeInfo) (sorted_pods : list PodRecord) :
  sorted_pods ≠ [] -> uniform_keys sorted_nodes ->
  exists a,
    calculate_pods_assignment sorted_nodes sorted_pods = Ok a
    /\ (a = [] \/ feasible_assignment sorted_nodes sorted_pods a).
Proof.
  intros Hpods Huniform.
  pose proof (calculate_pods_assignment_spec sorted_nodes sorted_pods) as Hspec.
  destruct (calculate_pods_assignment sorted_nodes sorted_pods) as [a|e|];
    [by exists a| |done].
  by destruct Hspec.
Qed.

Lemma calculate_pods_assignment_total_witness :
  exists a,
    calculate_pods_assignment ex2_nodes ex2_pods = Ok a
    /\ (a = [] \/ feasible_assignment ex2_nodes ex2_pods a).
Proof.
  apply calculate_pods_assignment_total; [done|].
  intros node1 node2 Hnode1 Hnode2. unfold ex2_nodes in Hnode1, Hnode2.
  repeat (apply elem_of_cons in Hnode1 as [->|Hnode1]);
    try (by apply elem_of_nil in Hnode1);
    repeat (apply elem_of_cons in Hnode2 as [->|Hnode2]);
    try (by apply elem_of_nil in Hnode2); reflexivity.
Defined.

(** ** Fit and distance *)

(** X26: a pod that fits on a node fits on every node that has the
    labels of that node and at least its free resources. *)
Theorem can_schedule_monotone (node node' : NodeInfo) (pod : PodRecord) :
  node_labels node ⊆ node_labels node' ->
  (node_cpu node <= node_cpu node')%Q ->
  (node_memory node <= node_memory node')%Q ->
  node_gpu node <= node_gpu node' ->
  can_schedule node pod = true ->
  can_schedule node' pod = true.
Proof.
  intros Hlabels Hcpu Hmemory Hgpu. rewrite !can_schedule_spec.
  intros (Hselector & Hc & Hm & Hg). split; [|split; [|split]].
  - intros key value Hitem. eapply lookup_weaken; [|exact Hlabels]. by apply Hselector.
  - by eapply Qle_trans.
  - by eapply Qle_trans.
  - lia.
Qed.

Lemma can_schedule_monotone_witness :
  can_schedule (ex_node_info "n0" (topology_labels "pg" "c" "r" "h0") [])
    (ex_plain "a-0" "a") = true
  /\ can_schedule (ex_node_info "n0" (topology_labels "pg" "c" "r" "h0") ["fits-pod1"])
       (ex_plain "a-0" "a") = true.
Proof.
  assert (Hfit : can_schedule (ex_node_info "n0" (topology_labels "pg" "c" "r" "h0") [])
                   (ex_plain "a-0" "a") = true) by (vm_compute; reflexivity).
  split; [exact Hfit|].
  apply (can_schedule_monotone
           (ex_node_info "n0" (topology_labels "pg" "c" "r" "h0") [])); try exact Hfit.
  - cbn. apply map_subseteq_spec. intros key value Hkey.
    apply lookup_insert_Some. right. split; [|exact Hkey].
    intros <-. vm_compute in Hkey. discriminate Hkey.
  - apply Qle_refl.
  - apply Qle_refl.
  - cbn. lia.
Defined.

Lemma node_topology_key_length (node : NodeInfo) :
  node_topology_key node = [] \/ length (node_topology_key node) = 4%nat.
Proof.
  unfold node_topology_key. repeat case_match; auto.
Qed.

(** X27: the distance of two nodes raises IndexError exactly when the
    first node has all four topology labels and the second does not;
    with the nodes the other way round it is 0. *)
Theorem node_topology_distance_index_error (node1 node2 : NodeInfo) :
  (node_topology_distance node1 node2 = Raise IndexError
   <-> node_topology_key node1 ≠ [] /\ node_topology_key node2 = [])
  /\ (node_topology_key node1 = [] -> node_topology_distance node1 node2 = Ok 0%Q).
Proof.
  unfold node_topology_distance. split; [split|].
  - intros Hraise.
    destruct (node_topology_key_length node1) as [H1|H1];
      [by rewrite H1 in Hraise|].
    destruct (node_topology_key_length node2) as [H2|H2].
    + split; [|done]. intros Hnil. by rewrite Hnil in H1.
    + destruct (distance_loop_same_length (node_topology_key node1)
                  (node_topology_key node2) 1000000%Q) as [d Hd]; [congruence|].
      congruence.
  - intros [H1 H2]. rewrite H2. by destruct (node_topology_key node1).
  - by intros ->.
Qed.

Lemma distance_loop_sym (k1 : list string) :
  forall k2 r, length k1 = length k2 -> distance_loop k1 k2 r = distance_loop k2 k1 r.
Proof.
  induction k1 as [|x k1 IH]; intros [|y k2] r Hlen; try done.
  cbn. injection Hlen as Hlen. rewrite (IH k2 _ Hlen).
  destruct (decide (x = y)) as [->|Hne]; [done|].
  by rewrite !bool_decide_true by congruence.
Qed.

(** X28: between two nodes whose topology keys have the same length,
    both fully labelled or both not, the distance is symmetric. *)
Theorem node_topology_distance_symmetric (node1 node2 : NodeInfo) :
  length (node_topology_key node1) = length (node_topology_key node2) ->
  node_topology_distance node1 node2 = node_topology_distance node2 node1.
Proof. intros Hlen. unfold node_topology_distance. by apply distance_loop_sym. Qed.

Lemma node_topology_distance_symmetric_witness :
  node_topology_distance ex_rack1_node ex_rack2_node
  = node_topology_distance ex_rack2_node ex_rack1_node.
Proof.
  apply node_topology_distance_symmetric. reflexivity.
Defined.

(** ** Tolerations and grouping *)

Lemma tolerations_loop_common (job : list PodRecord) :
  forall ts t,
    tolerations_loop (Some ts) job = Ok t ->
    t = Some ts /\ Forall (fun pod => tolerations (pod_spec pod) = Some ts) job.
Proof.
  induction job as [|pod job IH]; cbn; intros ts t.
  - intros [= <-]. by split.
  - case_bool_decide as Heq; [|done]. intros Hrun.
    destruct (IH _ _ Hrun) as [-> Hall]. split; [done|]. by constructor.
Qed.

(** X29: the tolerations that [get_pods_taint_toleration] returns for a
    job are those of every pod of the job that has any: each pod has
    no tolerations or exactly the returned ones, and after the first
    pod with tolerations every pod has them. *)
Theorem get_pods_taint_toleration_common
    (job : list PodRecord) (ts : list V1Toleration) :
  get_pods_taint_toleration job = Ok ts ->
  exists pre rest,
    job = pre ++ rest
    /\ Forall (fun pod => tolerations (pod_spec pod) = None) pre
    /\ Forall (fun pod => tolerations (pod_spec pod) = Some ts) rest
    /\ (rest = [] -> ts = []).
Proof.
  unfold get_pods_taint_toleration.
  destruct (tolerations_loop None job) as [t| |] eqn:Hloop; cbn [obind]; try done.
  intros [= <-]. revert Hloop. induction job as [|pod job IH]; cbn.
  - intros [= <-]. by exists [], [].
  - destruct (tolerations (pod_spec pod)) as [ts|] eqn:Hpod.
    + intros Hrun. destruct (tolerations_loop_common _ _ _ Hrun) as [-> Hall].
      exists [], (pod :: job). repeat split; [done| |done]. by constructor.
    + intros Hrun. destruct (IH Hrun) as (pre & rest & -> & Hpre & Hrest & Hnil).
      exists (pod :: pre), rest. repeat split; [by constructor|done|done].
Qed.

Lemma get_pods_taint_toleration_common_witness :
  exists pre rest,
    [pod_record ex_pod_b0; pod_record ex_pod_a0] = pre ++ rest
    /\ Forall (fun pod => tolerations (pod_spec pod) = None) pre
    /\ Forall (fun pod => tolerations (pod_spec pod) = Some [ex_toleration]) rest
    /\ (rest = [] -> [ex_toleration] = []).
Proof.
  apply get_pods_taint_toleration_common. vm_compute. reflexivity.
Defined.

Lemma groupby_runs {A B} `{EqDecision B} (key : A -> B) (l : list A) :
  Forall (fun g => exists x, head g = Some x /\ Forall (fun y => key y = key x) g)
    (groupby key l)
  /\ (forall (i : nat) g1 g2 x1 x2,
        groupby key l !! i = Some g1 -> groupby key l !! S i = Some g2 ->
        head g1 = Some x1 -> head g2 = Some x2 -> key x1 ≠ key x2)
  /\ (forall x g, head l = Some x -> head (groupby key l) = Some g -> head g = Some x).
Proof.
  induction l as [|x rest (Hruns & Hadjacent & Hhead)]; cbn [groupby].
  - split; [constructor|]. by split.
  - destruct (groupby key rest) as [|[|y g] gs] eqn:Hgroups.
    + split; [repeat constructor; exists x; by repeat constructor|].
      split; [by intros [|i]|]. cbn. by intros ? ? [= <-] [= <-].
    + apply Forall_inv in Hruns as (? & [=] & _).
    + destruct (decide (key x = key y)) as [Heq|Hne].
      * split; [|split].
        -- apply Forall_cons in Hruns as [(y' & [= <-] & Hg) Hgs].
           constructor; [|done]. exists x. split; [done|].
           constructor; [done|]. eapply Forall_impl; [exact Hg|].
           cbn. intros z ->. done.
        -- intros [|i] g1 g2 x1 x2; cbn.
           ++ intros [= <-] Hg2 [= <-] Hx2. rewrite Heq.
              by apply (Hadjacent 0%nat (y :: g) g2 y x2).
           ++ apply (Hadjacent (S i)).
        -- cbn. by intros ? ? [= <-] [= <-].
      * split; [|split].
        -- constructor; [|done]. exists x. by repeat constructor.
        -- intros [|i] g1 g2 x1 x2; cbn.
           ++ by intros [= <-] [= <-] [= <-] [= <-].
           ++ apply (Hadjacent i).
        -- cbn. by intros ? ? [= <-] [= <-].
Qed.

(** X30: [split_pods_based_on_jobs] cuts the listed pods into
    consecutive runs: the groups joined give the list back, no group is
    empty, the pods of a group have one job name, and two groups next
    to each other have different job names. *)
Theorem split_pods_based_on_jobs_runs (pods : list PodRecord) :
  concat (split_pods_based_on_jobs pods) = pods
  /\ Forall (fun job =>
       exists pod, head job = Some pod
         /\ Forall (fun other => pod_job_name other = pod_job_name pod) job)
       (split_pods_based_on_jobs pods)
  /\ (forall (i : nat) job1 job2 pod1 pod2,
        split_pods_based_on_jobs pods !! i = Some job1 ->
        split_pods_based_on_jobs pods !! S i = Some job2 ->
        pod1 ∈ job1 -> pod2 ∈ job2 ->
        pod_job_name pod1 ≠ pod_job_name pod2).
Proof.
  unfold split_pods_based_on_jobs.
  destruct (groupby_runs pod_job_name pods) as (Hruns & Hadjacent & _).
  split; [apply groupby_concat|]. split; [exact Hruns|].
  intros i job1 job2 pod1 pod2 Hjob1 Hjob2 Hpod1 Hpod2.
  rewrite Forall_forall in Hruns.
  destruct (Hruns job1 (list_elem_of_lookup_2 _ _ _ Hjob1)) as (x1 & Hx1 & Hall1).
  destruct (Hruns job2 (list_elem_of_lookup_2 _ _ _ Hjob2)) as (x2 & Hx2 & Hall2).
  rewrite Forall_forall in Hall1. rewrite Forall_forall in Hall2.
  rewrite (Hall1 pod1 Hpod1), (Hall2 pod2 Hpod2).
  by apply (Hadjacent i job1 job2).
Qed.
